(** * colorthief: modified median cut quantization (MMCQ)

    A shallow embedding of [colorthief.py] and the properties of its
    quantizer, colour regions, priority queue and colour map.

    Conventions of the embedding.
    - Python integers are [Z]; [>>] and [<<] are [Z.shiftr] and [Z.shiftl].
    - A [dict] keyed by integers is a [gmap Z _]; [d.get(k, 0)] is
      [default 0 (d !! k)].
    - [range(a, b)] is [seqZ a (b - a)].
    - The floating point expressions of the quantizer are evaluated on
      exact numbers: [int(x / y)] is the quotient truncated towards zero,
      [p > total / 2] is [total < 2 * p], the target [0.75 * max_color] is a
      rational, and a distribution fraction is a rational.  Every float the
      source computes there on 8-bit pixels is a dyadic number far below
      2^53, so these are the values Python computes.
    - The distances of [CMap.nearest] are computed on IEEE 754 binary64
      numbers ([Float64] below), with their rounding and their
      OverflowError.
    - A [raise] is the outcome [Raise]; a loop that would not stop is the
      outcome [Loops]. *)

From Stdlib Require Import ZArith QArith Ascii String List Lia.
From Stdlib Require SpecFloat.
From stdpp Require Import base option list gmap sorting.

Local Open Scope Z_scope.

(** ** Outcomes: a value, a raised exception, or a loop that does not stop *)

Inductive exn : Type :=
| Exception (msg : string)
| IndexError
| KeyError
| ValueError
| ZeroDivisionError
| OverflowError.

Inductive result (A : Type) : Type :=
| Ok (a : A)
| Raise (e : exn)
| Loops.

Arguments Ok {A} a.
Arguments Raise {A} e.
Arguments Loops {A}.

#[global] Instance result_ret : MRet result := λ A a, Ok a.

#[global] Instance result_bind : MBind result := λ A B k m,
  match m with
  | Ok a => k a
  | Raise e => Raise e
  | Loops => Loops
  end.

#[global] Instance result_fmap : FMap result := λ A B f m,
  match m with
  | Ok a => Ok (f a)
  | Raise e => Raise e
  | Loops => Loops
  end.

(** The three exceptions raised by [MMCQ.quantize], told apart by their
    messages. *)
Definition EmptyInput : exn := Exception "Empty pixels when quantize.".
Definition InvalidArgument : exn :=
  Exception "Wrong number of max colors when quantize.".
Definition InternalInvariantViolation : exn :=
  Exception "vbox1 not defined; shouldn't happen!".

Definition is_ok {A : Type} (m : result A) : bool :=
  match m with Ok _ => true | _ => false end.

(** Python's [range(start, stop)]. *)
Definition range (start stop : Z) : list Z := seqZ start (stop - start).

(** Truthiness of [d.get(k, False)] and of [d.get(k)] on an integer dict:
    a missing key and the value 0 are both false. *)
Definition truthy (o : option Z) : bool :=
  match o with
  | Some v => negb (v =? 0)
  | None => false
  end.

(** [int(n / d)] for integers (or exact dyadic floats) [n] and [d]: true
    division followed by truncation towards zero. *)
Definition int_div (n d : Z) : Z := Z.quot n d.

(** ** Python floats

    A Python float is an IEEE 754 binary64 number; [SpecFloat] gives the
    numbers and their operations, each rounded to nearest, ties to even. *)

Module Float64.

Definition prec : Z := 53.
Definition emax : Z := 1024.

Definition float : Type := SpecFloat.spec_float.

(** The conversion of an int to a float: the nearest float, or
    OverflowError ('int too large to convert to float'). *)
Definition of_int (n : Z) : result float :=
  match SpecFloat.binary_normalize prec emax n 0 false with
  | SpecFloat.S754_infinity _ => Raise OverflowError
  | x => Ok x
  end.

(** [math.pow(n, 2)] on an int [n]: the square of [float(n)], rounded as
    one IEEE operation; a result that overflows raises OverflowError
    ('math range error'). *)
Definition pow_2 (n : Z) : result float :=
  x ← of_int n;
  match SpecFloat.SFmul prec emax x x with
  | SpecFloat.S754_infinity _ => Raise OverflowError
  | y => Ok y
  end.

(** [x + y] on floats; an overflow gives an infinity, not an exception. *)
Definition add (x y : float) : float := SpecFloat.SFadd prec emax x y.

(** [math.sqrt(x)]: ValueError ('math domain error') below zero. *)
Definition sqrt (x : float) : result float :=
  match x with
  | SpecFloat.S754_finite true _ _ | SpecFloat.S754_infinity true =>
      Raise ValueError
  | _ => Ok (SpecFloat.SFsqrt prec emax x)
  end.

(** [x < y] on floats. *)
Definition ltb (x y : float) : bool := SpecFloat.SFltb x y.

End Float64.

(** ** PQueue: the lazily sorted priority queue *)

Module PQueue.

Section Sort.
Context {A : Type} (key : A → Z).

(** [list.sort(key=...)] sorts ascending and is stable.  The embedding is
    the stable insertion sort; [sort_stable_unique] below shows that any
    stable ascending sort returns the same list. *)
Fixpoint insert (x : A) (l : list A) : list A :=
  match l with
  | [] => [x]
  | y :: l' => if key x <=? key y then x :: y :: l' else y :: insert x l'
  end.

Definition list_sort (l : list A) : list A := foldr insert [] l.
End Sort.

Record t (A : Type) : Type := mk {
  sort_key : A → Z;
  contents : list A;
  _sorted : bool
}.
Arguments mk {A} _ _ _.
Arguments sort_key {A} _.
Arguments contents {A} _.
Arguments _sorted {A} _.

Section Ops.
Context {A : Type}.

Definition new (sort_key : A → Z) : t A := mk sort_key [] false.

Definition sort (q : t A) : t A :=
  mk (sort_key q) (list_sort (sort_key q) (contents q)) true.

Definition push (q : t A) (o : A) : t A :=
  mk (sort_key q) (contents q ++ [o]) false.

Definition size (q : t A) : Z := Z.of_nat (length (contents q)).

(** [self.contents[index]], with Python's negative indices. *)
Definition getitem (l : list A) (index : Z) : result A :=
  let n := Z.of_nat (length l) in
  let i := if index <? 0 then index + n else index in
  if (i <? 0) || (n <=? i) then Raise IndexError
  else match l !! Z.to_nat i with
       | Some x => Ok x
       | None => Raise IndexError
       end.

Definition peek (q : t A) (index : option Z) : result (A * t A) :=
  let q := if _sorted q then q else sort q in
  let index := match index with
               | None => Z.of_nat (length (contents q)) - 1
               | Some i => i
               end in
  x ← getitem (contents q) index;
  Ok (x, q).

Definition pop (q : t A) : result (A * t A) :=
  let q := if _sorted q then q else sort q in
  match last (contents q) with
  | Some x => Ok (x, mk (sort_key q) (removelast (contents q)) (_sorted q))
  | None => Raise IndexError
  end.

Definition map {B : Type} (f : A → B) (q : t A) : list B :=
  List.map f (contents q).
End Ops.

End PQueue.

(** ** Constants and the cube index of class MMCQ *)

Definition SIGBITS : Z := 5.
Definition RSHIFT : Z := 8 - SIGBITS.
Definition MAX_ITERATION : Z := 1000.
Definition FRACT_BY_POPULATIONS : Q := 3 # 4.

Definition get_color_index (r g b : Z) : Z :=
  Z.shiftl r (2 * SIGBITS) + Z.shiftl g SIGBITS + b.

(** A pixel or a colour: [(r, g, b)]. *)
Definition pixel : Type := Z * Z * Z.

Definition reduce (p : pixel) : pixel :=
  let '(r, g, b) := p in
  (Z.shiftr r RSHIFT, Z.shiftr g RSHIFT, Z.shiftr b RSHIFT).

(** ** VBox: a box of the reduced colour cube *)

Module VBox.

Record t : Type := mk {
  r1 : Z; r2 : Z;
  g1 : Z; g2 : Z;
  b1 : Z; b2 : Z;
  histo : gmap Z Z
}.

Definition volume (v : t) : Z :=
  let sub_r := r2 v - r1 v in
  let sub_g := g2 v - g1 v in
  let sub_b := b2 v - b1 v in
  (sub_r + 1) * (sub_g + 1) * (sub_b + 1).

Definition copy (v : t) : t :=
  mk (r1 v) (r2 v) (g1 v) (g2 v) (b1 v) (b2 v) (histo v).

(** The triple loop shared by [count] and [avg]: a left fold over the cells
    of the box in the order r, g, b. *)
Definition cells (v : t) : list pixel :=
  i ← range (r1 v) (r2 v + 1);
  j ← range (g1 v) (g2 v + 1);
  k ← range (b1 v) (b2 v + 1);
  [(i, j, k)].

Definition hval (h : gmap Z Z) (c : pixel) : Z :=
  let '(i, j, k) := c in default 0 (h !! get_color_index i j k).

Definition count (v : t) : Z :=
  foldl (λ npix c, npix + hval (histo v) c) 0 (cells v).

(** [hval * (i + 0.5) * mult] is the integer [hval * (2 * i + 1) * mult / 2];
    [mult] is 8, so the sums stay integers. *)
Definition avg (v : t) : pixel :=
  let mult := Z.shiftl 1 (8 - SIGBITS) in
  let '(ntot, r_sum, g_sum, b_sum) :=
    foldl (λ '(ntot, r_sum, g_sum, b_sum) c,
             let '(i, j, k) := c in
             let hval := hval (histo v) c in
             (ntot + hval,
              r_sum + hval * (2 * i + 1) * (mult / 2),
              g_sum + hval * (2 * j + 1) * (mult / 2),
              b_sum + hval * (2 * k + 1) * (mult / 2)))
          (0, 0, 0, 0) (cells v) in
  if negb (ntot =? 0) then
    (int_div r_sum ntot, int_div g_sum ntot, int_div b_sum ntot)
  else
    (int_div (mult * (r1 v + r2 v + 1)) 2,
     int_div (mult * (g1 v + g2 v + 1)) 2,
     int_div (mult * (b1 v + b2 v + 1)) 2).

Definition contains (v : t) (p : pixel) : bool :=
  let '(rval, gval, bval) := reduce p in
  forallb id
    [ r1 v <=? rval; rval <=? r2 v;
      g1 v <=? gval; gval <=? g2 v;
      b1 v <=? bval; bval <=? b2 v ].

End VBox.

(** ** CMap: the colour map returned by the quantizer *)

Module CMap.

(** The dict [{'vbox': vbox, 'color': vbox.avg}]. *)
Record entry : Type := mk_entry { vbox : VBox.t; color : pixel }.

Record t : Type := mk { vboxes : PQueue.t entry }.

Definition new : t :=
  mk (PQueue.new (λ x, VBox.count (vbox x) * VBox.volume (vbox x))).

Definition palette (c : t) : list pixel := PQueue.map color (vboxes c).

(** [x['vbox'].count / float(total)] as an exact fraction; the division is
    only evaluated when there is an entry. *)
Definition palette_distribution (c : t) : result (list (pixel * Q)) :=
  let total := foldl Z.add 0 (PQueue.map (λ x, VBox.count (vbox x)) (vboxes c)) in
  mapM (λ x, if total =? 0 then Raise ZeroDivisionError
             else Ok (color x, (inject_Z (VBox.count (vbox x)) / inject_Z total)%Q))
       (PQueue.contents (vboxes c)).

Definition push (c : t) (v : VBox.t) : t :=
  mk (PQueue.push (vboxes c) (mk_entry v (VBox.avg v))).

Definition size (c : t) : Z := PQueue.size (vboxes c).

(** The distance [math.sqrt(math.pow(..., 2) + math.pow(..., 2) +
    math.pow(..., 2))] between two colours, a float. *)
Definition dist (a b : pixel) : result Float64.float :=
  let '(a0, a1, a2) := a in
  let '(c0, c1, c2) := b in
  p0 ← Float64.pow_2 (a0 - c0);
  p1 ← Float64.pow_2 (a1 - c1);
  p2 ← Float64.pow_2 (a2 - c2);
  Float64.sqrt (Float64.add (Float64.add p0 p1) p2).

Fixpoint nearest_loop (idxs : list Z) (q : PQueue.t entry) (color0 : pixel)
    (d1 : option Float64.float) (p_color : option pixel)
  : result (option pixel * PQueue.t entry) :=
  match idxs with
  | [] => Ok (p_color, q)
  | i :: idxs =>
      '(vbox, q) ← PQueue.peek q (Some i);
      d2 ← dist color0 (color vbox);
      if match d1 with None => true | Some d1 => Float64.ltb d2 d1 end
      then nearest_loop idxs q color0 (Some d2) (Some (color vbox))
      else nearest_loop idxs q color0 d1 p_color
  end.

Definition nearest (c : t) (color0 : pixel) : result (option pixel * t) :=
  '(p_color, q) ← nearest_loop (range 0 (PQueue.size (vboxes c)))
                                (vboxes c) color0 None None;
  Ok (p_color, mk q).

Fixpoint map_loop (idxs : list Z) (q : PQueue.t entry) (color0 : pixel)
  : result (option pixel * PQueue.t entry) :=
  match idxs with
  | [] => Ok (None, q)
  | i :: idxs =>
      '(vbox_, q) ← PQueue.peek q (Some i);
      if VBox.contains (vbox vbox_) color0 then Ok (Some (color vbox_), q)
      else map_loop idxs q color0
  end.

Definition map (c : t) (color0 : pixel) : result (option pixel * t) :=
  '(found, q) ← map_loop (range 0 (PQueue.size (vboxes c))) (vboxes c) color0;
  match found with
  | Some col => Ok (Some col, mk q)
  | None => nearest (mk q) color0
  end.

End CMap.

(** ** MMCQ: histogram, median cut and the two-phase quantizer *)

Module MMCQ.

Definition get_histo (pixels : list pixel) : gmap Z Z :=
  foldl (λ histo pixel,
           let '(rval, gval, bval) := reduce pixel in
           let index := get_color_index rval gval bval in
           <[index := default 0 (histo !! index) + 1]> histo)
        ∅ pixels.

Definition vbox_from_pixels (pixels : list pixel) (histo : gmap Z Z) : VBox.t :=
  let '(rmin, rmax, gmin, gmax, bmin, bmax) :=
    foldl (λ '(rmin, rmax, gmin, gmax, bmin, bmax) pixel,
             let '(rval, gval, bval) := reduce pixel in
             (Z.min rval rmin, Z.max rval rmax,
              Z.min gval gmin, Z.max gval gmax,
              Z.min bval bmin, Z.max bval bmax))
          (1000000, 0, 1000000, 0, 1000000, 0) pixels in
  VBox.mk rmin rmax gmin gmax bmin bmax histo.

(** [do_cut_color]: 'r', 'g' or 'b'. *)
Inductive axis : Type := R | G | B.

(** [getattr(vbox, do_cut_color + '1')] and [... + '2']. *)
Definition dim1 (a : axis) (v : VBox.t) : Z :=
  match a with R => VBox.r1 v | G => VBox.g1 v | B => VBox.b1 v end.

Definition dim2 (a : axis) (v : VBox.t) : Z :=
  match a with R => VBox.r2 v | G => VBox.g2 v | B => VBox.b2 v end.

(** [setattr(vbox, do_cut_color + '1', d)] and [... + '2']. *)
Definition set_dim1 (a : axis) (v : VBox.t) (d : Z) : VBox.t :=
  match a with
  | R => VBox.mk d (VBox.r2 v) (VBox.g1 v) (VBox.g2 v) (VBox.b1 v) (VBox.b2 v) (VBox.histo v)
  | G => VBox.mk (VBox.r1 v) (VBox.r2 v) d (VBox.g2 v) (VBox.b1 v) (VBox.b2 v) (VBox.histo v)
  | B => VBox.mk (VBox.r1 v) (VBox.r2 v) (VBox.g1 v) (VBox.g2 v) d (VBox.b2 v) (VBox.histo v)
  end.

Definition set_dim2 (a : axis) (v : VBox.t) (d : Z) : VBox.t :=
  match a with
  | R => VBox.mk (VBox.r1 v) d (VBox.g1 v) (VBox.g2 v) (VBox.b1 v) (VBox.b2 v) (VBox.histo v)
  | G => VBox.mk (VBox.r1 v) (VBox.r2 v) (VBox.g1 v) d (VBox.b1 v) (VBox.b2 v) (VBox.histo v)
  | B => VBox.mk (VBox.r1 v) (VBox.r2 v) (VBox.g1 v) (VBox.g2 v) (VBox.b1 v) d (VBox.histo v)
  end.

(** The axis test of [median_cut_apply]: the first of r, g, b whose extent
    equals the largest one. *)
Definition cut_color (v : VBox.t) : axis :=
  let rw := VBox.r2 v - VBox.r1 v + 1 in
  let gw := VBox.g2 v - VBox.g1 v + 1 in
  let bw := VBox.b2 v - VBox.b1 v + 1 in
  let maxw := Z.max rw (Z.max gw bw) in
  if maxw =? rw then R
  else if maxw =? gw then G
  else B.

(** The inner double loop: the population [sum_] of slice [i] of the axis. *)
Definition slice_sum (histo : gmap Z Z) (a : axis) (v : VBox.t) (i : Z) : Z :=
  match a with
  | R =>
      foldl (λ sum_ j,
               foldl (λ sum_ k, sum_ + default 0 (histo !! get_color_index i j k))
                     sum_ (range (VBox.b1 v) (VBox.b2 v + 1)))
            0 (range (VBox.g1 v) (VBox.g2 v + 1))
  | G =>
      foldl (λ sum_ j,
               foldl (λ sum_ k, sum_ + default 0 (histo !! get_color_index j i k))
                     sum_ (range (VBox.b1 v) (VBox.b2 v + 1)))
            0 (range (VBox.r1 v) (VBox.r2 v + 1))
  | B =>
      foldl (λ sum_ j,
               foldl (λ sum_ k, sum_ + default 0 (histo !! get_color_index j k i))
                     sum_ (range (VBox.g1 v) (VBox.g2 v + 1)))
            0 (range (VBox.r1 v) (VBox.r2 v + 1))
  end.

(** The outer loop: [total] and the dict [partialsum]. *)
Definition partial_sums (histo : gmap Z Z) (a : axis) (v : VBox.t)
  : Z * gmap Z Z :=
  foldl (λ '(total, partialsum) i,
           let sum_ := slice_sum histo a v i in
           let total := total + sum_ in
           (total, <[i := total]> partialsum))
        (0, ∅) (range (dim1 a v) (dim2 a v + 1)).

(** [while not partialsum.get(d2, False): d2 += 1].  The keys of
    [partialsum] are at most [dim2_val]; with [fuel = dim2_val + 1 - d2]
    the loop has left the keys when the fuel is spent, and never stops. *)
Fixpoint skip_empty (fuel : nat) (partialsum : gmap Z Z) (d2 : Z) : result Z :=
  if truthy (partialsum !! d2) then Ok d2
  else match fuel with
       | O => Loops
       | S fuel => skip_empty fuel partialsum (d2 + 1)
       end.

(** [while not count2 and partialsum.get(d2-1, False): d2 -= 1; count2 = ...] *)
Fixpoint back_off (fuel : nat) (partialsum lookaheadsum : gmap Z Z)
    (d2 : Z) (count2 : option Z) : result Z :=
  if negb (truthy count2) && truthy (partialsum !! (d2 - 1)) then
    match fuel with
    | O => Loops
    | S fuel =>
        back_off fuel partialsum lookaheadsum (d2 - 1) (lookaheadsum !! (d2 - 1))
    end
  else Ok d2.

(** The body of the cut loop once [partialsum[i] > total / 2]. *)
Definition cut (v : VBox.t) (a : axis) (partialsum lookaheadsum : gmap Z Z)
    (i : Z) : result (option VBox.t * option VBox.t) :=
  let dim1_val := dim1 a v in
  let dim2_val := dim2 a v in
  let vbox1 := VBox.copy v in
  let vbox2 := VBox.copy v in
  let left := i - dim1_val in
  let right := dim2_val - i in
  let d2 :=
    if left <=? right
    then Z.min (dim2_val - 1) (int_div (2 * i + right) 2)
    else Z.max dim1_val (int_div (2 * (i - 1) - left) 2) in
  d2 ← skip_empty (Z.to_nat (dim2_val + 1 - d2)) partialsum d2;
  let count2 := lookaheadsum !! d2 in
  d2 ← back_off (Z.to_nat (d2 - dim1_val)) partialsum lookaheadsum d2 count2;
  let vbox1 := set_dim2 a vbox1 d2 in
  let vbox2 := set_dim1 a vbox2 (dim2 a vbox1 + 1) in
  Ok (Some vbox1, Some vbox2).

(** [for i in range(dim1_val, dim2_val+1): if partialsum[i] > total / 2: ...] *)
Fixpoint cut_scan (v : VBox.t) (a : axis) (total : Z)
    (partialsum lookaheadsum : gmap Z Z) (idxs : list Z)
  : result (option VBox.t * option VBox.t) :=
  match idxs with
  | [] => Ok (None, None)
  | i :: idxs =>
      match partialsum !! i with
      | None => Raise KeyError
      | Some p =>
          if total <? 2 * p then cut v a partialsum lookaheadsum i
          else cut_scan v a total partialsum lookaheadsum idxs
      end
  end.

Definition median_cut_apply (histo : gmap Z Z) (vbox : VBox.t)
  : result (option VBox.t * option VBox.t) :=
  if VBox.count vbox =? 0 then Ok (None, None)
  else if VBox.count vbox =? 1 then Ok (Some (VBox.copy vbox), None)
  else
    let do_cut_color := cut_color vbox in
    let '(total, partialsum) := partial_sums histo do_cut_color vbox in
    let lookaheadsum := (λ d, total - d) <$> partialsum in
    cut_scan vbox do_cut_color total partialsum lookaheadsum
             (range (dim1 do_cut_color vbox) (dim2 do_cut_color vbox + 1)).

(** The loop of [iter_].  Every pass adds one to [n_iter], so the fuel
    [MAX_ITERATION + 1] is never spent. *)
Fixpoint iter_loop (fuel : nat) (histo : gmap Z Z) (target : Q)
    (lh : PQueue.t VBox.t) (n_color n_iter : Z) : result (PQueue.t VBox.t) :=
  match fuel with
  | O => Loops
  | S fuel =>
      if n_iter <? MAX_ITERATION then
        '(vbox, lh) ← PQueue.pop lh;
        if VBox.count vbox =? 0 then
          iter_loop fuel histo target (PQueue.push lh vbox) n_color (n_iter + 1)
        else
          '(vbox1, vbox2) ← median_cut_apply histo vbox;
          match vbox1 with
          | None => Raise (Exception "vbox1 not defined; shouldn't happen!")
          | Some vbox1 =>
              let lh := PQueue.push lh vbox1 in
              let '(lh, n_color) :=
                match vbox2 with
                | Some vbox2 => (PQueue.push lh vbox2, n_color + 1)
                | None => (lh, n_color)
                end in
              if Qle_bool target (inject_Z n_color) then Ok lh
              else if MAX_ITERATION <? n_iter then Ok lh
              else iter_loop fuel histo target lh n_color (n_iter + 1)
          end
      else Ok lh
  end.

Definition iter_ (histo : gmap Z Z) (lh : PQueue.t VBox.t) (target : Q)
  : result (PQueue.t VBox.t) :=
  iter_loop (S (Z.to_nat MAX_ITERATION)) histo target lh 1 0.

(** [while pq.size(): pq2.push(pq.pop())] *)
Fixpoint refill (fuel : nat) (pq pq2 : PQueue.t VBox.t)
  : result (PQueue.t VBox.t) :=
  if PQueue.size pq =? 0 then Ok pq2
  else match fuel with
       | O => Loops
       | S fuel => '(v, pq) ← PQueue.pop pq; refill fuel pq (PQueue.push pq2 v)
       end.

(** [while pq2.size(): cmap.push(pq2.pop())] *)
Fixpoint drain (fuel : nat) (pq2 : PQueue.t VBox.t) (cmap : CMap.t)
  : result CMap.t :=
  if PQueue.size pq2 =? 0 then Ok cmap
  else match fuel with
       | O => Loops
       | S fuel => '(v, pq2) ← PQueue.pop pq2; drain fuel pq2 (CMap.push cmap v)
       end.

(** The test [if len(histo) <= max_color: pass] of the source has an empty
    body and is left out. *)
Definition quantize (pixels : list pixel) (max_color : Z) : result CMap.t :=
  if bool_decide (pixels = []) then
    Raise (Exception "Empty pixels when quantize.")
  else if (max_color <? 2) || (256 <? max_color) then
    Raise (Exception "Wrong number of max colors when quantize.")
  else
    let histo := get_histo pixels in
    let vbox := vbox_from_pixels pixels histo in
    let pq := PQueue.push (PQueue.new VBox.count) vbox in
    pq ← iter_ histo pq (FRACT_BY_POPULATIONS * inject_Z max_color)%Q;
    let pq2 := PQueue.new (λ x, VBox.count x * VBox.volume x) in
    pq2 ← refill (length (PQueue.contents pq)) pq pq2;
    pq2 ← iter_ histo pq2 (inject_Z (max_color - PQueue.size pq2));
    drain (length (PQueue.contents pq2)) pq2 CMap.new.

End MMCQ.

(** ** The queue and the quantizer over any list sort

    [PQueue.sort] calls [self.contents.sort(key=self.sort_key)].  Here the
    sort of the list is left open: the reads of the queue and the quantizer
    are the functions above with [list.sort] as a parameter, so that what
    they return can be compared for different sorts. *)

Module WithSort.

Section Sort.
Variable list_sort : ∀ A : Type, (A → Z) → list A → list A.

Definition sort {A : Type} (q : PQueue.t A) : PQueue.t A :=
  PQueue.mk (PQueue.sort_key q)
            (list_sort A (PQueue.sort_key q) (PQueue.contents q)) true.

Definition peek {A : Type} (q : PQueue.t A) (index : option Z)
  : result (A * PQueue.t A) :=
  let q := if PQueue._sorted q then q else sort q in
  let index := match index with
               | None => Z.of_nat (length (PQueue.contents q)) - 1
               | Some i => i
               end in
  x ← PQueue.getitem (PQueue.contents q) index;
  Ok (x, q).

Definition pop {A : Type} (q : PQueue.t A) : result (A * PQueue.t A) :=
  let q := if PQueue._sorted q then q else sort q in
  match last (PQueue.contents q) with
  | Some x => Ok (x, PQueue.mk (PQueue.sort_key q)
                               (removelast (PQueue.contents q))
                               (PQueue._sorted q))
  | None => Raise IndexError
  end.

Fixpoint iter_loop (fuel : nat) (histo : gmap Z Z) (target : Q)
    (lh : PQueue.t VBox.t) (n_color n_iter : Z) : result (PQueue.t VBox.t) :=
  match fuel with
  | O => Loops
  | S fuel =>
      if n_iter <? MAX_ITERATION then
        '(vbox, lh) ← pop lh;
        if VBox.count vbox =? 0 then
          iter_loop fuel histo target (PQueue.push lh vbox) n_color (n_iter + 1)
        else
          '(vbox1, vbox2) ← MMCQ.median_cut_apply histo vbox;
          match vbox1 with
          | None => Raise (Exception "vbox1 not defined; shouldn't happen!")
          | Some vbox1 =>
              let lh := PQueue.push lh vbox1 in
              let '(lh, n_color) :=
                match vbox2 with
                | Some vbox2 => (PQueue.push lh vbox2, n_color + 1)
                | None => (lh, n_color)
                end in
              if Qle_bool target (inject_Z n_color) then Ok lh
              else if MAX_ITERATION <? n_iter then Ok lh
              else iter_loop fuel histo target lh n_color (n_iter + 1)
          end
      else Ok lh
  end.

Definition iter_ (histo : gmap Z Z) (lh : PQueue.t VBox.t) (target : Q)
  : result (PQueue.t VBox.t) :=
  iter_loop (S (Z.to_nat MAX_ITERATION)) histo target lh 1 0.

Fixpoint refill (fuel : nat) (pq pq2 : PQueue.t VBox.t)
  : result (PQueue.t VBox.t) :=
  if PQueue.size pq =? 0 then Ok pq2
  else match fuel with
       | O => Loops
       | S fuel => '(v, pq) ← pop pq; refill fuel pq (PQueue.push pq2 v)
       end.

Fixpoint drain (fuel : nat) (pq2 : PQueue.t VBox.t) (cmap : CMap.t)
  : result CMap.t :=
  if PQueue.size pq2 =? 0 then Ok cmap
  else match fuel with
       | O => Loops
       | S fuel => '(v, pq2) ← pop pq2; drain fuel pq2 (CMap.push cmap v)
       end.

Definition quantize (pixels : list pixel) (max_color : Z) : result CMap.t :=
  if bool_decide (pixels = []) then
    Raise (Exception "Empty pixels when quantize.")
  else if (max_color <? 2) || (256 <? max_color) then
    Raise (Exception "Wrong number of max colors when quantize.")
  else
    let histo := MMCQ.get_histo pixels in
    let vbox := MMCQ.vbox_from_pixels pixels histo in
    let pq := PQueue.push (PQueue.new VBox.count) vbox in
    pq ← iter_ histo pq (FRACT_BY_POPULATIONS * inject_Z max_color)%Q;
    let pq2 := PQueue.new (λ x, VBox.count x * VBox.volume x) in
    pq2 ← refill (length (PQueue.contents pq)) pq pq2;
    pq2 ← iter_ histo pq2 (inject_Z (max_color - PQueue.size pq2));
    drain (length (PQueue.contents pq2)) pq2 CMap.new.
End Sort.

(** A second stable sort: the elements are inserted from the left, each
    behind the elements whose key is not larger. *)
Section InsertLast.
Context {A : Type} (key : A → Z).

Fixpoint insert_last (x : A) (l : list A) : list A :=
  match l with
  | [] => [x]
  | y :: l' => if key x <? key y then x :: y :: l' else y :: insert_last x l'
  end.

Definition sort_from_left (l : list A) : list A :=
  foldl (λ acc x, insert_last x acc) [] l.
End InsertLast.

End WithSort.

(** ** ColorThief: pixel filtering in front of the quantizer *)

Module ColorThief.

Definition white_threshold : Z := 240.
Definition black_threshold : Z := 15.
Definition alpha_threshold : Z := 100.

(** An RGBA pixel [(r, g, b, a)]. *)
Definition rgba : Type := Z * Z * Z * Z.

(** The object after [__init__]: the RGBA pixels (given as a list, or read
    from the image by [getdata()]), the colour map of the last quantization
    and the default colour. *)
Record t : Type := mk {
  pixels : list rgba;
  cmap : option CMap.t;
  default_color : option pixel
}.

Definition is_white (r g b : Z) : bool :=
  (white_threshold <? r) && (white_threshold <? g) && (white_threshold <? b).

Definition is_black (r g b : Z) : bool :=
  (r <? black_threshold) && (g <? black_threshold) && (b <? black_threshold).

(** The digit of [bytes.fromhex]: both cases of a to f are accepted. *)
Definition digit_value (c : ascii) : option Z :=
  let n := Z.of_N (N_of_ascii c) in
  if (48 <=? n) && (n <=? 57) then Some (n - 48)
  else if (65 <=? n) && (n <=? 70) then Some (n - 55)
  else if (97 <=? n) && (n <=? 102) then Some (n - 87)
  else None.

(** ASCII whitespace: space, tab, line feed, vertical tab, form feed and
    carriage return. *)
Definition is_space (c : ascii) : bool :=
  let n := Z.of_N (N_of_ascii c) in
  (n =? 32) || ((9 <=? n) && (n <=? 13)).

(** [bytes.fromhex(s)]: two hexadecimal digits per byte, whitespace between
    bytes is skipped, anything else raises ValueError. *)
Fixpoint fromhex (s : string) : result (list Z) :=
  match s with
  | EmptyString => Ok []
  | String c s' =>
      if is_space c then fromhex s'
      else
        match digit_value c, s' with
        | Some top, String c' s'' =>
            match digit_value c' with
            | Some bot => rest ← fromhex s''; Ok (top * 16 + bot :: rest)
            | None => Raise ValueError
            end
        | _, _ => Raise ValueError
        end
  end.

(** [hex.replace("#", '')] *)
Fixpoint remove_hash (s : string) : string :=
  match s with
  | EmptyString => EmptyString
  | String c s' =>
      if Ascii.eqb c "#" then remove_hash s' else String c (remove_hash s')
  end.

(** The tuple has at most three channels: [...[:3]]. *)
Definition hex_to_rgb (hex : string) : result (list Z) :=
  bytes ← fromhex (remove_hash hex);
  Ok (take 3 bytes).

Definition hex_digit (d : Z) : ascii :=
  ascii_of_N (Z.to_N (if d <? 10 then 48 + d else 55 + d)).

(** The digits of a non-negative integer in base 16, most significant first.
    A number [n] has at most [log2 n + 1] digits. *)
Fixpoint hex_digits (fuel : nat) (n : Z) (acc : string) : string :=
  let acc := String (hex_digit (n mod 16)) acc in
  match fuel with
  | O => acc
  | S fuel => if n / 16 =? 0 then acc else hex_digits fuel (n / 16) acc
  end.

(** The format ['{:02X}']: upper-case digits, the sign first, zeros up to
    the width 2. *)
Definition format_02X (n : Z) : string :=
  let body := hex_digits (Z.to_nat (Z.log2 (Z.abs n))) (Z.abs n) EmptyString in
  if n <? 0 then String "-" body
  else if (String.length body <? 2)%nat then String "0" body
  else body.

Definition rgb_to_hex (r g b : Z) : string :=
  String "#" (String.append (format_02X r)
                            (String.append (format_02X g) (format_02X b))).

Definition pix_to_hex (pix : pixel) : string :=
  let '(r, g, b) := pix in rgb_to_hex r g b.

Definition hilo (a b c : Z) : Z :=
  let '(b, c) := if c <? b then (c, b) else (b, c) in
  let '(a, b) := if b <? a then (b, a) else (a, b) in
  let '(b, c) := if c <? b then (c, b) else (b, c) in
  a + c.

Definition complement (r g b : Z) : pixel :=
  let k := hilo r g b in
  if is_white r g b then (0, 0, 0)
  else if is_black r g b then (255, 255, 255)
  else (k - r, k - g, k - b).

Definition complement_pix (pix : pixel) : pixel :=
  let '(r, g, b) := pix in complement r g b.

(** Python's [range(start, stop, step)]; a zero step raises ValueError. *)
Definition range_step (start stop step : Z) : result (list Z) :=
  if step =? 0 then Raise ValueError
  else
    let n := if 0 <? step then (stop - start + step - 1) / step
             else (start - stop - step - 1) / (- step) in
    Ok ((λ k, start + step * Z.of_nat k) <$> seq 0 (Z.to_nat n)).

(** The [if]/[elif] chain that decides whether a sampled pixel is kept. *)
Definition keeps (no_white no_black : bool) (p : rgba) : bool :=
  let '(r, g, b, a) := p in
  if alpha_threshold <=? a then
    let is_white := is_white r g b in
    let is_black := is_black r g b in
    if (no_white && no_black) && negb (is_white || is_black) then true
    else if no_black && negb is_black then true
    else if no_white && negb is_white then true
    else if negb no_white && negb no_black then true
    else false
  else false.

(** The sampling loop that builds [valid_pixels]. *)
Fixpoint sample (pixels : list rgba) (no_white no_black : bool)
    (idxs : list Z) (valid_pixels : list pixel) : result (list pixel) :=
  match idxs with
  | [] => Ok valid_pixels
  | i :: idxs =>
      p ← PQueue.getitem pixels i;
      let '(r, g, b, a) := p in
      if keeps no_white no_black p
      then sample pixels no_white no_black idxs (valid_pixels ++ [(r, g, b)])
      else sample pixels no_white no_black idxs valid_pixels
  end.

Definition valid_pixels (self : t) (quality : Z) (no_white no_black : bool)
  : result (list pixel) :=
  let pixel_count := Z.of_nat (length (pixels self)) in
  idxs ← range_step 0 pixel_count quality;
  sample (pixels self) no_white no_black idxs [].

(** What [get_palette] returns: colours ([[default_color]] may hold [None]),
    or colours with their fractions when [dist] is set. *)
Inductive palette_result : Type :=
| Colors (l : list (option pixel))
| Distribution (l : list (pixel * Q)).

Section GetPalette.
(** The quantizer called by [get_palette]; [get_palette] below is the
    instance at [MMCQ.quantize]. *)
Variable quantize : list pixel → Z → result CMap.t.

Definition get_palette_with (self : t) (color_count quality : Z)
    (no_white no_black dist : bool) : result (palette_result * t) :=
  valid_pixels ← valid_pixels self quality no_white no_black;
  if Z.of_nat (length valid_pixels) =? 0 then
    Ok (Colors [default_color self], self)
  else
    cmap ← quantize valid_pixels color_count;
    let self := mk (pixels self) (Some cmap) (default_color self) in
    if dist then
      d ← CMap.palette_distribution cmap;
      Ok (Distribution d, self)
    else Ok (Colors (Some <$> CMap.palette cmap), self).
End GetPalette.

Definition get_palette : t → Z → Z → bool → bool → bool
                         → result (palette_result * t) :=
  get_palette_with MMCQ.quantize.

(** What [get_color] returns: the first item of the palette. *)
Inductive color_result : Type :=
| Color (c : option pixel)
| ColorFraction (c : pixel) (f : Q).

Definition get_color (self : t) (quality : Z) (no_white no_black dist : bool)
  : result (color_result * t) :=
  '(palette, self) ← get_palette self 5 quality no_white no_black dist;
  match palette with
  | Colors (c :: _) => Ok (Color c, self)
  | Distribution ((c, f) :: _) => Ok (ColorFraction c f, self)
  | _ => Raise IndexError
  end.

End ColorThief.

(** * Vocabulary of the properties *)

(** Ascending order of the keys. *)
Definition key_le {A : Type} (key : A → Z) (x y : A) : Prop := key x ≤ key y.

(** The list a read sees: the contents, sorted first when they are stale. *)
Definition ordered {A : Type} (q : PQueue.t A) : list A :=
  if PQueue._sorted q then PQueue.contents q
  else PQueue.list_sort (PQueue.sort_key q) (PQueue.contents q).

(** A queue flagged as sorted is sorted. *)
Definition wf {A : Type} (q : PQueue.t A) : Prop :=
  PQueue._sorted q = true →
  StronglySorted (key_le (PQueue.sort_key q)) (PQueue.contents q).

(** The queue left by a read: the ordered contents, flagged as sorted. *)
Definition settle {A} (q : PQueue.t A) : PQueue.t A :=
  PQueue.mk (PQueue.sort_key q) (ordered q) true.

(** The queue after the reads of a loop over [idxs]. *)
Definition after_reads {A} (idxs : list Z) (q : PQueue.t A) : PQueue.t A :=
  match idxs with [] => q | _ => settle q end.

(** Membership of a point of the reduced cube in a box. *)
Definition in_box (v : VBox.t) (c : pixel) : Prop :=
  let '(x, y, z) := c in
  VBox.r1 v ≤ x ≤ VBox.r2 v ∧ VBox.g1 v ≤ y ≤ VBox.g2 v ∧ VBox.b1 v ≤ z ≤ VBox.b2 v.

(** The number of boxes of a list that contain a pixel. *)
Definition cover (p : pixel) (l : list VBox.t) : nat :=
  length (filter (λ v, VBox.contains v p) l).

(** The queue after one split: the first box, then the second if any. *)
Definition push_children (lh : PQueue.t VBox.t) (v1 : VBox.t)
    (o2 : option VBox.t) : PQueue.t VBox.t :=
  match o2 with
  | Some v2 => PQueue.push (PQueue.push lh v1) v2
  | None => PQueue.push lh v1
  end.

(** The dict pushed on the colour map for a box. *)
Definition entry_of (v : VBox.t) : CMap.entry := CMap.mk_entry v (VBox.avg v).

(** The sort key of the colour map: population times volume. *)
Definition cmap_key (x : CMap.entry) : Z :=
  VBox.count (CMap.vbox x) * VBox.volume (CMap.vbox x).

(** The extent of a box along an axis: [rw], [gw] or [bw]. *)
Definition extent (a : MMCQ.axis) (v : VBox.t) : Z :=
  MMCQ.dim2 a v - MMCQ.dim1 a v + 1.

(** The fixed priority red, green, blue. *)
Definition axis_before (a b : MMCQ.axis) : Prop :=
  match a, b with
  | MMCQ.R, MMCQ.G | MMCQ.R, MMCQ.B | MMCQ.G, MMCQ.B => True
  | _, _ => False
  end.

(** The exceptions that can leave the refinement loop. *)
Definition internal_exn (e : exn) : Prop :=
  e = IndexError ∨ e = KeyError ∨ e = InternalInvariantViolation.

(** The sum of [f] over a list. *)
Definition Zsum_with {A : Type} (f : A → Z) (l : list A) : Z :=
  foldr (λ x s, f x + s) 0 l.

(** A histogram without negative counts. *)
Definition nonneg_histo (h : gmap Z Z) : Prop := ∀ k x, h !! k = Some x → 0 ≤ x.

(** The partial sum the loop stores for slice [i]. *)
Definition prefix_sum (f : Z → Z) (b i : Z) : Z :=
  Zsum_with f (seqZ b (i - b + 1)).

(** The weighted sum of a channel: [hval * (w + 0.5) * mult] over the cells. *)
Definition channel_sum (v : VBox.t) (w : pixel → Z) : Z :=
  Zsum_with (λ c, VBox.hval (VBox.histo v) c * ((2 * w c + 1) * 4))
            (VBox.cells v).

(** A queue the loop can work on: not empty, all boxes on one histogram. *)
Definition good (histo : gmap Z Z) (q : PQueue.t VBox.t) : Prop :=
  PQueue.contents q ≠ []
  ∧ Forall (λ v, VBox.histo v = histo) (PQueue.contents q).

(** An 8-bit colour. *)
Definition eight_bit (p : pixel) : Prop :=
  let '(r, g, b) := p in 0 ≤ r ≤ 255 ∧ 0 ≤ g ≤ 255 ∧ 0 ≤ b ≤ 255.

(** A point of the reduced cube: three 5-bit coordinates. *)
Definition in_cube (c : pixel) : Prop :=
  let '(x, y, z) := c in 0 ≤ x ≤ 31 ∧ 0 ≤ y ≤ 31 ∧ 0 ≤ z ≤ 31.

(** The bucket of a pixel. *)
Definition index_of (p : pixel) : Z :=
  let '(rval, gval, bval) := reduce p in get_color_index rval gval bval.

(** A box inside the reduced cube (its ranges may be empty). *)
Definition box_in_cube (v : VBox.t) : Prop :=
  0 ≤ VBox.r1 v ∧ VBox.r2 v ≤ 31 ∧ 0 ≤ VBox.g1 v ∧ VBox.g2 v ≤ 31
  ∧ 0 ≤ VBox.b1 v ∧ VBox.b2 v ≤ 31.

(** The total population of a list of boxes. *)
Definition population (l : list VBox.t) : Z := Zsum_with VBox.count l.

(** The sum of a list of fractions. *)
Definition Qsum (l : list Q) : Q := foldr Qplus 0%Q l.

(** The colour of an RGBA pixel. *)
Definition rgb_of (p : ColorThief.rgba) : pixel :=
  let '(r, g, b, a) := p in (r, g, b).


(** The two characters written for a byte, and how they are read back. *)
Definition byte_chars_ok (n : Z) : bool :=
  match ColorThief.format_02X n with
  | String c1 (String c2 EmptyString) =>
      negb (Ascii.eqb c1 "#") && negb (Ascii.eqb c2 "#")
      && negb (ColorThief.is_space c1)
      && match ColorThief.digit_value c1, ColorThief.digit_value c2 with
         | Some top, Some bot => top * 16 + bot =? n
         | _, _ => false
         end
  | _ => false
  end.

(** What Python promises of [list.sort(key=...)]: the keys ascend, and the
    elements of equal key keep their order. *)
Definition stable_sort (sort : ∀ A : Type, (A → Z) → list A → list A) : Prop :=
  ∀ (A : Type) (key : A → Z) (l : list A),
    StronglySorted (key_le key) (sort A key l)
    ∧ ∀ k, filter (λ x, key x = k) (sort A key l) = filter (λ x, key x = k) l.

(** A float of the given sign: a zero, a finite number or an infinity, not
    a NaN. *)
Definition has_sign (s : bool) (x : Float64.float) : bool :=
  match x with
  | SpecFloat.S754_zero s' | SpecFloat.S754_finite s' _ _
  | SpecFloat.S754_infinity s' => eqb s s'
  | SpecFloat.S754_nan => false
  end.

(** A float that is a number and not below zero. *)
Definition not_negative (x : Float64.float) : bool := has_sign false x.

(** The entries whose distance to [color0] is computed without an
    exception. *)
Definition dist_defined (color0 : pixel) (l : list CMap.entry) : Prop :=
  ∀ e, e ∈ l → ∃ d, CMap.dist color0 (CMap.color e) = Ok d.

(** A box whose ranges lie in the reduced cube and are empty by at most
    one: the boxes the quantizer builds on 8-bit pixels. *)
Definition box_ranges (v : VBox.t) : Prop :=
  0 ≤ VBox.r1 v ≤ VBox.r2 v + 1 ∧ VBox.r2 v ≤ 31
  ∧ 0 ≤ VBox.g1 v ≤ VBox.g2 v + 1 ∧ VBox.g2 v ≤ 31
  ∧ 0 ≤ VBox.b1 v ≤ VBox.b2 v + 1 ∧ VBox.b2 v ≤ 31.

(** A colour with channels in 0..256: 256 is the channel of an empty
    region at the upper end of the cube. *)
Definition palette_colour (p : pixel) : Prop :=
  let '(r, g, b) := p in 0 ≤ r ≤ 256 ∧ 0 ≤ g ≤ 256 ∧ 0 ≤ b ≤ 256.

(** A finite float with another sign. *)
Definition with_sign (s : bool) (x : Float64.float) : Float64.float :=
  match x with
  | SpecFloat.S754_finite _ m e => SpecFloat.S754_finite s m e
  | _ => x
  end.

(** The float that is the integer [n], for [0 <= n < 2^53]: a mantissa of
    53 bits. *)
Definition canon (n : Z) : Float64.float :=
  if n =? 0 then SpecFloat.S754_zero false
  else SpecFloat.S754_finite false (Z.to_pos (n * 2 ^ (52 - Z.log2 n)))
                             (Z.log2 n - 52).

(** The root of the float of [n], for [0 <= n < 2^50]. *)
Definition sqrt_float (n : Z) : Float64.float :=
  match Float64.sqrt (canon n) with
  | Ok y => y
  | _ => SpecFloat.S754_nan
  end.

(** The exact square of the Euclidean distance of two colours. *)
Definition sq_dist (a b : pixel) : Z :=
  let '(a0, a1, a2) := a in
  let '(c0, c1, c2) := b in
  (a0 - c0) ^ 2 + (a1 - c1) ^ 2 + (a2 - c2) ^ 2.

(** A colour whose channels are at most 2^23 in absolute value; the 8-bit
    colours and the palette colours are such. *)
Definition small_colour (p : pixel) : Prop :=
  let '(r, g, b) := p in
  Z.abs r ≤ 2 ^ 23 ∧ Z.abs g ≤ 2 ^ 23 ∧ Z.abs b ≤ 2 ^ 23.

(** * Properties *)

(** ** The stable sort of the priority queue *)

Section SortFacts.
Context {A : Type} (key : A → Z).

#[local] Instance key_le_trans : Transitive (key_le key).
Proof. unfold key_le. intros x y z ??. lia. Qed.

Lemma insert_perm x l : PQueue.insert key x l ≡ₚ x :: l.
Proof.
  induction l as [|y l IH]; simpl; [done|].
  destruct (key x <=? key y); [done|].
  rewrite IH. apply perm_swap.
Qed.

Lemma list_sort_perm l : PQueue.list_sort key l ≡ₚ l.
Proof.
  induction l as [|x l IH]; simpl; [done|].
  unfold PQueue.list_sort in *. simpl. by rewrite insert_perm, IH.
Qed.

Lemma list_sort_length l : length (PQueue.list_sort key l) = length l.
Proof. by rewrite list_sort_perm. Qed.

Lemma insert_sorted x l :
  StronglySorted (key_le key) l → StronglySorted (key_le key) (PQueue.insert key x l).
Proof.
  induction 1 as [|y l Hs IH Hy]; simpl.
  - repeat constructor.
  - destruct (Z.leb_spec (key x) (key y)) as [Hle|Hlt].
    + constructor; [by constructor|].
      constructor; [done|].
      eapply Forall_impl; [exact Hy|]. unfold key_le. intros z ?. lia.
    + constructor; [done|].
      rewrite insert_perm. constructor; [|done]. unfold key_le. lia.
Qed.

Lemma list_sort_sorted l : StronglySorted (key_le key) (PQueue.list_sort key l).
Proof.
  induction l as [|x l IH]; [constructor|].
  by apply insert_sorted.
Qed.

(** Stability: elements with the same key keep their relative order. *)
Lemma insert_stable k x l :
  filter (λ y, key y = k) (PQueue.insert key x l)
  = filter (λ y, key y = k) (x :: l).
Proof.
  induction l as [|y l IH]; simpl; [done|].
  destruct (Z.leb_spec (key x) (key y)) as [Hle|Hlt]; [done|].
  rewrite filter_cons, IH, !filter_cons.
  repeat case_decide; try done; lia.
Qed.

Lemma list_sort_stable k l :
  filter (λ y, key y = k) (PQueue.list_sort key l) = filter (λ y, key y = k) l.
Proof.
  induction l as [|x l IH]; [done|].
  change (PQueue.list_sort key (x :: l))
    with (PQueue.insert key x (PQueue.list_sort key l)).
  by rewrite insert_stable, !filter_cons, IH.
Qed.

(** A sorted list is determined by its classes of equal keys. *)
Lemma sorted_classes_eq l1 l2 :
  StronglySorted (key_le key) l1 → StronglySorted (key_le key) l2 →
  (∀ k, filter (λ y, key y = k) l1 = filter (λ y, key y = k) l2) →
  l1 = l2.
Proof.
  intros Hs1. revert l2.
  induction Hs1 as [|x l1 Hs1 IH Hx]; intros l2 Hs2 Hcl.
  - destruct l2 as [|y l2]; [done|].
    specialize (Hcl (key y)). rewrite filter_cons in Hcl.
    by case_decide.
  - destruct Hs2 as [|y l2 Hs2 Hy].
    { specialize (Hcl (key x)). rewrite filter_cons in Hcl. by case_decide. }
    assert (key x = key y) as Hk.
    { apply Z.le_antisymm.
      - pose proof (Hcl (key y)) as H. rewrite (filter_cons _ y) in H.
        case_decide; [|done].
        assert (y ∈ filter (λ z, key z = key y) (x :: l1)) as Hin
          by (rewrite H; left).
        apply list_elem_of_filter in Hin as [_ Hin].
        apply elem_of_cons in Hin as [->|Hin]; [lia|].
        rewrite Forall_forall in Hx. apply Hx in Hin. exact Hin.
      - pose proof (Hcl (key x)) as H. rewrite (filter_cons _ x) in H.
        case_decide; [|done].
        assert (x ∈ filter (λ z, key z = key x) (y :: l2)) as Hin
          by (rewrite <- H; left).
        apply list_elem_of_filter in Hin as [_ Hin].
        apply elem_of_cons in Hin as [->|Hin]; [lia|].
        rewrite Forall_forall in Hy. apply Hy in Hin. exact Hin. }
    assert (x = y) as ->.
    { specialize (Hcl (key x)). rewrite !filter_cons in Hcl.
      rewrite decide_True in Hcl by done.
      rewrite decide_True in Hcl by done. congruence. }
    f_equal. apply IH; [done|]. intros k. specialize (Hcl k).
    rewrite !filter_cons in Hcl. case_decide; congruence.
Qed.

(** Any stable ascending sort computes [list_sort]. *)
Lemma sort_stable_unique l l' :
  StronglySorted (key_le key) l' →
  (∀ k, filter (λ y, key y = k) l' = filter (λ y, key y = k) l) →
  l' = PQueue.list_sort key l.
Proof.
  intros Hs Hcl. apply sorted_classes_eq; [done|apply list_sort_sorted|].
  intros k. by rewrite Hcl, list_sort_stable.
Qed.

Lemma list_sort_id l : StronglySorted (key_le key) l → PQueue.list_sort key l = l.
Proof.
  intros Hs. symmetry. by apply sort_stable_unique.
Qed.
End SortFacts.

(** ** The priority queue *)

Section QueueFacts.
Context {A : Type}.
Implicit Types q : PQueue.t A.

Lemma ordered_perm q : ordered q ≡ₚ PQueue.contents q.
Proof. unfold ordered. destruct (PQueue._sorted q); [done|apply list_sort_perm]. Qed.

Lemma ordered_length q : length (ordered q) = length (PQueue.contents q).
Proof. by rewrite ordered_perm. Qed.

Lemma ordered_sorted q :
  wf q → StronglySorted (key_le (PQueue.sort_key q)) (ordered q).
Proof.
  unfold wf, ordered. destruct (PQueue._sorted q); [auto|].
  intros _. apply list_sort_sorted.
Qed.

Lemma ordered_push q o :
  ordered (PQueue.push q o)
  = PQueue.list_sort (PQueue.sort_key q) (PQueue.contents q ++ [o]).
Proof. done. Qed.

Lemma wf_new key : wf (PQueue.new key : PQueue.t A).
Proof. intros ?. constructor. Qed.

Lemma wf_push q o : wf (PQueue.push q o).
Proof. intros [=]. Qed.

Lemma pop_inv q x q' :
  PQueue.pop q = Ok (x, q') →
  ordered q = PQueue.contents q' ++ [x]
  ∧ PQueue.sort_key q' = PQueue.sort_key q
  ∧ PQueue._sorted q' = true.
Proof.
  unfold PQueue.pop, ordered. destruct q as [key l [|]]; simpl.
  - destruct (last l) as [y|] eqn:Hl; [|done]. intros [= <- <-]. simpl.
    apply last_Some in Hl as [l' ->]. by rewrite removelast_last.
  - destruct (last (PQueue.list_sort key l)) as [y|] eqn:Hl; [|done].
    intros [= <- <-]. simpl.
    apply last_Some in Hl as [l' ->]. by rewrite removelast_last.
Qed.

Lemma pop_ok q :
  PQueue.contents q ≠ [] → ∃ x q', PQueue.pop q = Ok (x, q').
Proof.
  intros Hne. unfold PQueue.pop.
  set (q0 := if PQueue._sorted q then q else PQueue.sort q).
  assert (PQueue.contents q0 = ordered q) as Hq0
    by (unfold q0, ordered; by destruct (PQueue._sorted q)).
  destruct (last (PQueue.contents q0)) as [y|] eqn:Hl; [eauto|].
  apply last_None in Hl. rewrite Hq0 in Hl.
  apply (f_equal length) in Hl. rewrite ordered_length in Hl.
  by destruct (PQueue.contents q).
Qed.

Lemma pop_contents q x q' :
  PQueue.pop q = Ok (x, q') → PQueue.contents q ≡ₚ PQueue.contents q' ++ [x].
Proof. intros (H & _)%pop_inv. by rewrite <- H, ordered_perm. Qed.

Lemma pop_ordered q x q' :
  PQueue.pop q = Ok (x, q') → ordered q = ordered q' ++ [x].
Proof.
  intros (H & _ & Hs)%pop_inv. unfold ordered at 2. by rewrite Hs.
Qed.

Lemma pop_wf q x q' : wf q → PQueue.pop q = Ok (x, q') → wf q'.
Proof.
  intros Hwf Hpop _. pose proof (ordered_sorted q Hwf) as Hs.
  apply pop_inv in Hpop as (H & -> & _). rewrite H in Hs.
  by apply StronglySorted_app_1_l in Hs.
Qed.

Lemma pop_raises q e : PQueue.pop q = Raise e → e = IndexError.
Proof.
  unfold PQueue.pop.
  destruct (last _); [done|]. by intros [= <-].
Qed.

Lemma pop_not_loops q : PQueue.pop q ≠ Loops.
Proof. unfold PQueue.pop. by destruct (last _). Qed.

(** Reading index [i] of a non-empty range never fails. *)
Lemma getitem_ok (l : list A) i :
  0 ≤ i < Z.of_nat (length l) →
  ∃ x, l !! Z.to_nat i = Some x ∧ PQueue.getitem l i = Ok x.
Proof.
  intros Hi. unfold PQueue.getitem.
  destruct (Z.ltb_spec i 0); [lia|].
  destruct (Z.ltb_spec i 0); [lia|].
  destruct (Z.leb_spec (Z.of_nat (length l)) i); [lia|]. simpl.
  destruct (lookup_lt_is_Some_2 l (Z.to_nat i)) as [x Hx]; [lia|].
  exists x. by rewrite Hx.
Qed.

Lemma peek_ok q i :
  0 ≤ i < PQueue.size q →
  ∃ x, PQueue.peek q (Some i)
       = Ok (x, PQueue.mk (PQueue.sort_key q) (ordered q) true).
Proof.
  intros Hi. unfold PQueue.peek, PQueue.size in *.
  set (q0 := if PQueue._sorted q then q else PQueue.sort q).
  assert (q0 = PQueue.mk (PQueue.sort_key q) (ordered q) true) as ->.
  { unfold q0, ordered. by destruct q as [? ? [|]]. }
  simpl. destruct (getitem_ok (ordered q) i) as (x & _ & ->).
  { by rewrite ordered_length. }
  by exists x.
Qed.
End QueueFacts.

(** ** Boxes and the points they contain *)

Lemma contains_spec v p : VBox.contains v p ↔ in_box v (reduce p).
Proof.
  unfold VBox.contains, in_box. destruct (reduce p) as [[x y] z].
  rewrite Is_true_true. cbn. unfold id. rewrite !andb_true_iff, !Z.leb_le.
  intuition.
Qed.

(** Every point of the reduced cube is the reduction of a pixel. *)
Lemma reduce_onto (c : pixel) : ∃ p, reduce p = c.
Proof.
  destruct c as [[x y] z]. exists (x * 8, y * 8, z * 8). unfold reduce.
  change RSHIFT with 3. rewrite !Z.shiftr_div_pow2 by lia.
  change (2 ^ 3) with 8. by rewrite !Z.div_mul by lia.
Qed.

Lemma cover_app p l1 l2 : cover p (l1 ++ l2) = (cover p l1 + cover p l2)%nat.
Proof. unfold cover. by rewrite filter_app, length_app. Qed.

Lemma cover_perm p l1 l2 : l1 ≡ₚ l2 → cover p l1 = cover p l2.
Proof. unfold cover. by intros ->. Qed.

Lemma cover_singleton p v :
  cover p [v] = if VBox.contains v p then 1%nat else 0%nat.
Proof.
  unfold cover. rewrite filter_cons, filter_nil.
  destruct (VBox.contains v p); by simpl.
Qed.

Lemma contains_copy v p : VBox.contains (VBox.copy v) p = VBox.contains v p.
Proof. by destruct v. Qed.

Lemma copy_id v : VBox.copy v = v.
Proof. by destruct v. Qed.

Section SplitFacts.
Import MMCQ.

Lemma dim2_set_dim2 a v d : dim2 a (set_dim2 a v d) = d.
Proof. by destruct a. Qed.

Lemma dim1_set_dim1 a v d : dim1 a (set_dim1 a v d) = d.
Proof. by destruct a. Qed.

(** Cutting a box at [d] on one axis splits its points in two. *)
Lemma cover_split a v d p :
  dim1 a v - 1 ≤ d ≤ dim2 a v →
  cover p [set_dim2 a v d; set_dim1 a v (d + 1)] = cover p [v].
Proof.
  intros Hd. change [set_dim2 a v d; set_dim1 a v (d + 1)]
    with ([set_dim2 a v d] ++ [set_dim1 a v (d + 1)]).
  rewrite cover_app, !cover_singleton.
  destruct (VBox.contains v p) eqn:Hv;
    destruct (VBox.contains (set_dim2 a v d) p) eqn:H1;
    destruct (VBox.contains (set_dim1 a v (d + 1)) p) eqn:H2; try done;
    exfalso;
    repeat match goal with
    | H : VBox.contains _ _ = true |- _ =>
        apply Is_true_true, contains_spec in H
    | H : VBox.contains _ _ = false |- _ =>
        apply Is_true_false in H; rewrite contains_spec in H
    end;
    unfold in_box in *; destruct (reduce p) as [[x y] z];
    destruct a; simpl in *; lia.
Qed.

(** The keys of [partialsum] are the slices of the axis. *)
Lemma partial_fold_keys (f : Z → Z) l t (m : gmap Z Z) i :
  is_Some ((foldl (λ '(total, partialsum) i,
                     let sum_ := f i in
                     let total := total + sum_ in
                     (total, <[i := total]> partialsum)) (t, m) l).2 !! i)
  ↔ is_Some (m !! i) ∨ i ∈ l.
Proof.
  revert t m. induction l as [|j l IH]; intros t m; simpl.
  - rewrite elem_of_nil. tauto.
  - rewrite IH, elem_of_cons, lookup_insert_is_Some.
    destruct (decide (j = i)) as [->|]; intuition congruence.
Qed.

Lemma partial_sums_keys histo a v i :
  is_Some ((partial_sums histo a v).2 !! i) ↔ dim1 a v ≤ i ≤ dim2 a v.
Proof.
  unfold partial_sums. rewrite partial_fold_keys, lookup_empty.
  unfold range. rewrite elem_of_seqZ.
  split; [intros [[? [=]]|?]; lia|right; lia].
Qed.

Lemma truthy_is_Some o : truthy o = true → is_Some o.
Proof. destruct o; [eauto|done]. Qed.

Lemma skip_empty_inv fuel ps d d' :
  skip_empty fuel ps d = Ok d' → truthy (ps !! d') = true ∧ d ≤ d'.
Proof.
  revert d. induction fuel as [|fuel IH]; intros d; simpl;
    destruct (truthy (ps !! d)) eqn:Ht; try done.
  - intros [= <-]. split; [done|lia].
  - intros [= <-]. split; [done|lia].
  - intros [? ?]%IH. split; [done|lia].
Qed.

Lemma back_off_inv fuel ps la d c d' :
  back_off fuel ps la d c = Ok d' →
  (d' = d ∨ truthy (ps !! d') = true) ∧ d' ≤ d.
Proof.
  revert d c. induction fuel as [|fuel IH]; intros d c; simpl;
    destruct (negb (truthy c) && truthy (ps !! (d - 1))) eqn:Hc; try done.
  - intros [= <-]. split; [by left|lia].
  - intros [[->|?] ?]%IH; (split; [|lia]); right; [|done].
    by apply andb_true_iff in Hc as [_ ?].
  - intros [= <-]. split; [by left|lia].
Qed.

Lemma cut_inv v a ps la i r :
  (∀ j, is_Some (ps !! j) → dim1 a v ≤ j ≤ dim2 a v) →
  cut v a ps la i = Ok r →
  ∃ d2, dim1 a v ≤ d2 ≤ dim2 a v
        ∧ r = (Some (set_dim2 a (VBox.copy v) d2),
               Some (set_dim1 a (VBox.copy v) (d2 + 1))).
Proof.
  intros Hkeys. unfold cut.
  destruct (skip_empty _ _ _) as [d|e|] eqn:Hskip; simpl; try done.
  destruct (back_off _ _ _ _ _) as [d'|e|] eqn:Hback; simpl; try done.
  intros [= <-]. exists d'. rewrite dim2_set_dim2. split; [|done].
  apply skip_empty_inv in Hskip as [Hd _].
  apply back_off_inv in Hback as [[->|Hd'] _];
    by apply Hkeys, truthy_is_Some.
Qed.

Lemma cut_scan_inv v a total ps la idxs r :
  cut_scan v a total ps la idxs = Ok r →
  r = (None, None)
  ∨ ∃ i p, i ∈ idxs ∧ ps !! i = Some p ∧ total < 2 * p
           ∧ cut v a ps la i = Ok r.
Proof.
  induction idxs as [|i idxs IH]; simpl.
  - intros [= <-]. by left.
  - destruct (ps !! i) as [p|] eqn:Hp; [|done].
    destruct (Z.ltb_spec total (2 * p)).
    + intros Hcut. right. exists i, p. by rewrite elem_of_cons; auto.
    + intros [?|(j & q & ? & ?)]%IH; [by left|right].
      exists j, q. rewrite elem_of_cons. tauto.
Qed.

(** What [median_cut_apply] returns when it returns a first box. *)
Lemma median_cut_apply_inv histo v v1 o2 :
  median_cut_apply histo v = Ok (Some v1, o2) →
  (VBox.count v = 1 ∧ v1 = VBox.copy v ∧ o2 = None)
  ∨ (VBox.count v ≠ 0 ∧ VBox.count v ≠ 1 ∧
     ∃ d2, dim1 (cut_color v) v ≤ d2 ≤ dim2 (cut_color v) v
           ∧ v1 = set_dim2 (cut_color v) (VBox.copy v) d2
           ∧ o2 = Some (set_dim1 (cut_color v) (VBox.copy v) (d2 + 1))).
Proof.
  unfold median_cut_apply.
  destruct (Z.eqb_spec (VBox.count v) 0) as [|H0]; [done|].
  destruct (Z.eqb_spec (VBox.count v) 1) as [H1|H1].
  { intros [= <- <-]. by left. }
  destruct (partial_sums histo (cut_color v) v) as [total ps] eqn:Hps.
  intros [[=]|(i & p & _ & _ & _ & Hcut)]%cut_scan_inv. right.
  apply cut_inv in Hcut as (d2 & Hd2 & [= -> ->]).
  - split; [done|]. split; [done|]. by exists d2.
  - intros j Hj. apply (partial_sums_keys histo). by rewrite Hps.
Qed.

(** The children of a split cover exactly the points of their parent. *)
Lemma median_cut_apply_cover histo v v1 o2 p :
  median_cut_apply histo v = Ok (Some v1, o2) →
  cover p (v1 :: option_list o2) = cover p [v].
Proof.
  intros [(_ & -> & ->)|(_ & _ & d2 & Hd2 & -> & ->)]%median_cut_apply_inv;
    simpl.
  - by rewrite copy_id.
  - rewrite copy_id. apply cover_split. lia.
Qed.
End SplitFacts.

(** ** The refinement loop and the two transfers *)

Section LoopFacts.
Import MMCQ.

Lemma push_children_contents lh v1 o2 :
  PQueue.contents (push_children lh v1 o2)
  = PQueue.contents lh ++ v1 :: option_list o2.
Proof. destruct o2; simpl; [|done]. by rewrite <- app_assoc. Qed.

Lemma push_children_key lh v1 o2 :
  PQueue.sort_key (push_children lh v1 o2) = PQueue.sort_key lh.
Proof. by destruct o2. Qed.

Lemma wf_push_children lh v1 o2 : wf (push_children lh v1 o2).
Proof. destruct o2; apply wf_push. Qed.

(** An invariant of the two kinds of pass is an invariant of the loop. *)
Lemma iter_loop_invariant (P : PQueue.t VBox.t → Prop) histo target :
  (∀ lh v lh', P lh → PQueue.pop lh = Ok (v, lh') → VBox.count v = 0 →
               P (PQueue.push lh' v)) →
  (∀ lh v lh' v1 o2, P lh → PQueue.pop lh = Ok (v, lh') →
                     median_cut_apply histo v = Ok (Some v1, o2) →
                     P (push_children lh' v1 o2)) →
  ∀ fuel lh n_color n_iter lh',
    P lh → iter_loop fuel histo target lh n_color n_iter = Ok lh' → P lh'.
Proof.
  intros Hback Hsplit. induction fuel as [|fuel IH];
    intros lh n_color n_iter lh' HP; simpl; [done|].
  destruct (n_iter <? MAX_ITERATION); [|by intros [= <-]].
  destruct (PQueue.pop lh) as [[v lh1]|e|] eqn:Hpop; simpl; try done.
  destruct (Z.eqb_spec (VBox.count v) 0) as [H0|H0].
  { apply IH. eauto. }
  destruct (median_cut_apply histo v) as [[[v1|] o2]|e|] eqn:Hcut;
    simpl; try done.
  specialize (Hsplit _ _ _ _ _ HP Hpop Hcut).
  destruct o2 as [v2|]; simpl in *.
  - destruct (Qle_bool _ _); [by intros [= <-]|].
    destruct (MAX_ITERATION <? n_iter); [by intros [= <-]|].
    by apply IH.
  - destruct (Qle_bool _ _); [by intros [= <-]|].
    destruct (MAX_ITERATION <? n_iter); [by intros [= <-]|].
    by apply IH.
Qed.

(** The loop keeps the points covered by the queue. *)
Lemma iter_loop_cover histo target fuel lh n_color n_iter lh' p :
  iter_loop fuel histo target lh n_color n_iter = Ok lh' →
  cover p (PQueue.contents lh') = cover p (PQueue.contents lh).
Proof.
  apply (iter_loop_invariant
           (λ q, cover p (PQueue.contents q) = cover p (PQueue.contents lh)));
    [| |done].
  - intros q v q' HP Hpop _. simpl.
    by rewrite <- (cover_perm _ _ _ (pop_contents _ _ _ Hpop)).
  - intros q v q' v1 o2 HP Hpop Hcut.
    rewrite push_children_contents, cover_app.
    rewrite (median_cut_apply_cover _ _ _ _ _ Hcut), <- cover_app.
    by rewrite <- (cover_perm _ _ _ (pop_contents _ _ _ Hpop)).
Qed.

(** The loop keeps the key of the queue and leaves it well formed. *)
Lemma iter_loop_wf histo target fuel lh n_color n_iter lh' :
  wf lh → iter_loop fuel histo target lh n_color n_iter = Ok lh' →
  wf lh' ∧ PQueue.sort_key lh' = PQueue.sort_key lh.
Proof.
  intros Hwf.
  apply (iter_loop_invariant
           (λ q, wf q ∧ PQueue.sort_key q = PQueue.sort_key lh));
    [| |done].
  - intros q v q' [_ Hk] (_ & Hk' & _)%pop_inv _.
    split; [apply wf_push|]. simpl. congruence.
  - intros q v q' v1 o2 [_ Hk] (_ & Hk' & _)%pop_inv _.
    split; [apply wf_push_children|]. rewrite push_children_key. congruence.
Qed.

Lemma foldl_push_contents {A} (q : PQueue.t A) l :
  PQueue.contents (foldl PQueue.push q l) = PQueue.contents q ++ l.
Proof.
  revert q. induction l as [|x l IH]; intros q; simpl.
  - by rewrite app_nil_r.
  - rewrite IH. simpl. by rewrite <- app_assoc.
Qed.

Lemma foldl_push_key {A} (q : PQueue.t A) l :
  PQueue.sort_key (foldl PQueue.push q l) = PQueue.sort_key q.
Proof. revert q. induction l as [|x l IH]; intros q; simpl; [done|by rewrite IH]. Qed.

Lemma wf_foldl_push {A} (q : PQueue.t A) l : wf q → wf (foldl PQueue.push q l).
Proof.
  destruct l as [|x l _] using rev_ind; [done|]. intros _.
  rewrite foldl_app. apply wf_push.
Qed.

Lemma size_zero {A} (q : PQueue.t A) :
  PQueue.size q = 0 ↔ PQueue.contents q = [].
Proof.
  unfold PQueue.size. destruct (PQueue.contents q); simpl; [done|].
  split; [lia|done].
Qed.

(** Emptying a queue hands over its boxes from the largest key down. *)
Lemma refill_spec fuel pq pq2 :
  (length (PQueue.contents pq) ≤ fuel)%nat →
  refill fuel pq pq2 = Ok (foldl PQueue.push pq2 (reverse (ordered pq))).
Proof.
  revert pq pq2. induction fuel as [|fuel IH]; intros pq pq2 Hlen;
    unfold refill; fold refill;
    destruct (Z.eqb_spec (PQueue.size pq) 0) as [H0|H0].
  - apply size_zero in H0.
    assert (ordered pq = []) as ->; [|done].
    apply length_zero_iff_nil. by rewrite ordered_length, H0.
  - exfalso. apply H0, size_zero. apply length_zero_iff_nil. lia.
  - apply size_zero in H0.
    assert (ordered pq = []) as ->; [|done].
    apply length_zero_iff_nil. by rewrite ordered_length, H0.
  - rewrite size_zero in H0.
    destruct (pop_ok pq H0) as (x & q' & Hpop). rewrite Hpop. simpl.
    rewrite (pop_ordered _ _ _ Hpop), reverse_snoc. simpl.
    apply IH. apply pop_contents in Hpop.
    apply Permutation_length in Hpop. rewrite length_app in Hpop.
    simpl in Hpop. lia.
Qed.

Lemma drain_spec fuel pq2 cmap :
  (length (PQueue.contents pq2) ≤ fuel)%nat →
  drain fuel pq2 cmap = Ok (foldl CMap.push cmap (reverse (ordered pq2))).
Proof.
  revert pq2 cmap. induction fuel as [|fuel IH]; intros pq2 cmap Hlen;
    unfold drain; fold drain;
    destruct (Z.eqb_spec (PQueue.size pq2) 0) as [H0|H0].
  - apply size_zero in H0.
    assert (ordered pq2 = []) as ->; [|done].
    apply length_zero_iff_nil. by rewrite ordered_length, H0.
  - exfalso. apply H0, size_zero. apply length_zero_iff_nil. lia.
  - apply size_zero in H0.
    assert (ordered pq2 = []) as ->; [|done].
    apply length_zero_iff_nil. by rewrite ordered_length, H0.
  - rewrite size_zero in H0.
    destruct (pop_ok pq2 H0) as (x & q' & Hpop). rewrite Hpop. simpl.
    rewrite (pop_ordered _ _ _ Hpop), reverse_snoc. simpl.
    apply IH. apply pop_contents in Hpop.
    apply Permutation_length in Hpop. rewrite length_app in Hpop.
    simpl in Hpop. lia.
Qed.

Lemma foldl_cmap_push_contents c l :
  PQueue.contents (CMap.vboxes (foldl CMap.push c l))
  = PQueue.contents (CMap.vboxes c) ++ (entry_of <$> l).
Proof.
  revert c. induction l as [|x l IH]; intros c; simpl.
  - by rewrite app_nil_r.
  - rewrite IH. simpl. by rewrite <- app_assoc.
Qed.

Lemma foldl_cmap_push_key c l :
  PQueue.sort_key (CMap.vboxes (foldl CMap.push c l))
  = PQueue.sort_key (CMap.vboxes c).
Proof. revert c. induction l as [|x l IH]; intros c; simpl; [done|by rewrite IH]. Qed.

Lemma foldl_cmap_push_sorted c l :
  PQueue._sorted (CMap.vboxes c) = false →
  PQueue._sorted (CMap.vboxes (foldl CMap.push c l)) = false.
Proof. revert c. induction l as [|x l IH]; intros c; simpl; [done|]. intros _. by apply IH. Qed.
End LoopFacts.

(** ** The quantizer *)

Section QuantizeFacts.
Import MMCQ.

(** The first box contains every pixel it was built from. *)
Lemma vbox_from_pixels_contains pixels histo p :
  p ∈ pixels → VBox.contains (vbox_from_pixels pixels histo) p.
Proof.
  intros Hp. apply contains_spec. unfold vbox_from_pixels.
  set (step := λ '(rmin, rmax, gmin, gmax, bmin, bmax) pixel,
                 let '(rval, gval, bval) := reduce pixel in
                 (Z.min rval rmin, Z.max rval rmax,
                  Z.min gval gmin, Z.max gval gmax,
                  Z.min bval bmin, Z.max bval bmax)).
  assert (∀ l acc,
    let '(rmin, rmax, gmin, gmax, bmin, bmax) := acc in
    let '(rmin', rmax', gmin', gmax', bmin', bmax') := foldl step acc l in
    (rmin' ≤ rmin ∧ rmax ≤ rmax' ∧ gmin' ≤ gmin ∧ gmax ≤ gmax'
     ∧ bmin' ≤ bmin ∧ bmax ≤ bmax')
    ∧ ∀ q, q ∈ l →
        let '(x, y, z) := reduce q in
        rmin' ≤ x ≤ rmax' ∧ gmin' ≤ y ≤ gmax' ∧ bmin' ≤ z ≤ bmax') as Hfold.
  { induction l as [|q l IH]; intros [[[[[rmin rmax] gmin] gmax] bmin] bmax].
    - simpl. split; [lia|]. intros q Hq. by apply elem_of_nil in Hq.
    - simpl. destruct (reduce q) as [[x y] z] eqn:Hq.
      specialize (IH (Z.min x rmin, Z.max x rmax, Z.min y gmin,
                      Z.max y gmax, Z.min z bmin, Z.max z bmax)).
      simpl in IH.
      destruct (foldl step _ l) as [[[[[rmin' rmax'] gmin'] gmax'] bmin'] bmax'].
      destruct IH as [Hb Hin]. split; [lia|].
      intros q' [->|Hq']%elem_of_cons.
      + rewrite Hq. lia.
      + by apply Hin. }
  specialize (Hfold pixels (1000000, 0, 1000000, 0, 1000000, 0)).
  simpl in Hfold.
  destruct (foldl step _ pixels) as [[[[[rmin' rmax'] gmin'] gmax'] bmin'] bmax'].
  destruct Hfold as [_ Hin]. specialize (Hin p Hp).
  unfold in_box. by destruct (reduce p) as [[x y] z].
Qed.

(** The steps of a successful call. *)
Lemma quantize_inv pixels max_color cmap :
  quantize pixels max_color = Ok cmap →
  pixels ≠ [] ∧ 2 ≤ max_color ≤ 256 ∧
  ∃ pq pq2,
    let histo := get_histo pixels in
    iter_ histo (PQueue.push (PQueue.new VBox.count)
                             (vbox_from_pixels pixels histo))
          (FRACT_BY_POPULATIONS * inject_Z max_color)%Q = Ok pq
    ∧ (let pq2_0 := foldl PQueue.push
                      (PQueue.new (λ x, VBox.count x * VBox.volume x))
                      (reverse (ordered pq)) in
       iter_ histo pq2_0 (inject_Z (max_color - PQueue.size pq2_0)) = Ok pq2)
    ∧ cmap = foldl CMap.push CMap.new (reverse (ordered pq2)).
Proof.
  unfold quantize. case_bool_decide as Hne; [done|].
  destruct (Z.ltb_spec max_color 2); [done|].
  destruct (Z.ltb_spec 256 max_color); [done|]. simpl.
  destruct (iter_ _ _ _) as [pq|e|] eqn:H1; simpl; try done.
  rewrite refill_spec by done. simpl.
  destruct (iter_ _ _ (inject_Z _)) as [pq2|e|] eqn:H2; simpl; try done.
  rewrite drain_spec by done. intros [= <-].
  split; [done|]. split; [lia|]. by exists pq, pq2.
Qed.

(** The boxes kept by a successful call cover the same points as the first
    box. *)
Lemma quantize_cover pixels max_color cmap p :
  quantize pixels max_color = Ok cmap →
  cover p (CMap.vbox <$> PQueue.contents (CMap.vboxes cmap))
  = cover p [vbox_from_pixels pixels (get_histo pixels)].
Proof.
  intros (_ & _ & pq & pq2 & H1 & H2 & ->)%quantize_inv. simpl in *.
  rewrite foldl_cmap_push_contents. simpl.
  rewrite <- list_fmap_compose.
  change (CMap.vbox ∘ entry_of) with (@id VBox.t). rewrite list_fmap_id.
  rewrite (cover_perm _ _ (PQueue.contents pq2))
    by (by rewrite reverse_Permutation, ordered_perm).
  rewrite (iter_loop_cover _ _ _ _ _ _ _ _ H2).
  rewrite foldl_push_contents. simpl.
  rewrite (cover_perm _ _ (PQueue.contents pq))
    by (by rewrite reverse_Permutation, ordered_perm).
  by rewrite (iter_loop_cover _ _ _ _ _ _ _ _ H1).
Qed.
End QuantizeFacts.

(** ** Retained regions partition the input *)

Lemma cover_elem p v l : v ∈ l → VBox.contains v p → (1 ≤ cover p l)%nat.
Proof.
  intros Hin Hv. unfold cover.
  assert (v ∈ filter (λ v, VBox.contains v p) l) as H
    by (by apply list_elem_of_filter).
  destruct (filter _ l); [by apply elem_of_nil in H|simpl; lia].
Qed.

Lemma cover_cons p v l :
  cover p (v :: l) = ((if VBox.contains v p then 1 else 0) + cover p l)%nat.
Proof. change (v :: l) with ([v] ++ l). by rewrite cover_app, cover_singleton. Qed.

(** Boxes that cover a pixel at most once are pairwise disjoint at it. *)
Lemma cover_disjoint p l i j v w :
  (cover p l ≤ 1)%nat → i ≠ j → l !! i = Some v → l !! j = Some w →
  ¬ (VBox.contains v p ∧ VBox.contains w p).
Proof.
  revert i j. induction l as [|x l IH]; intros i j Hc Hij Hi Hj [Hv Hw];
    [done|].
  rewrite cover_cons in Hc.
  destruct i as [|i], j as [|j]; simpl in *; try done.
  - injection Hi as ->. apply list_elem_of_lookup_2 in Hj.
    pose proof (cover_elem p w l Hj Hw).
    apply Is_true_true in Hv. rewrite Hv in Hc. lia.
  - injection Hj as ->. apply list_elem_of_lookup_2 in Hi.
    pose proof (cover_elem p v l Hi Hv).
    apply Is_true_true in Hw. rewrite Hw in Hc. lia.
  - apply (IH i j); [lia|congruence|done|done|done].
Qed.

(** C6.  After a successful quantization every pixel of the input lies in
    exactly one retained region, and no two retained regions share a point of
    the reduced cube. *)
Theorem retained_regions_partition pixels max_color cmap :
  MMCQ.quantize pixels max_color = Ok cmap →
  let regions := CMap.vbox <$> PQueue.contents (CMap.vboxes cmap) in
  (∀ p, p ∈ pixels →
        length (filter (λ v, VBox.contains v p) regions) = 1%nat)
  ∧ (∀ i j v w c, i ≠ j → regions !! i = Some v → regions !! j = Some w →
                  ¬ (in_box v c ∧ in_box w c)).
Proof.
  intros Hq regions.
  assert (∀ p, cover p regions
               = if VBox.contains
                      (MMCQ.vbox_from_pixels pixels (MMCQ.get_histo pixels)) p
                 then 1%nat else 0%nat) as Hcover.
  { intros p. unfold regions.
    by rewrite (quantize_cover _ _ _ _ Hq), cover_singleton. }
  split.
  - intros p Hp. fold (cover p regions). rewrite Hcover.
    pose proof (vbox_from_pixels_contains pixels (MMCQ.get_histo pixels) p Hp) as H.
    apply Is_true_true in H. by rewrite H.
  - intros i j v w c Hij Hi Hj. destruct (reduce_onto c) as [p <-].
    rewrite <- !contains_spec.
    apply (cover_disjoint p regions i j); try done.
    rewrite Hcover. destruct (VBox.contains _ p); lia.
Qed.

Lemma retained_regions_partition_witness :
  let pixels := [(0, 0, 0); (8, 0, 0); (16, 0, 0); (24, 0, 0)] in
  let cmap := match MMCQ.quantize pixels 2 with
              | Ok c => c
              | _ => CMap.new
              end in
  let regions := CMap.vbox <$> PQueue.contents (CMap.vboxes cmap) in
  (∀ p, p ∈ pixels →
        length (filter (λ v, VBox.contains v p) regions) = 1%nat)
  ∧ (∀ i j v w c, i ≠ j → regions !! i = Some v → regions !! j = Some w →
                  ¬ (in_box v c ∧ in_box w c)).
Proof.
  intros pixels cmap. apply (retained_regions_partition pixels 2 cmap).
  vm_compute. reflexivity.
Defined.

(** ** The split axis *)

Lemma cut_color_largest v a : extent a v ≤ extent (MMCQ.cut_color v) v.
Proof.
  unfold MMCQ.cut_color, extent.
  repeat match goal with
         | |- context [Z.eqb ?x ?y] => destruct (Z.eqb_spec x y)
         end; destruct a; simpl; lia.
Qed.

Lemma cut_color_first v a :
  axis_before a (MMCQ.cut_color v) → extent a v < extent (MMCQ.cut_color v) v.
Proof.
  unfold MMCQ.cut_color, extent.
  repeat match goal with
         | |- context [Z.eqb ?x ?y] => destruct (Z.eqb_spec x y)
         end; destruct a; simpl; try done; lia.
Qed.

(** ** Sums over lists, as the loops compute them *)

Section SumFacts.
Context {A : Type}.

Lemma foldl_add (f : A → Z) l a :
  foldl (λ s x, s + f x) a l = a + Zsum_with f l.
Proof.
  revert a. induction l as [|x l IH]; intros a; simpl; [lia|].
  rewrite IH. lia.
Qed.

Lemma Zsum_with_app (f : A → Z) l1 l2 :
  Zsum_with f (l1 ++ l2) = Zsum_with f l1 + Zsum_with f l2.
Proof. induction l1 as [|x l1 IH]; simpl; lia. Qed.

Lemma Zsum_with_nonneg (f : A → Z) l :
  (∀ x, 0 ≤ f x) → 0 ≤ Zsum_with f l.
Proof. intros Hf. induction l as [|x l IH]; simpl; [lia|]. specialize (Hf x). lia. Qed.

Lemma Zsum_with_ext (f g : A → Z) l :
  (∀ x, f x = g x) → Zsum_with f l = Zsum_with g l.
Proof. intros Hfg. induction l as [|x l IH]; simpl; [done|]. by rewrite Hfg, IH. Qed.

Lemma Zsum_with_zero l : Zsum_with (λ _ : A, 0) l = 0.
Proof. induction l as [|x l IH]; simpl; lia. Qed.

Lemma Zsum_with_plus (f g : A → Z) l :
  Zsum_with (λ x, f x + g x) l = Zsum_with f l + Zsum_with g l.
Proof. induction l as [|x l IH]; simpl; lia. Qed.

Lemma Zsum_with_elem (f : A → Z) l x :
  (∀ y, 0 ≤ f y) → x ∈ l → f x ≤ Zsum_with f l.
Proof.
  intros Hf. induction l as [|y l IH]; intros Hx; [by apply elem_of_nil in Hx|].
  simpl. apply elem_of_cons in Hx as [->|Hx].
  - pose proof (Zsum_with_nonneg f l Hf). lia.
  - specialize (IH Hx). specialize (Hf y). lia.
Qed.
End SumFacts.

Lemma Zsum_with_bind {A B} (f : B → Z) (g : A → list B) l :
  Zsum_with f (l ≫= g) = Zsum_with (λ x, Zsum_with f (g x)) l.
Proof.
  induction l as [|x l IH]; [done|].
  rewrite bind_cons, Zsum_with_app, IH. done.
Qed.

(** Two nested loops may be exchanged. *)
Lemma Zsum_with_swap {A B} (F : A → B → Z) l1 l2 :
  Zsum_with (λ x, Zsum_with (F x) l2) l1
  = Zsum_with (λ y, Zsum_with (λ x, F x y) l1) l2.
Proof.
  induction l1 as [|x l1 IH]; simpl.
  - by rewrite Zsum_with_zero.
  - by rewrite IH, Zsum_with_plus.
Qed.

(** The nested accumulation of [slice_sum]. *)
Lemma foldl_add_nested {A B} (F : A → B → Z) l1 l2 a :
  foldl (λ s j, foldl (λ s k, s + F j k) s l2) a l1
  = a + Zsum_with (λ j, Zsum_with (F j) l2) l1.
Proof.
  revert a. induction l1 as [|x l1 IH]; intros a; simpl; [lia|].
  rewrite IH, foldl_add. lia.
Qed.

(** ** Populations: counts, slices and partial sums *)

Section CountFacts.
Import MMCQ.

Lemma get_histo_nonneg pixels : nonneg_histo (get_histo pixels).
Proof.
  unfold get_histo.
  assert (∀ h, nonneg_histo h →
               nonneg_histo
                 (foldl (λ histo pixel,
                           let '(rval, gval, bval) := reduce pixel in
                           let index := get_color_index rval gval bval in
                           <[index := default 0 (histo !! index) + 1]> histo)
                        h pixels)) as Hfold.
  { induction pixels as [|p pixels IH]; intros h Hh; [done|].
    simpl. apply IH. destruct (reduce p) as [[x y] z].
    intros k c. rewrite lookup_insert. case_decide as Hk.
    - intros [= <-]. destruct (h !! _) as [c'|] eqn:Hc; simpl; [|lia].
      apply Hh in Hc. lia.
    - apply Hh. }
  apply Hfold. intros k x. by rewrite lookup_empty.
Qed.

Lemma lookup_nonneg h k : nonneg_histo h → 0 ≤ default 0 (h !! k).
Proof. intros Hh. destruct (h !! k) as [x|] eqn:Hx; simpl; [by eapply Hh|lia]. Qed.

Lemma hval_nonneg h c : nonneg_histo h → 0 ≤ VBox.hval h c.
Proof. intros Hh. destruct c as [[i j] k]. by apply lookup_nonneg. Qed.

Lemma count_sum v :
  VBox.count v = Zsum_with (VBox.hval (VBox.histo v)) (VBox.cells v).
Proof. unfold VBox.count. rewrite foldl_add. lia. Qed.

Lemma cells_sum h v :
  Zsum_with (VBox.hval h) (VBox.cells v)
  = Zsum_with (λ i,
      Zsum_with (λ j,
        Zsum_with (λ k, default 0 (h !! get_color_index i j k))
                  (range (VBox.b1 v) (VBox.b2 v + 1)))
                (range (VBox.g1 v) (VBox.g2 v + 1)))
              (range (VBox.r1 v) (VBox.r2 v + 1)).
Proof.
  unfold VBox.cells. rewrite Zsum_with_bind. apply Zsum_with_ext. intros i.
  rewrite Zsum_with_bind. apply Zsum_with_ext. intros j.
  rewrite Zsum_with_bind. apply Zsum_with_ext. intros k. simpl. lia.
Qed.

Lemma slice_sum_R h v i :
  slice_sum h R v i
  = Zsum_with (λ j, Zsum_with (λ k, default 0 (h !! get_color_index i j k))
                              (range (VBox.b1 v) (VBox.b2 v + 1)))
              (range (VBox.g1 v) (VBox.g2 v + 1)).
Proof.
  unfold slice_sum.
  rewrite (foldl_add_nested (λ j k, default 0 (h !! get_color_index i j k))).
  lia.
Qed.

Lemma slice_sum_G h v i :
  slice_sum h G v i
  = Zsum_with (λ j, Zsum_with (λ k, default 0 (h !! get_color_index j i k))
                              (range (VBox.b1 v) (VBox.b2 v + 1)))
              (range (VBox.r1 v) (VBox.r2 v + 1)).
Proof.
  unfold slice_sum.
  rewrite (foldl_add_nested (λ j k, default 0 (h !! get_color_index j i k))).
  lia.
Qed.

Lemma slice_sum_B h v i :
  slice_sum h B v i
  = Zsum_with (λ j, Zsum_with (λ k, default 0 (h !! get_color_index j k i))
                              (range (VBox.g1 v) (VBox.g2 v + 1)))
              (range (VBox.r1 v) (VBox.r2 v + 1)).
Proof.
  unfold slice_sum.
  rewrite (foldl_add_nested (λ j k, default 0 (h !! get_color_index j k i))).
  lia.
Qed.

Lemma slice_sum_nonneg h a v i : nonneg_histo h → 0 ≤ slice_sum h a v i.
Proof.
  intros Hh.
  destruct a; rewrite ?slice_sum_R, ?slice_sum_G, ?slice_sum_B;
    apply Zsum_with_nonneg; intros j; apply Zsum_with_nonneg; intros k;
    by apply lookup_nonneg.
Qed.

(** The slices of any axis add up to the population of the box. *)
Lemma slice_sum_total h a v :
  Zsum_with (slice_sum h a v) (range (dim1 a v) (dim2 a v + 1))
  = Zsum_with (VBox.hval h) (VBox.cells v).
Proof.
  rewrite cells_sum. destruct a; simpl.
  - apply Zsum_with_ext. intros i. apply slice_sum_R.
  - rewrite (Zsum_with_swap _ (range (VBox.r1 v) (VBox.r2 v + 1))).
    apply Zsum_with_ext. intros i. apply slice_sum_G.
  - rewrite (Zsum_with_ext _ _ _
               (λ i, Zsum_with_swap _ (range (VBox.g1 v) (VBox.g2 v + 1))
                                      (range (VBox.b1 v) (VBox.b2 v + 1)))).
    rewrite (Zsum_with_swap _ (range (VBox.r1 v) (VBox.r2 v + 1))).
    apply Zsum_with_ext. intros i. apply slice_sum_B.
Qed.

Lemma partial_fold_spec (f : Z → Z) b (n : nat) t (m : gmap Z Z) :
  let r := foldl (λ '(total, partialsum) i,
                    let sum_ := f i in
                    let total := total + sum_ in
                    (total, <[i := total]> partialsum))
                 (t, m) (seqZ b (Z.of_nat n)) in
  r.1 = t + Zsum_with f (seqZ b (Z.of_nat n))
  ∧ ∀ i, b ≤ i < b + Z.of_nat n → r.2 !! i = Some (t + prefix_sum f b i).
Proof.
  induction n as [|n IH].
  - simpl. split; [lia|]. intros i Hi. lia.
  - rewrite seqZ_S, foldl_app, Zsum_with_app. simpl in *.
    destruct (foldl _ (t, m) (seqZ b (Z.of_nat n))) as [total ps].
    simpl in *. destruct IH as [-> IH]. split; [lia|].
    intros i Hi. destruct (decide (i = b + Z.of_nat n)) as [->|Hne].
    + rewrite lookup_insert_eq. f_equal. unfold prefix_sum.
      replace (b + Z.of_nat n - b + 1) with (Z.of_nat (S n)) by lia.
      rewrite seqZ_S, Zsum_with_app. simpl. lia.
    + rewrite lookup_insert_ne by done. apply IH. lia.
Qed.

Lemma partial_sums_total histo a v :
  (partial_sums histo a v).1
  = Zsum_with (VBox.hval histo) (VBox.cells v).
Proof.
  rewrite <- (slice_sum_total histo a v). unfold partial_sums, range.
  destruct (Z.le_gt_cases (dim2 a v + 1 - dim1 a v) 0) as [Hle|Hgt].
  - by rewrite seqZ_nil.
  - pose proof (partial_fold_spec (slice_sum histo a v) (dim1 a v)
                  (Z.to_nat (dim2 a v + 1 - dim1 a v)) 0 ∅) as [H _].
    rewrite Z2Nat.id in H by lia. simpl in H. rewrite H. lia.
Qed.

Lemma partial_sums_lookup histo a v i :
  dim1 a v ≤ i ≤ dim2 a v →
  (partial_sums histo a v).2 !! i
  = Some (prefix_sum (slice_sum histo a v) (dim1 a v) i).
Proof.
  intros Hi. unfold partial_sums, range.
  pose proof (partial_fold_spec (slice_sum histo a v) (dim1 a v)
                (Z.to_nat (dim2 a v + 1 - dim1 a v)) 0 ∅) as [_ H].
  rewrite Z2Nat.id in H by lia. simpl in H. by rewrite H by lia.
Qed.

Lemma prefix_sum_mono f b i j :
  (∀ x, 0 ≤ f x) → b ≤ i ≤ j → prefix_sum f b i ≤ prefix_sum f b j.
Proof.
  intros Hf Hij. unfold prefix_sum.
  replace (j - b + 1) with ((i - b + 1) + (j - i)) by lia.
  rewrite (seqZ_app b (i - b + 1) (j - i)) by lia. rewrite Zsum_with_app.
  pose proof (Zsum_with_nonneg f (seqZ (b + (i - b + 1)) (j - i)) Hf). lia.
Qed.
End CountFacts.

(** ** The splitter returns *)

Section SplitReturns.
Import MMCQ.

Lemma skip_empty_ok fuel ps d i :
  truthy (ps !! i) = true → d ≤ i → i - d ≤ Z.of_nat fuel →
  ∃ d', skip_empty fuel ps d = Ok d'.
Proof.
  intros Hi. revert d. induction fuel as [|fuel IH]; intros d Hd Hfuel; simpl;
    destruct (truthy (ps !! d)) eqn:Hd'; try by eexists.
  - assert (d = i) as -> by lia. congruence.
  - apply IH; [|lia]. destruct (decide (d = i)) as [->|]; [congruence|lia].
Qed.

Lemma back_off_ok fuel ps la d c lo :
  (∀ j, truthy (ps !! j) = true → lo ≤ j) → d - lo ≤ Z.of_nat fuel →
  ∃ d', back_off fuel ps la d c = Ok d'.
Proof.
  intros Hlo. revert d c. induction fuel as [|fuel IH]; intros d c Hfuel; simpl;
    destruct (negb (truthy c) && truthy (ps !! (d - 1))) eqn:Hc;
    try by eexists.
  - apply andb_true_iff in Hc as [_ Hc]. apply Hlo in Hc. lia.
  - apply IH. lia.
Qed.

Lemma cut_start_le v a i :
  dim1 a v ≤ i ≤ dim2 a v →
  (if i - dim1 a v <=? dim2 a v - i
   then Z.min (dim2 a v - 1) (int_div (2 * i + (dim2 a v - i)) 2)
   else Z.max (dim1 a v) (int_div (2 * (i - 1) - (i - dim1 a v)) 2))
  ≤ dim2 a v.
Proof.
  intros Hi. unfold int_div.
  destruct (Z.leb_spec (i - dim1 a v) (dim2 a v - i)); [lia|].
  Z.to_euclidean_division_equations. lia.
Qed.

Lemma cut_ok histo v a la i :
  nonneg_histo histo → dim1 a v ≤ i ≤ dim2 a v →
  0 < prefix_sum (slice_sum histo a v) (dim1 a v) i →
  ∃ r, cut v a (partial_sums histo a v).2 la i = Ok r.
Proof.
  intros Hh Hi Hpos. unfold cut.
  pose proof (cut_start_le v a i Hi) as Hstart.
  set (d0 := if i - dim1 a v <=? dim2 a v - i then _ else _) in *.
  destruct (skip_empty_ok (Z.to_nat (dim2 a v + 1 - d0))
              (partial_sums histo a v).2 d0 (Z.max d0 i)) as [d ->];
    [|lia|lia|].
  { rewrite partial_sums_lookup by lia. unfold truthy.
    pose proof (prefix_sum_mono (slice_sum histo a v) (dim1 a v) i (Z.max d0 i)
                  (λ x, slice_sum_nonneg histo a v x Hh) ltac:(lia)).
    destruct (Z.eqb_spec (prefix_sum (slice_sum histo a v) (dim1 a v)
                                     (Z.max d0 i)) 0); [lia|done]. }
  cbn [mbind result_bind].
  destruct (back_off_ok (Z.to_nat (d - dim1 a v)) (partial_sums histo a v).2
              la d (la !! d) (dim1 a v)) as [d' ->]; [|lia|by eexists].
  intros j Hj%truthy_is_Some. apply partial_sums_keys in Hj. lia.
Qed.

Lemma cut_scan_ok histo v a la idxs :
  nonneg_histo histo →
  (∀ i, i ∈ idxs → dim1 a v ≤ i ≤ dim2 a v) →
  0 ≤ (partial_sums histo a v).1 →
  (∃ i, i ∈ idxs ∧ (partial_sums histo a v).1
                   < 2 * prefix_sum (slice_sum histo a v) (dim1 a v) i) →
  ∃ v1 v2, cut_scan v a (partial_sums histo a v).1 (partial_sums histo a v).2
                    la idxs = Ok (Some v1, Some v2).
Proof.
  intros Hh Hin Htot. induction idxs as [|i idxs IH]; intros (w & Hw & Hlt).
  { by apply elem_of_nil in Hw. }
  simpl. rewrite partial_sums_lookup by (apply Hin; by left).
  destruct (Z.ltb_spec (partial_sums histo a v).1
              (2 * prefix_sum (slice_sum histo a v) (dim1 a v) i)) as [Hi|Hi].
  - destruct (cut_ok histo v a la i) as [r Hr]; [done|apply Hin; by left|lia|].
    rewrite Hr. apply cut_inv in Hr as (d2 & _ & ->); [by eexists _, _|].
    intros j. apply partial_sums_keys.
  - apply IH; [intros j Hj; apply Hin; by right|].
    exists w. split; [|done]. apply elem_of_cons in Hw as [->|]; [lia|done].
Qed.

(** On a populated box the splitter returns a first box. *)
Lemma median_cut_apply_ok histo v :
  nonneg_histo histo → VBox.histo v = histo → VBox.count v ≠ 0 →
  ∃ v1 o2, median_cut_apply histo v = Ok (Some v1, o2).
Proof.
  intros Hh Hv Hc. unfold median_cut_apply.
  destruct (Z.eqb_spec (VBox.count v) 0); [done|].
  destruct (Z.eqb_spec (VBox.count v) 1); [by eexists _, _|].
  set (a := cut_color v).
  pose proof (partial_sums_total histo a v) as Htot.
  rewrite <- Hv, <- count_sum, Hv in Htot.
  assert (0 ≤ VBox.count v) as Hnn.
  { rewrite count_sum. apply Zsum_with_nonneg. intros c.
    apply hval_nonneg. by rewrite Hv. }
  assert (dim1 a v ≤ dim2 a v) as Hdim.
  { destruct (Z.le_gt_cases (dim1 a v) (dim2 a v)) as [|Hgt]; [done|].
    exfalso. apply Hc. rewrite <- Htot, <- Hv at 1.
    rewrite Hv, partial_sums_total, <- slice_sum_total with (a := a).
    unfold range. by rewrite seqZ_nil by lia. }
  destruct (cut_scan_ok histo v a
              ((λ d, (partial_sums histo a v).1 - d) <$> (partial_sums histo a v).2)
              (range (dim1 a v) (dim2 a v + 1))) as (v1 & v2 & Hscan).
  - done.
  - intros i. unfold range. rewrite elem_of_seqZ. lia.
  - lia.
  - exists (dim2 a v). split; [unfold range; rewrite elem_of_seqZ; lia|].
    assert (prefix_sum (slice_sum histo a v) (dim1 a v) (dim2 a v)
            = (partial_sums histo a v).1) as ->; [|lia].
    rewrite partial_sums_total, <- slice_sum_total with (a := a).
    unfold prefix_sum, range. f_equal. f_equal. lia.
  - destruct (partial_sums histo a v) as [total ps]. simpl in Hscan.
    rewrite Hscan. by eexists _, _.
Qed.
End SplitReturns.

(** C7.  A region with at least two pixels is cut, and along the axis of
    largest extent, the first such axis in the order red, green, blue: no
    axis is longer, every earlier axis is strictly shorter, and the splitter
    returns two children that differ from the region on that axis only, the
    first ending at a slice of the region and the second starting at the
    next one. *)
Theorem split_axis_largest_extent histo v :
  nonneg_histo histo → VBox.histo v = histo → 2 ≤ VBox.count v →
  let a := MMCQ.cut_color v in
  (∀ a', extent a' v ≤ extent a v)
  ∧ (∀ a', axis_before a' a → extent a' v < extent a v)
  ∧ ∃ d2, MMCQ.dim1 a v ≤ d2 ≤ MMCQ.dim2 a v
          ∧ MMCQ.median_cut_apply histo v
            = Ok (Some (MMCQ.set_dim2 a v d2),
                  Some (MMCQ.set_dim1 a v (d2 + 1))).
Proof.
  intros Hh Hv Hc a. split; [|split].
  - intros a'. apply cut_color_largest.
  - intros a'. apply cut_color_first.
  - destruct (median_cut_apply_ok histo v Hh Hv ltac:(lia))
      as (v1 & o2 & Hcut).
    pose proof Hcut
      as [(H1 & _)|(_ & _ & d2 & Hd2 & -> & ->)]%median_cut_apply_inv;
      [lia|].
    exists d2. split; [done|]. by rewrite copy_id in Hcut.
Qed.

Lemma split_axis_largest_extent_witness :
  let pixels := [(0, 0, 0); (8, 0, 0); (16, 8, 0); (24, 8, 0)] in
  let histo := MMCQ.get_histo pixels in
  let v := MMCQ.vbox_from_pixels pixels histo in
  let a := MMCQ.cut_color v in
  (∀ a', extent a' v ≤ extent a v)
  ∧ (∀ a', axis_before a' a → extent a' v < extent a v)
  ∧ ∃ d2, MMCQ.dim1 a v ≤ d2 ≤ MMCQ.dim2 a v
          ∧ MMCQ.median_cut_apply histo v
            = Ok (Some (MMCQ.set_dim2 a v d2),
                  Some (MMCQ.set_dim1 a v (d2 + 1))).
Proof.
  intros pixels histo v. apply (split_axis_largest_extent histo v).
  - apply get_histo_nonneg.
  - reflexivity.
  - vm_compute. discriminate.
Defined.

(** ** The quantizer returns *)

Section QuantizeReturns.
Import MMCQ.

Lemma histo_set_dim1 a v d : VBox.histo (set_dim1 a v d) = VBox.histo v.
Proof. by destruct a. Qed.

Lemma histo_set_dim2 a v d : VBox.histo (set_dim2 a v d) = VBox.histo v.
Proof. by destruct a. Qed.

Lemma vbox_from_pixels_histo pixels histo :
  VBox.histo (vbox_from_pixels pixels histo) = histo.
Proof.
  unfold vbox_from_pixels.
  by destruct (foldl _ _ pixels) as [[[[[rmin rmax] gmin] gmax] bmin] bmax].
Qed.

Lemma median_cut_apply_histo histo v v1 o2 :
  median_cut_apply histo v = Ok (Some v1, o2) →
  Forall (λ w, VBox.histo w = VBox.histo v) (v1 :: option_list o2).
Proof.
  intros [(_ & -> & ->)|(_ & _ & d2 & _ & -> & ->)]%median_cut_apply_inv;
    simpl; rewrite ?copy_id; repeat constructor;
    by rewrite ?histo_set_dim1, ?histo_set_dim2.
Qed.

Lemma good_push_back histo q v q' :
  good histo q → PQueue.pop q = Ok (v, q') → good histo (PQueue.push q' v).
Proof.
  intros [_ Hall] Hpop%pop_contents. split; simpl.
  - by destruct (PQueue.contents q').
  - by rewrite <- Hpop.
Qed.

Lemma good_push_children histo q v q' v1 o2 :
  good histo q → PQueue.pop q = Ok (v, q') →
  median_cut_apply histo v = Ok (Some v1, o2) →
  good histo (push_children q' v1 o2).
Proof.
  intros [_ Hall] Hpop%pop_contents Hcut%median_cut_apply_histo.
  rewrite Hpop, Forall_app, Forall_singleton in Hall. destruct Hall as [Hq' Hv].
  split; rewrite push_children_contents.
  - by destruct (PQueue.contents q').
  - apply Forall_app. split; [done|].
    eapply Forall_impl; [exact Hcut|]. simpl. congruence.
Qed.

Lemma iter_loop_good histo target fuel lh n_color n_iter lh' :
  good histo lh → iter_loop fuel histo target lh n_color n_iter = Ok lh' →
  good histo lh'.
Proof.
  apply (iter_loop_invariant (good histo)).
  - intros q v q' Hq Hpop _. by eapply good_push_back.
  - intros q v q' v1 o2. apply good_push_children.
Qed.

(** The loop returns: the queue is never empty, a populated box is always
    split, and the fuel outlasts the iteration bound. *)
Lemma iter_loop_ok histo target fuel lh n_color n_iter :
  nonneg_histo histo → good histo lh →
  Z.max 0 (MAX_ITERATION - n_iter) < Z.of_nat fuel →
  ∃ lh', iter_loop fuel histo target lh n_color n_iter = Ok lh'.
Proof.
  intros Hh. revert lh n_color n_iter.
  induction fuel as [|fuel IH]; intros lh n_color n_iter Hgood Hfuel; [lia|].
  unfold iter_loop; fold iter_loop.
  destruct (Z.ltb_spec n_iter MAX_ITERATION) as [Hlt|Hge]; [|by eexists].
  destruct (pop_ok lh (proj1 Hgood)) as (v & lh1 & Hpop). rewrite Hpop.
  cbn [mbind result_bind].
  destruct (Z.eqb_spec (VBox.count v) 0) as [H0|H0].
  { apply IH; [by eapply good_push_back|lia]. }
  assert (VBox.histo v = histo) as Hv.
  { destruct Hgood as [_ Hall]. apply pop_contents in Hpop.
    rewrite Hpop, Forall_app, Forall_singleton in Hall. tauto. }
  destruct (median_cut_apply_ok histo v Hh Hv H0) as (v1 & o2 & Hcut).
  rewrite Hcut. cbn [mbind result_bind].
  pose proof (good_push_children _ _ _ _ _ _ Hgood Hpop Hcut) as Hgood'.
  destruct o2 as [v2|]; simpl in Hgood'; cbn iota beta;
    (destruct (Qle_bool _ _); [by eexists|]);
    (destruct (MAX_ITERATION <? n_iter); [by eexists|]);
    (apply IH; [done|lia]).
Qed.

Lemma iter_ok histo lh target :
  nonneg_histo histo → good histo lh → ∃ lh', iter_ histo lh target = Ok lh'.
Proof.
  intros Hh Hgood. apply iter_loop_ok; [done|done|].
  unfold MAX_ITERATION. lia.
Qed.

Lemma good_refilled histo key pq :
  good histo pq →
  good histo (foldl PQueue.push (PQueue.new key) (reverse (ordered pq))).
Proof.
  intros [Hne Hall]. unfold good. rewrite foldl_push_contents. simpl.
  split.
  - intros Hnil. apply Hne. apply length_zero_iff_nil.
    by rewrite <- ordered_length, <- length_reverse, Hnil.
  - by rewrite reverse_Permutation, ordered_perm.
Qed.

(** A non-empty pixel list and a palette size in 2..256 give a colour map,
    and the colour map has an entry. *)
Lemma quantize_ok pixels max_color :
  pixels ≠ [] → 2 ≤ max_color ≤ 256 →
  ∃ cmap, quantize pixels max_color = Ok cmap
          ∧ PQueue.contents (CMap.vboxes cmap) ≠ [].
Proof.
  intros Hne HN. unfold quantize.
  rewrite bool_decide_eq_false_2 by done.
  destruct (Z.ltb_spec max_color 2); [lia|].
  destruct (Z.ltb_spec 256 max_color); [lia|]. cbn [orb].
  pose proof (get_histo_nonneg pixels) as Hh.
  set (histo := get_histo pixels) in *.
  assert (good histo (PQueue.push (PQueue.new VBox.count)
                                  (vbox_from_pixels pixels histo))) as Hgood.
  { split; [done|]. repeat constructor. apply vbox_from_pixels_histo. }
  destruct (iter_ok histo _ (FRACT_BY_POPULATIONS * inject_Z max_color)%Q
              Hh Hgood) as [pq Hpq].
  rewrite Hpq. cbn [mbind result_bind].
  apply iter_loop_good in Hpq; [|done].
  rewrite refill_spec by done. cbn [mbind result_bind].
  pose proof (good_refilled histo (λ x, VBox.count x * VBox.volume x) pq Hpq)
    as Hgood2.
  set (pq2_0 := foldl PQueue.push _ _) in *.
  destruct (iter_ok histo pq2_0 (inject_Z (max_color - PQueue.size pq2_0))
              Hh Hgood2) as [pq2 Hpq2].
  rewrite Hpq2. cbn [mbind result_bind].
  apply iter_loop_good in Hpq2; [|done].
  rewrite drain_spec by done. eexists. split; [done|].
  rewrite foldl_cmap_push_contents. simpl. destruct Hpq2 as [Hne2 _].
  intros Hnil. apply Hne2. apply length_zero_iff_nil.
  apply (f_equal length) in Hnil.
  by rewrite length_fmap, length_reverse, ordered_length in Hnil.
Qed.
End QuantizeReturns.

(** ** The size of the palette *)

Section SizeFacts.
Import MMCQ.

(** The loop adds a region each time it raises [n_color]; it runs a second
    time only while [n_color] is below the target. *)
Lemma iter_loop_size histo target fuel lh n_color n_iter lh' :
  iter_loop fuel histo target lh n_color n_iter = Ok lh' →
  ∃ n', PQueue.size lh' = PQueue.size lh + (n' - n_color)
        ∧ n_color ≤ n'
        ∧ (n' ≤ n_color + 1 ∨ ¬ (target <= inject_Z (n' - 1))%Q).
Proof.
  revert lh n_color n_iter. induction fuel as [|fuel IH];
    intros lh n_color n_iter; [done|].
  unfold iter_loop; fold iter_loop.
  destruct (n_iter <? MAX_ITERATION).
  2:{ intros [= <-]. exists n_color. lia. }
  destruct (PQueue.pop lh) as [[v lh1]|e|] eqn:Hpop; try done.
  cbn [mbind result_bind].
  assert (PQueue.size lh = PQueue.size lh1 + 1) as Hlen.
  { apply pop_contents, Permutation_length in Hpop.
    unfold PQueue.size. rewrite Hpop, length_app. simpl. lia. }
  destruct (VBox.count v =? 0).
  { intros (n' & Hn' & ?)%IH. exists n'. split; [|done].
    rewrite Hn'. unfold PQueue.size in *. simpl. rewrite length_app. simpl. lia. }
  destruct (median_cut_apply histo v) as [[[v1|] o2]|e|]; try done.
  cbn [mbind result_bind].
  destruct o2 as [v2|]; cbn iota beta.
  - destruct (Qle_bool target (inject_Z (n_color + 1))) eqn:Hq.
    { intros [= <-]. exists (n_color + 1). split; [|lia].
      unfold PQueue.size in *. simpl. rewrite !length_app. simpl. lia. }
    assert (∀ x, x = PQueue.push (PQueue.push lh1 v1) v2 →
                 PQueue.size x = PQueue.size lh + 1) as Hsz.
    { intros x ->. unfold PQueue.size in *. simpl. rewrite !length_app.
      simpl. lia. }
    destruct (MAX_ITERATION <? n_iter).
    { intros [= <-]. exists (n_color + 1). rewrite (Hsz _ eq_refl). lia. }
    intros (n' & Hn' & Hle & Hor)%IH. exists n'.
    rewrite Hn', (Hsz _ eq_refl). split; [lia|]. split; [lia|].
    destruct Hor as [Hor|Hor]; [|by right].
    destruct (decide (n' = n_color + 1)) as [->|]; [left; lia|]. right.
    replace (n' - 1) with (n_color + 1) by lia.
    intros Hle'%Qle_bool_iff. congruence.
  - destruct (Qle_bool target (inject_Z n_color)) eqn:Hq.
    { intros [= <-]. exists n_color. split; [|lia].
      unfold PQueue.size in *. simpl. rewrite !length_app. simpl. lia. }
    assert (∀ x, x = PQueue.push lh1 v1 → PQueue.size x = PQueue.size lh)
      as Hsz.
    { intros x ->. unfold PQueue.size in *. simpl. rewrite !length_app.
      simpl. lia. }
    destruct (MAX_ITERATION <? n_iter).
    { intros [= <-]. exists n_color. rewrite (Hsz _ eq_refl). lia. }
    intros (n' & Hn' & Hle & Hor)%IH. exists n'.
    rewrite Hn', (Hsz _ eq_refl). done.
Qed.

(** The palette has an entry, at most [max_color + 1] entries, and at most
    [max_color] entries from the palette size 4 on. *)
Lemma quantize_palette_size pixels max_color cmap :
  quantize pixels max_color = Ok cmap →
  1 ≤ CMap.size cmap ≤ max_color + 1
  ∧ (4 ≤ max_color → CMap.size cmap ≤ max_color).
Proof.
  intros Hq.
  assert (1 ≤ CMap.size cmap) as Hpos.
  { pose proof Hq as (Hne & HN & _)%quantize_inv.
    destruct (quantize_ok pixels max_color Hne HN) as (c & Hc & Hc').
    rewrite Hq in Hc. injection Hc as <-.
    unfold CMap.size, PQueue.size.
    destruct (PQueue.contents (CMap.vboxes cmap)); [done|simpl; lia]. }
  apply quantize_inv in Hq as (_ & HN & pq & pq2 & H1 & H2 & ->).
  cbn zeta in H1, H2.
  apply iter_loop_size in H1 as (n1 & Hs1 & Hn1 & Hor1).
  apply iter_loop_size in H2 as (n2 & Hs2 & Hn2 & Hor2).
  assert (PQueue.size (foldl PQueue.push
            (PQueue.new (λ x, VBox.count x * VBox.volume x))
            (reverse (ordered pq))) = PQueue.size pq) as Hs0.
  { unfold PQueue.size. rewrite foldl_push_contents. simpl.
    by rewrite length_reverse, ordered_length. }
  rewrite Hs0 in Hs2, Hor2.
  assert (CMap.size (foldl CMap.push CMap.new (reverse (ordered pq2)))
          = PQueue.size pq2) as ->.
  { unfold CMap.size, PQueue.size. rewrite foldl_cmap_push_contents. simpl.
    by rewrite length_fmap, length_reverse, ordered_length. }
  change (PQueue.size (PQueue.push (PQueue.new VBox.count) _)) with 1 in Hs1.
  assert (n1 ≤ 2 ∨ 4 * (n1 - 1) < 3 * max_color) as Hb1.
  { destruct Hor1 as [?|Hor1]; [left; lia|right].
    apply Z.nle_gt. intros Hle. apply Hor1.
    unfold Qle, FRACT_BY_POPULATIONS. simpl. lia. }
  assert (n2 ≤ 2 ∨ n2 - 1 < max_color - PQueue.size pq) as Hb2.
  { destruct Hor2 as [?|Hor2]; [left; lia|right].
    apply Z.nle_gt. intros Hle. apply Hor2.
    unfold Qle. simpl. lia. }
  lia.
Qed.
End SizeFacts.

(** ** Failures of the quantizer *)

Section RaiseFacts.
Import MMCQ.

Lemma skip_empty_raises fuel ps d e : skip_empty fuel ps d ≠ Raise e.
Proof.
  revert d. induction fuel as [|fuel IH]; intros d; simpl;
    destruct (truthy (ps !! d)); first [done|apply IH].
Qed.

Lemma back_off_raises fuel ps la d c e : back_off fuel ps la d c ≠ Raise e.
Proof.
  revert d c. induction fuel as [|fuel IH]; intros d c; simpl;
    destruct (negb (truthy c) && truthy (ps !! (d - 1)));
    first [done|apply IH].
Qed.

Lemma cut_raises v a ps la i e : cut v a ps la i ≠ Raise e.
Proof.
  unfold cut.
  destruct (skip_empty _ _ _) as [d|e'|] eqn:Hskip; simpl; try done.
  - destruct (back_off _ _ _ _ _) as [d'|e'|] eqn:Hback; simpl; try done.
    by apply back_off_raises in Hback.
  - by apply skip_empty_raises in Hskip.
Qed.

Lemma cut_scan_raises v a total ps la idxs e :
  cut_scan v a total ps la idxs = Raise e → e = KeyError.
Proof.
  induction idxs as [|i idxs IH]; simpl; [done|].
  destruct (ps !! i) as [p|]; [|by intros [= <-]].
  destruct (total <? 2 * p); [|done].
  intros H. by apply cut_raises in H.
Qed.

Lemma median_cut_apply_raises histo v e :
  median_cut_apply histo v = Raise e → e = KeyError.
Proof.
  unfold median_cut_apply.
  destruct (VBox.count v =? 0); [done|].
  destruct (VBox.count v =? 1); [done|].
  destruct (partial_sums _ _ _) as [total ps].
  apply cut_scan_raises.
Qed.

Lemma iter_loop_raises fuel histo target lh n_color n_iter e :
  iter_loop fuel histo target lh n_color n_iter = Raise e → internal_exn e.
Proof.
  revert lh n_color n_iter. induction fuel as [|fuel IH];
    intros lh n_color n_iter; simpl; [done|].
  destruct (n_iter <? MAX_ITERATION); [|done].
  destruct (PQueue.pop lh) as [[v lh1]|e'|] eqn:Hpop; simpl; try done.
  - destruct (VBox.count v =? 0); [apply IH|].
    destruct (median_cut_apply histo v) as [[[v1|] o2]|e'|] eqn:Hcut;
      simpl; try done.
    + destruct o2 as [v2|]; simpl;
        (destruct (Qle_bool _ _); [done|]);
        (destruct (MAX_ITERATION <? n_iter); [done|]); apply IH.
    + intros [= <-]. right. by right.
    + intros [= <-]. apply median_cut_apply_raises in Hcut as ->.
      right. by left.
  - intros [= <-]. apply pop_raises in Hpop as ->. by left.
Qed.

Lemma quantize_raises pixels max_color e :
  quantize pixels max_color = Raise e →
  (pixels = [] ∧ e = EmptyInput)
  ∨ (pixels ≠ [] ∧ (max_color < 2 ∨ 256 < max_color) ∧ e = InvalidArgument)
  ∨ (pixels ≠ [] ∧ 2 ≤ max_color ≤ 256 ∧ internal_exn e).
Proof.
  unfold quantize. case_bool_decide as Hne; [intros [= <-]; by left|].
  destruct (Z.ltb_spec max_color 2); simpl.
  { intros [= <-]. right. left. auto. }
  destruct (Z.ltb_spec 256 max_color); simpl.
  { intros [= <-]. right. left. auto. }
  intros Hq. right. right. split; [done|]. split; [lia|].
  revert Hq.
  destruct (iter_ _ _ _) as [pq|e'|] eqn:H1; simpl; try done.
  - rewrite refill_spec by done. simpl.
    destruct (iter_ _ _ (inject_Z _)) as [pq2|e'|] eqn:H2; simpl; try done.
    + by rewrite drain_spec.
    + intros [= <-]. by apply iter_loop_raises in H2.
  - intros [= <-]. by apply iter_loop_raises in H1.
Qed.
End RaiseFacts.

(** C5.  [quantize] raises EmptyInput exactly on the empty pixel list, and
    InvalidArgument exactly on a non-empty list with a palette size outside
    2..256 (so for the sizes 1 and 257); in both cases no colour map is
    returned, and in every other case one is. *)
Theorem quantize_failures pixels max_color :
  (MMCQ.quantize pixels max_color = Raise EmptyInput ↔ pixels = [])
  ∧ (MMCQ.quantize pixels max_color = Raise InvalidArgument
     ↔ pixels ≠ [] ∧ (max_color < 2 ∨ 256 < max_color))
  ∧ (pixels ≠ [] → MMCQ.quantize pixels 1 = Raise InvalidArgument
                   ∧ MMCQ.quantize pixels 257 = Raise InvalidArgument)
  ∧ (is_ok (MMCQ.quantize pixels max_color) = false
     ↔ pixels = [] ∨ max_color < 2 ∨ 256 < max_color).
Proof.
  assert (∀ N, pixels = [] → MMCQ.quantize pixels N = Raise EmptyInput) as Hempty.
  { intros N ->. done. }
  assert (∀ N, pixels ≠ [] → N < 2 ∨ 256 < N →
               MMCQ.quantize pixels N = Raise InvalidArgument) as Hinv.
  { intros N Hne HN. unfold MMCQ.quantize.
    rewrite bool_decide_eq_false_2 by done.
    destruct (Z.ltb_spec N 2); [done|].
    destruct (Z.ltb_spec 256 N); [done|]. lia. }
  split; [|split; [|split]].
  - split; [|apply Hempty].
    intros [(? & _)|[(_ & _ & [=])|(_ & _ & [[=]|[[=]|[=]]])]]%quantize_raises.
    done.
  - split; [|intros []; by apply Hinv].
    intros [(_ & [=])|[(? & ? & _)|(_ & _ & [[=]|[[=]|[=]]])]]%quantize_raises.
    done.
  - intros Hne. split; apply Hinv; auto; lia.
  - split.
    + intros Hfail. destruct (decide (pixels = [])) as [|Hne]; [by left|].
      destruct (Z.lt_ge_cases max_color 2); [auto|].
      destruct (Z.lt_ge_cases 256 max_color); [auto|]. exfalso.
      destruct (quantize_ok pixels max_color Hne ltac:(lia)) as (c & Hc & _).
      by rewrite Hc in Hfail.
    + intros H. destruct (decide (pixels = [])) as [He|Hne].
      * by rewrite Hempty.
      * rewrite Hinv; [done|done|]. destruct H as [?|?]; [done|lia].
Qed.

(** ** Determinism and stable ties *)

Section SortIndependence.
Variable list_sort : ∀ A : Type, (A → Z) → list A → list A.
Hypothesis list_sort_stable_sort : stable_sort list_sort.

Lemma stable_sort_unique {A} (key : A → Z) l :
  list_sort A key l = PQueue.list_sort key l.
Proof.
  destruct (list_sort_stable_sort A key l) as [Hs Hcl].
  by apply sort_stable_unique.
Qed.

Lemma with_sort_pop {A} (q : PQueue.t A) :
  WithSort.pop list_sort q = PQueue.pop q.
Proof.
  unfold WithSort.pop, PQueue.pop, WithSort.sort, PQueue.sort.
  by rewrite stable_sort_unique.
Qed.

Lemma with_sort_peek {A} (q : PQueue.t A) index :
  WithSort.peek list_sort q index = PQueue.peek q index.
Proof.
  unfold WithSort.peek, PQueue.peek, WithSort.sort, PQueue.sort.
  by rewrite stable_sort_unique.
Qed.

Lemma with_sort_iter_loop fuel histo target lh n_color n_iter :
  WithSort.iter_loop list_sort fuel histo target lh n_color n_iter
  = MMCQ.iter_loop fuel histo target lh n_color n_iter.
Proof.
  revert lh n_color n_iter.
  induction fuel as [|fuel IH]; intros lh n_color n_iter; [done|].
  cbn [WithSort.iter_loop MMCQ.iter_loop]. rewrite with_sort_pop.
  destruct (n_iter <? MAX_ITERATION); [|done].
  destruct (PQueue.pop lh) as [[vbox lh']| |]; cbn [mbind result_bind];
    try done.
  destruct (VBox.count vbox =? 0); [apply IH|].
  destruct (MMCQ.median_cut_apply histo vbox) as [[vbox1 vbox2]| |];
    cbn [mbind result_bind]; try done.
  destruct vbox1 as [vbox1|]; [|done].
  destruct vbox2 as [vbox2|]; destruct (Qle_bool _ _); try done;
    destruct (MAX_ITERATION <? n_iter); try done; apply IH.
Qed.

Lemma with_sort_iter_ histo lh target :
  WithSort.iter_ list_sort histo lh target = MMCQ.iter_ histo lh target.
Proof. apply with_sort_iter_loop. Qed.

Lemma with_sort_refill fuel pq pq2 :
  WithSort.refill list_sort fuel pq pq2 = MMCQ.refill fuel pq pq2.
Proof.
  revert pq pq2. induction fuel as [|fuel IH]; intros pq pq2; [done|].
  cbn [WithSort.refill MMCQ.refill]. rewrite with_sort_pop.
  destruct (PQueue.size pq =? 0); [done|].
  destruct (PQueue.pop pq) as [[v pq']| |]; cbn [mbind result_bind];
    try done; apply IH.
Qed.

Lemma with_sort_drain fuel pq2 cmap :
  WithSort.drain list_sort fuel pq2 cmap = MMCQ.drain fuel pq2 cmap.
Proof.
  revert pq2 cmap. induction fuel as [|fuel IH]; intros pq2 cmap; [done|].
  cbn [WithSort.drain MMCQ.drain]. rewrite with_sort_pop.
  destruct (PQueue.size pq2 =? 0); [done|].
  destruct (PQueue.pop pq2) as [[v pq']| |]; cbn [mbind result_bind];
    try done; apply IH.
Qed.

(** With a stable sort the quantizer returns what it returns with the
    insertion sort of the embedding. *)
Lemma with_sort_quantize pixels max_color :
  WithSort.quantize list_sort pixels max_color
  = MMCQ.quantize pixels max_color.
Proof.
  unfold WithSort.quantize, MMCQ.quantize.
  destruct (bool_decide _); [reflexivity|].
  destruct (_ || _); [reflexivity|].
  cbv zeta. rewrite with_sort_iter_.
  destruct (MMCQ.iter_ _ _ _) as [pq| |]; cbn [mbind result_bind];
    [|reflexivity..].
  rewrite with_sort_refill.
  destruct (MMCQ.refill _ _ _) as [pq2| |]; cbn [mbind result_bind];
    [|reflexivity..].
  rewrite with_sort_iter_.
  destruct (MMCQ.iter_ _ _ _) as [pq3| |]; cbn [mbind result_bind];
    [|reflexivity..].
  apply with_sort_drain.
Qed.
End SortIndependence.

(** The insertion sort of the embedding and the insertion from the left
    are stable sorts. *)
Lemma list_sort_stable_sort : stable_sort (@PQueue.list_sort).
Proof.
  intros A key l. split; [apply list_sort_sorted|].
  intros k. apply list_sort_stable.
Qed.

Section InsertLastFacts.
Context {A : Type} (key : A → Z).

Lemma insert_last_sorted x l :
  StronglySorted (key_le key) l →
  StronglySorted (key_le key) (WithSort.insert_last key x l).
Proof.
  induction 1 as [|y l Hs IH Hy]; simpl; [repeat constructor|].
  destruct (Z.ltb_spec (key x) (key y)) as [Hlt|Hge].
  - constructor; [by constructor|]. constructor; [unfold key_le; lia|].
    eapply Forall_impl; [exact Hy|]. unfold key_le. intros z Hz. lia.
  - constructor; [done|].
    assert (∀ l', Forall (key_le key y) l' →
                  Forall (key_le key y) (WithSort.insert_last key x l'))
      as Hins.
    { induction l' as [|z l' IH']; intros Hl'; simpl.
      - constructor; [unfold key_le; lia|constructor].
      - apply Forall_cons in Hl' as [Hz Hl'].
        destruct (key x <? key z).
        + constructor; [unfold key_le; lia|]. by constructor.
        + constructor; [done|]. by apply IH'. }
    by apply Hins.
Qed.

Lemma insert_last_stable k x l :
  StronglySorted (key_le key) l →
  filter (λ y, key y = k) (WithSort.insert_last key x l)
  = filter (λ y, key y = k) (l ++ [x]).
Proof.
  induction 1 as [|y l Hs IH Hy]; simpl; [done|].
  destruct (Z.ltb_spec (key x) (key y)) as [Hlt|Hge].
  - rewrite !filter_cons, filter_app, filter_cons, filter_nil.
    assert (Forall (λ z, key x < key z) l) as Hl.
    { eapply Forall_impl; [exact Hy|]. unfold key_le. intros z Hz. lia. }
    destruct (decide (key x = k)) as [Hx|Hx].
    + assert (filter (λ y0, key y0 = k) l = []) as ->.
      { clear -Hl Hx. induction Hl as [|z l Hz Hl IHl]; [done|].
        rewrite filter_cons, decide_False by lia. done. }
      destruct (decide (key y = k)); [lia|done].
    + by rewrite app_nil_r.
  - by rewrite !filter_cons, IH.
Qed.

Lemma sort_from_left_spec l :
  StronglySorted (key_le key) (WithSort.sort_from_left key l)
  ∧ ∀ k, filter (λ x, key x = k) (WithSort.sort_from_left key l)
         = filter (λ x, key x = k) l.
Proof.
  unfold WithSort.sort_from_left.
  induction l as [|x l IH] using rev_ind; [split; [constructor|done]|].
  rewrite foldl_app. simpl. destruct IH as [Hs Hcl]. split.
  - by apply insert_last_sorted.
  - intros k. rewrite insert_last_stable by done.
    by rewrite !filter_app, Hcl.
Qed.
End InsertLastFacts.

Lemma sort_from_left_stable_sort :
  stable_sort (λ A, @WithSort.sort_from_left A).
Proof. intros A key l. apply sort_from_left_spec. Qed.

(** C8.  Two runs of the quantizer on the same pixels and the same palette
    size return the same colour map, hence the same palette and the same
    distribution, whatever sorts the two runs use for the queues, as long
    as both are stable: ascending by key, elements of equal key in
    insertion order.  The run of the embedding is one of them. *)
Theorem quantize_deterministic sort1 sort2 pixels pixels' max_color max_color' :
  stable_sort sort1 → stable_sort sort2 →
  pixels = pixels' → max_color = max_color' →
  let run1 := WithSort.quantize sort1 pixels max_color in
  let run2 := WithSort.quantize sort2 pixels' max_color' in
  run1 = run2
  ∧ CMap.palette <$> run1 = CMap.palette <$> run2
  ∧ (run1 ≫= CMap.palette_distribution) = (run2 ≫= CMap.palette_distribution)
  ∧ run1 = MMCQ.quantize pixels max_color
  ∧ (∀ (q : PQueue.t VBox.t),
       WithSort.pop sort1 q = WithSort.pop sort2 q
       ∧ ∀ index, WithSort.peek sort1 q index = WithSort.peek sort2 q index).
Proof.
  intros H1 H2 <- <- run1 run2.
  assert (run1 = run2) as Hrun.
  { unfold run1, run2. by rewrite !with_sort_quantize. }
  split; [done|]. rewrite <- Hrun. split; [done|]. split; [done|].
  split; [by apply with_sort_quantize|].
  intros q. split; [by rewrite !with_sort_pop|].
  intros index. by rewrite !with_sort_peek.
Qed.

Lemma quantize_deterministic_witness :
  let pixels := [(0, 0, 0); (8, 0, 0); (16, 8, 0); (24, 8, 0)] in
  let run1 := WithSort.quantize (@PQueue.list_sort) pixels 4 in
  let run2 := WithSort.quantize (λ A, @WithSort.sort_from_left A) pixels 4 in
  run1 = run2
  ∧ CMap.palette <$> run1 = CMap.palette <$> run2
  ∧ (run1 ≫= CMap.palette_distribution) = (run2 ≫= CMap.palette_distribution)
  ∧ run1 = MMCQ.quantize pixels 4
  ∧ (∀ (q : PQueue.t VBox.t),
       WithSort.pop (@PQueue.list_sort) q
       = WithSort.pop (λ A, @WithSort.sort_from_left A) q
       ∧ ∀ index, WithSort.peek (@PQueue.list_sort) q index
                  = WithSort.peek (λ A, @WithSort.sort_from_left A) q index).
Proof.
  intros pixels.
  apply (quantize_deterministic (@PQueue.list_sort)
           (λ A, @WithSort.sort_from_left A) pixels pixels 4 4).
  - apply list_sort_stable_sort.
  - apply sort_from_left_stable_sort.
  - reflexivity.
  - reflexivity.
Defined.

(** ** Filtering in front of the quantizer *)

Section FilterFacts.
Import ColorThief.




(** With both exclusions set the [elif] chain keeps every opaque pixel: a
    near-white pixel passes the test for [no_black], a near-black one the
    test for [no_white]. *)
Lemma keeps_both_exclusions r g b a :
  alpha_threshold ≤ a → keeps true true (r, g, b, a) = true.
Proof.
  intros Ha. unfold keeps, is_white, is_black, white_threshold, black_threshold.
  destruct (Z.leb_spec alpha_threshold a); [|lia].
  destruct (Z.ltb_spec 240 r), (Z.ltb_spec r 15); try lia;
    by repeat match goal with
              | |- context [Z.ltb ?x ?y] => destruct (Z.ltb x y)
              end.
Qed.

Lemma range_step_bounds stop step :
  0 ≤ stop → step ≠ 0 →
  ∃ idxs, range_step 0 stop step = Ok idxs ∧ ∀ i, i ∈ idxs → 0 ≤ i < stop.
Proof.
  intros Hstop Hstep. unfold range_step.
  destruct (Z.eqb_spec step 0); [done|].
  eexists. split; [done|]. intros i (k & -> & Hk)%list_elem_of_fmap.
  apply elem_of_seq in Hk. destruct (Z.ltb_spec 0 step) as [Hpos|Hneg].
  - assert (Z.of_nat k < (stop - 0 + step - 1) / step) as Hlt by lia.
    assert (Z.of_nat k + 1 ≤ (stop - 0 + step - 1) / step) as Hle by lia.
    apply (Z.mul_le_mono_nonneg_l _ _ step) in Hle; [|lia].
    pose proof (Z.mul_div_le (stop - 0 + step - 1) step ltac:(lia)). lia.
  - assert ((0 - stop - step - 1) / - step ≤ 0); [|lia].
    apply Z.lt_succ_r. apply Z.div_lt_upper_bound; lia.
Qed.



(** Without a valid pixel the quantizer is not called. *)
Lemma get_palette_no_valid_pixels quantize self color_count quality
    no_white no_black dist :
  valid_pixels self quality no_white no_black = Ok [] →
  get_palette_with quantize self color_count quality no_white no_black dist
  = Ok (Colors [default_color self], self).
Proof. intros H. unfold get_palette_with. by rewrite H. Qed.
End FilterFacts.




(** ** Lookups reorder the colour map *)

Section LookupFacts.

Lemma settle_idem {A} (q : PQueue.t A) : settle (settle q) = settle q.
Proof. done. Qed.

Lemma size_settle {A} (q : PQueue.t A) : PQueue.size (settle q) = PQueue.size q.
Proof. unfold PQueue.size. simpl. by rewrite ordered_length. Qed.

Lemma after_reads_settle {A} idxs (q : PQueue.t A) :
  after_reads idxs (settle q) = settle q.
Proof. by destruct idxs. Qed.

Lemma peek_lookup {A} (q : PQueue.t A) i :
  0 ≤ i < PQueue.size q →
  ∃ x, ordered q !! Z.to_nat i = Some x
       ∧ PQueue.peek q (Some i) = Ok (x, settle q).
Proof.
  intros Hi. unfold PQueue.peek, PQueue.size in *.
  set (q0 := if PQueue._sorted q then q else PQueue.sort q).
  assert (q0 = settle q) as ->.
  { unfold q0, settle, ordered. by destruct q as [? ? [|]]. }
  simpl. destruct (getitem_ok (ordered q) i) as (x & Hx & ->).
  { by rewrite ordered_length. }
  by exists x.
Qed.

Lemma ordered_settle {A} (q : PQueue.t A) : ordered (settle q) = ordered q.
Proof. done. Qed.

(** Squares of floats, their sums and the roots of the sums are numbers
    that are not below zero. *)
Lemma shr_1_nonneg mrs :
  0 ≤ SpecFloat.shr_m mrs → 0 ≤ SpecFloat.shr_m (SpecFloat.shr_1 mrs).
Proof.
  destruct mrs as [m r s]. destruct m as [|[p|p|]|[p|p|]]; simpl; lia.
Qed.

Lemma iter_pos_shr_1_nonneg p mrs :
  0 ≤ SpecFloat.shr_m mrs →
  0 ≤ SpecFloat.shr_m (SpecFloat.iter_pos SpecFloat.shr_1 p mrs).
Proof.
  revert mrs. induction p as [p IH|p IH|]; intros mrs Hm; simpl.
  - by apply IH, IH, shr_1_nonneg.
  - by apply IH, IH.
  - by apply shr_1_nonneg.
Qed.

Lemma shr_fexp_nonneg m e l :
  0 ≤ m →
  0 ≤ SpecFloat.shr_m (SpecFloat.shr_fexp Float64.prec Float64.emax m e l).1.
Proof.
  intros Hm. unfold SpecFloat.shr_fexp, SpecFloat.shr.
  assert (0 ≤ SpecFloat.shr_m (SpecFloat.shr_record_of_loc m l)) as Hr
    by (by destruct l as [|[| |]]).
  destruct (_ - e) as [|p|p]; cbn [fst]; [done| |done].
  by apply iter_pos_shr_1_nonneg.
Qed.

Lemma round_nearest_even_nonneg m l :
  0 ≤ m → 0 ≤ SpecFloat.round_nearest_even m l.
Proof.
  intros Hm. destruct l as [|[| |]]; simpl; try lia.
  destruct (Z.even m); lia.
Qed.

Lemma binary_round_aux_sign s m e l :
  0 ≤ m →
  has_sign s (SpecFloat.binary_round_aux Float64.prec Float64.emax s m e l)
  = true.
Proof.
  intros Hm. unfold SpecFloat.binary_round_aux.
  pose proof (shr_fexp_nonneg m e l Hm) as H1.
  destruct (SpecFloat.shr_fexp _ _ m e l) as [mrs' e']. cbn [fst] in H1.
  pose proof (shr_fexp_nonneg _ e' SpecFloat.loc_Exact
                (round_nearest_even_nonneg _
                   (SpecFloat.loc_of_shr_record mrs') H1)) as H2.
  destruct (SpecFloat.shr_fexp _ _ _ e' _) as [mrs'' e'']. cbn [fst] in H2.
  destruct (SpecFloat.shr_m mrs'') as [|p|p]; [|destruct (_ <=? _)|lia];
    by destruct s.
Qed.

Lemma binary_round_sign s m e :
  has_sign s (SpecFloat.binary_round Float64.prec Float64.emax s m e) = true.
Proof.
  unfold SpecFloat.binary_round.
  destruct (SpecFloat.shl_align _ _ _) as [mz ez].
  by apply binary_round_aux_sign.
Qed.

Lemma pow_2_not_negative n y :
  Float64.pow_2 n = Ok y → not_negative y = true.
Proof.
  unfold Float64.pow_2, Float64.of_int.
  assert (∃ s, has_sign s (SpecFloat.binary_normalize Float64.prec
                             Float64.emax n 0 false) = true) as [s Hs].
  { destruct n as [|p|p]; [by exists false| |]; eexists;
      apply binary_round_sign. }
  destruct (SpecFloat.binary_normalize _ _ _ _ _) as [s'|s'| |s' m e];
    cbn [mbind result_bind]; try done.
  - intros [= <-]. by destruct s'.
  - pose proof (binary_round_aux_sign false (Z.pos (m * m)) (e + e)
                  SpecFloat.loc_Exact ltac:(lia)) as Hnn.
    unfold SpecFloat.SFmul. rewrite xorb_nilpotent.
    destruct (SpecFloat.binary_round_aux _ _ _ _ _ _) as [s''|s''| |s'' m' e'];
      try done; by intros [= <-].
Qed.

Lemma add_not_negative x y :
  not_negative x = true → not_negative y = true →
  not_negative (Float64.add x y) = true.
Proof.
  destruct x as [[|]|[|]| |[|] mx ex], y as [[|]|[|]| |[|] my ey];
    try done; intros _ _.
  unfold Float64.add, SpecFloat.SFadd, SpecFloat.cond_Zopp.
  cbn [Z.add SpecFloat.binary_normalize].
  apply binary_round_sign.
Qed.

Lemma sqrt_not_negative x :
  not_negative x = true →
  ∃ y, Float64.sqrt x = Ok y ∧ not_negative y = true.
Proof.
  destruct x as [[|]|[|]| |[|] m e]; try done; intros _;
    [by eexists..|].
  eexists. split; [done|]. unfold SpecFloat.SFsqrt.
  destruct (SpecFloat.SFsqrt_core_binary _ _ _ _) as [[mz ez] lz] eqn:Hcore.
  apply binary_round_aux_sign.
  unfold SpecFloat.SFsqrt_core_binary in Hcore.
  set (m' := match _ - _ with Z.pos _ => _ | _ => _ end) in Hcore.
  assert (0 ≤ m') as Hm'.
  { unfold m'. destruct (_ - _); [lia| |lia]. by apply Z.shiftl_nonneg. }
  pose proof (Z.sqrtrem_spec m' Hm') as Hsq.
  destruct (Z.sqrtrem m') as [q r]. injection Hcore as <- _ _. lia.
Qed.

(** The distance is a number, not below zero, as soon as the three squares
    are computed. *)
Lemma dist_not_negative a b d :
  CMap.dist a b = Ok d → not_negative d = true.
Proof.
  destruct a as [[a0 a1] a2], b as [[c0 c1] c2]. unfold CMap.dist.
  destruct (Float64.pow_2 (a0 - c0)) as [p0| |] eqn:H0; try done.
  destruct (Float64.pow_2 (a1 - c1)) as [p1| |] eqn:H1; try done.
  destruct (Float64.pow_2 (a2 - c2)) as [p2| |] eqn:H2; try done.
  cbn [mbind result_bind]. intros Hd.
  apply pow_2_not_negative in H0, H1, H2.
  destruct (sqrt_not_negative (Float64.add (Float64.add p0 p1) p2))
    as (y & Hy & Hnn); [by repeat apply add_not_negative|].
  congruence.
Qed.

Lemma nearest_loop_ok idxs q color0 d1 p_color :
  (∀ i, i ∈ idxs → 0 ≤ i < PQueue.size q) →
  dist_defined color0 (PQueue.contents q) →
  ∃ p, CMap.nearest_loop idxs q color0 d1 p_color
       = Ok (p, after_reads idxs q).
Proof.
  revert q d1 p_color. induction idxs as [|i idxs IH];
    intros q d1 p_color Hin Hdist; [by eexists|].
  assert (∀ j, j ∈ idxs → 0 ≤ j < PQueue.size (settle q)) as Hin'.
  { intros j Hj. rewrite size_settle. apply Hin. by right. }
  assert (dist_defined color0 (PQueue.contents (settle q))) as Hdist'.
  { intros e He. apply Hdist. by rewrite <- (ordered_perm q). }
  unfold CMap.nearest_loop; fold CMap.nearest_loop.
  destruct (peek_lookup q i) as (x & Hx & ->); [apply Hin; by left|].
  unfold after_reads. cbn [mbind result_bind].
  destruct (Hdist x) as [d ->].
  { rewrite <- (ordered_perm q). by eapply list_elem_of_lookup_2. }
  cbn [mbind result_bind].
  destruct (match d1 with Some d' => _ | None => true end).
  - destruct (IH (settle q) (Some d) (Some (CMap.color x)) Hin' Hdist')
      as [p ->].
    exists p. by rewrite after_reads_settle.
  - destruct (IH (settle q) d1 p_color Hin' Hdist') as [p ->].
    exists p. by rewrite after_reads_settle.
Qed.

Lemma map_loop_ok idxs q color0 :
  (∀ i, i ∈ idxs → 0 ≤ i < PQueue.size q) →
  ∃ found, CMap.map_loop idxs q color0 = Ok (found, after_reads idxs q).
Proof.
  revert q. induction idxs as [|i idxs IH]; intros q Hin.
  { by exists None. }
  assert (∀ j, j ∈ idxs → 0 ≤ j < PQueue.size (settle q)) as Hin'.
  { intros j Hj. rewrite size_settle. apply Hin. by right. }
  unfold CMap.map_loop; fold CMap.map_loop.
  destruct (peek_ok q i) as [x ->]; [apply Hin; by left|].
  fold (settle q). unfold after_reads. cbn [mbind result_bind].
  destruct (VBox.contains _ _); [by eexists|].
  destruct (IH (settle q) Hin') as [found ->].
  exists found. by rewrite after_reads_settle.
Qed.

Lemma range_size {A} (q : PQueue.t A) i :
  i ∈ range 0 (PQueue.size q) → 0 ≤ i < PQueue.size q.
Proof. unfold range. rewrite elem_of_seqZ. lia. Qed.

Lemma after_reads_contents {A} (q : PQueue.t A) :
  PQueue.contents (after_reads (range 0 (PQueue.size q)) q) = ordered q.
Proof.
  unfold range, PQueue.size.
  destruct (PQueue.contents q) as [|x l] eqn:Hl.
  - assert (ordered q = []) as ->
      by (apply length_zero_iff_nil; by rewrite ordered_length, Hl).
    by rewrite seqZ_nil by (simpl; lia).
  - rewrite seqZ_cons by (simpl; lia). by unfold after_reads.
Qed.

Lemma ordered_after_reads {A} idxs (q : PQueue.t A) :
  ordered (after_reads idxs q) = ordered q.
Proof. by destruct idxs. Qed.

Lemma after_reads_key {A} idxs (q : PQueue.t A) :
  PQueue.sort_key (after_reads idxs q) = PQueue.sort_key q.
Proof. by destruct idxs. Qed.

Lemma after_reads_perm {A} idxs (q : PQueue.t A) :
  PQueue.contents (after_reads idxs q) ≡ₚ PQueue.contents q.
Proof. destruct idxs; [done|]. apply ordered_perm. Qed.

(** [nearest] returns when the distances are defined, and leaves the ordered
    contents behind. *)
Lemma nearest_ok c color0 :
  dist_defined color0 (PQueue.contents (CMap.vboxes c)) →
  ∃ p c', CMap.nearest c color0 = Ok (p, c')
          ∧ PQueue.contents (CMap.vboxes c') = ordered (CMap.vboxes c).
Proof.
  intros Hdist. unfold CMap.nearest.
  destruct (nearest_loop_ok (range 0 (PQueue.size (CMap.vboxes c)))
              (CMap.vboxes c) color0 None None) as [p ->];
    [apply range_size|done|].
  simpl. eexists _, _. split; [done|]. simpl. apply after_reads_contents.
Qed.

(** [map] returns when the distances are defined, and leaves the ordered
    contents behind. *)
Lemma map_ok c color0 :
  dist_defined color0 (PQueue.contents (CMap.vboxes c)) →
  ∃ p c', CMap.map c color0 = Ok (p, c')
          ∧ PQueue.contents (CMap.vboxes c') = ordered (CMap.vboxes c).
Proof.
  intros Hdist. unfold CMap.map.
  destruct (map_loop_ok (range 0 (PQueue.size (CMap.vboxes c)))
              (CMap.vboxes c) color0) as [found ->]; [apply range_size|].
  cbn [mbind result_bind]. destruct found as [col|].
  - eexists _, _. split; [done|]. cbn [CMap.vboxes].
    apply after_reads_contents.
  - destruct (nearest_ok
                (CMap.mk (after_reads (range 0 (PQueue.size (CMap.vboxes c)))
                                      (CMap.vboxes c))) color0)
      as (p & c' & -> & Hc').
    { intros e He. apply Hdist. cbn [CMap.vboxes] in He.
      by rewrite after_reads_perm in He. }
    eexists _, _. split; [done|]. rewrite Hc'. cbn [CMap.vboxes].
    apply ordered_after_reads.
Qed.

(** A lookup that returns leaves the ordered contents behind. *)
Lemma nearest_loop_state idxs q color0 d1 p_color p q' :
  (∀ i, i ∈ idxs → 0 ≤ i < PQueue.size q) →
  CMap.nearest_loop idxs q color0 d1 p_color = Ok (p, q') →
  q' = after_reads idxs q.
Proof.
  revert q d1 p_color. induction idxs as [|i idxs IH];
    intros q d1 p_color Hin; [by intros [= _ <-]|].
  assert (∀ j, j ∈ idxs → 0 ≤ j < PQueue.size (settle q)) as Hin'.
  { intros j Hj. rewrite size_settle. apply Hin. by right. }
  unfold CMap.nearest_loop; fold CMap.nearest_loop.
  destruct (peek_lookup q i) as (x & Hx & ->); [apply Hin; by left|].
  unfold after_reads. cbn [mbind result_bind].
  destruct (CMap.dist color0 (CMap.color x)) as [d| |]; try done.
  cbn [mbind result_bind].
  destruct (match d1 with Some d' => _ | None => true end);
    intros ->%IH; try done; by rewrite after_reads_settle.
Qed.

Lemma nearest_state c color0 p c' :
  CMap.nearest c color0 = Ok (p, c') →
  PQueue.contents (CMap.vboxes c') = ordered (CMap.vboxes c).
Proof.
  unfold CMap.nearest.
  destruct (CMap.nearest_loop _ _ _ _ _) as [[p' q']| |] eqn:Hloop; try done.
  apply nearest_loop_state in Hloop as ->; [|apply range_size].
  cbn [mbind result_bind]. intros [= _ <-]. apply after_reads_contents.
Qed.

Lemma map_state c color0 p c' :
  CMap.map c color0 = Ok (p, c') →
  PQueue.contents (CMap.vboxes c') = ordered (CMap.vboxes c).
Proof.
  unfold CMap.map.
  destruct (map_loop_ok (range 0 (PQueue.size (CMap.vboxes c)))
              (CMap.vboxes c) color0) as [found ->]; [apply range_size|].
  cbn [mbind result_bind]. destruct found as [col|].
  - intros [= _ <-]. apply after_reads_contents.
  - intros ->%nearest_state. cbn [CMap.vboxes]. apply ordered_after_reads.
Qed.

(** The colour map of a successful call is stale and holds its entries in
    the order of the final drain. *)
Lemma quantize_cmap pixels max_color cmap :
  MMCQ.quantize pixels max_color = Ok cmap →
  PQueue.sort_key (CMap.vboxes cmap) = cmap_key
  ∧ PQueue._sorted (CMap.vboxes cmap) = false
  ∧ StronglySorted (flip (key_le cmap_key)) (PQueue.contents (CMap.vboxes cmap)).
Proof.
  intros (_ & _ & pq & pq2 & H1 & H2 & ->)%quantize_inv. simpl in *.
  rewrite foldl_cmap_push_key, foldl_cmap_push_contents.
  split; [done|]. split; [by apply foldl_cmap_push_sorted|]. simpl.
  apply iter_loop_wf in H2 as [Hwf Hkey]; [|apply wf_foldl_push, wf_new].
  rewrite foldl_push_key in Hkey. simpl in Hkey.
  apply ordered_sorted in Hwf. rewrite Hkey in Hwf.
  apply (StronglySorted_fmap entry_of
           (flip (key_le (λ x, VBox.count x * VBox.volume x)))); [done|].
  apply Sorted_StronglySorted.
  { intros x y z. unfold flip, key_le. lia. }
  by apply Sorted_reverse, StronglySorted_Sorted.
Qed.
End LookupFacts.

(** ** Average colours *)

Section AverageFacts.

Lemma foldl_quad {A} (step : Z * Z * Z * Z → A → Z * Z * Z * Z)
    (fa fr fg fb : A → Z) :
  (∀ a r g b c, step (a, r, g, b) c = (a + fa c, r + fr c, g + fg c, b + fb c)) →
  ∀ l a r g b,
    foldl step (a, r, g, b) l
    = (a + Zsum_with fa l, r + Zsum_with fr l,
       g + Zsum_with fg l, b + Zsum_with fb l).
Proof.
  intros Hstep. induction l as [|c l IH]; intros a r g b; simpl.
  - f_equal; [f_equal; [f_equal|]|]; lia.
  - rewrite Hstep, IH. f_equal; [f_equal; [f_equal|]|]; lia.
Qed.

(** A weighted sum lies between the extreme weights times the plain sum. *)
Lemma Zsum_with_weighted {A} (f w : A → Z) lo hi l :
  (∀ c, 0 ≤ f c) → (∀ c, c ∈ l → lo ≤ w c ≤ hi) →
  lo * Zsum_with f l ≤ Zsum_with (λ c, f c * w c) l ≤ hi * Zsum_with f l.
Proof.
  intros Hf. induction l as [|c l IH]; intros Hw; simpl; [lia|].
  destruct IH as [IH1 IH2]; [intros c' Hc'; apply Hw; by right|].
  pose proof (Hw c ltac:(by left)). pose proof (Hf c). nia.
Qed.

Lemma elem_of_cells v i j k :
  (i, j, k) ∈ VBox.cells v →
  VBox.r1 v ≤ i ≤ VBox.r2 v ∧ VBox.g1 v ≤ j ≤ VBox.g2 v
  ∧ VBox.b1 v ≤ k ≤ VBox.b2 v.
Proof.
  unfold VBox.cells, range.
  intros (i' & Hc & Hi)%list_elem_of_bind.
  apply list_elem_of_bind in Hc as (j' & Hc & Hj).
  apply list_elem_of_bind in Hc as (k' & Hc & Hk).
  apply list_elem_of_singleton in Hc as [= -> -> ->].
  apply elem_of_seqZ in Hi, Hj, Hk. lia.
Qed.

(** The truncated quotient of a sum of weights in [lo, hi]. *)
Lemma int_div_between n d lo hi :
  0 < d → 0 ≤ lo → lo * d ≤ n ≤ hi * d → lo ≤ int_div n d ≤ hi.
Proof.
  intros Hd Hlo Hn. unfold int_div.
  rewrite Z.quot_div_nonneg by nia. split.
  - apply Z.div_le_lower_bound; lia.
  - apply Z.div_le_upper_bound; lia.
Qed.

(** The two cases of [avg], on the population and the channel sums. *)
Lemma avg_unfold v :
  VBox.avg v
  = if negb (VBox.count v =? 0) then
      (int_div (channel_sum v (λ c, c.1.1)) (VBox.count v),
       int_div (channel_sum v (λ c, c.1.2)) (VBox.count v),
       int_div (channel_sum v (λ c, c.2)) (VBox.count v))
    else
      (4 * (VBox.r1 v + VBox.r2 v + 1),
       4 * (VBox.g1 v + VBox.g2 v + 1),
       4 * (VBox.b1 v + VBox.b2 v + 1)).
Proof.
  unfold VBox.avg.
  rewrite (foldl_quad _ (VBox.hval (VBox.histo v))
             (λ c, VBox.hval (VBox.histo v) c * ((2 * c.1.1 + 1) * 4))
             (λ c, VBox.hval (VBox.histo v) c * ((2 * c.1.2 + 1) * 4))
             (λ c, VBox.hval (VBox.histo v) c * ((2 * c.2 + 1) * 4))).
  2:{ intros a r g b [[i j] k]. cbn [fst snd VBox.hval].
      change (Z.shiftl 1 (8 - SIGBITS) / 2) with 4.
      f_equal; [f_equal; [f_equal|]|]; lia. }
  rewrite !Z.add_0_l, <- count_sum. fold (channel_sum v (λ c, c.1.1)).
  fold (channel_sum v (λ c, c.1.2)). fold (channel_sum v (λ c, c.2)).
  destruct (negb (VBox.count v =? 0)); [done|].
  change (Z.shiftl 1 (8 - SIGBITS)) with 8. unfold int_div.
  f_equal; [f_equal|]; Z.to_euclidean_division_equations; lia.
Qed.

Lemma count_nonneg v : nonneg_histo (VBox.histo v) → 0 ≤ VBox.count v.
Proof.
  intros Hh. rewrite count_sum. apply Zsum_with_nonneg. intros c.
  by apply hval_nonneg.
Qed.

Lemma channel_sum_between v (w : pixel → Z) lo hi :
  nonneg_histo (VBox.histo v) →
  (∀ c, c ∈ VBox.cells v → lo ≤ w c ≤ hi) →
  (2 * lo + 1) * 4 * VBox.count v ≤ channel_sum v w
  ≤ (2 * hi + 1) * 4 * VBox.count v.
Proof.
  intros Hh Hw. rewrite count_sum. unfold channel_sum.
  apply (Zsum_with_weighted (VBox.hval (VBox.histo v))
           (λ c, (2 * w c + 1) * 4)).
  - intros c. by apply hval_nonneg.
  - intros c Hc. specialize (Hw c Hc). lia.
Qed.

(** On a populated box with non-negative bounds the truncation is the floor
    of the channel sum over the population. *)
Lemma avg_populated_floor v :
  nonneg_histo (VBox.histo v) → VBox.count v ≠ 0 →
  0 ≤ VBox.r1 v → 0 ≤ VBox.g1 v → 0 ≤ VBox.b1 v →
  VBox.avg v
  = (channel_sum v (λ c, c.1.1) / VBox.count v,
     channel_sum v (λ c, c.1.2) / VBox.count v,
     channel_sum v (λ c, c.2) / VBox.count v).
Proof.
  intros Hh H0 Hr Hg Hb. rewrite avg_unfold.
  destruct (Z.eqb_spec (VBox.count v) 0); [done|]. cbn [negb].
  pose proof (count_nonneg v Hh) as Hnn. unfold int_div.
  assert (∀ w : pixel → Z, (∀ c, c ∈ VBox.cells v → 0 ≤ w c) →
                           0 ≤ channel_sum v w) as Hch.
  { intros w Hw.
    assert (∀ l, (∀ c, c ∈ l → 0 ≤ w c) →
                 0 ≤ Zsum_with (λ c, VBox.hval (VBox.histo v) c
                                     * ((2 * w c + 1) * 4)) l) as Hl.
    { induction l as [|c l IH]; intros Hin; simpl; [lia|].
      pose proof (Hin c ltac:(by left)).
      pose proof (hval_nonneg (VBox.histo v) c Hh).
      pose proof (IH (λ c' Hc', Hin c' ltac:(by right))). nia. }
    apply Hl. intros c Hc. by apply Hw. }
  rewrite !Z.quot_div_nonneg; [done|..]; try lia;
    apply Hch; intros [[i j] k] Hc%elem_of_cells; simpl; lia.
Qed.

(** A box with bounds inside the reduced cube has an 8-bit average colour. *)
Lemma avg_in_range v :
  nonneg_histo (VBox.histo v) →
  0 ≤ VBox.r1 v ≤ 31 → 0 ≤ VBox.r2 v ≤ 31 →
  0 ≤ VBox.g1 v ≤ 31 → 0 ≤ VBox.g2 v ≤ 31 →
  0 ≤ VBox.b1 v ≤ 31 → 0 ≤ VBox.b2 v ≤ 31 →
  let '(r, g, b) := VBox.avg v in
  0 ≤ r ≤ 255 ∧ 0 ≤ g ≤ 255 ∧ 0 ≤ b ≤ 255.
Proof.
  intros Hh Hr1 Hr2 Hg1 Hg2 Hb1 Hb2. rewrite avg_unfold.
  pose proof (count_nonneg v Hh) as Hnn.
  destruct (Z.eqb_spec (VBox.count v) 0) as [H0|H0]; cbn [negb]; [lia|].
  assert (∀ w : pixel → Z,
            (∀ c, c ∈ VBox.cells v → 0 ≤ w c ≤ 31) →
            0 ≤ int_div (channel_sum v w) (VBox.count v) ≤ 255) as Hch.
  { intros w Hw.
    destruct (int_div_between (channel_sum v w) (VBox.count v) 4 252);
      try lia.
    pose proof (channel_sum_between v w 0 31 Hh Hw). lia. }
  repeat split; apply Hch; intros [[i j] k] Hc%elem_of_cells; simpl; lia.
Qed.
End AverageFacts.

Lemma avg_empty_midpoint v :
  VBox.count v = 0 →
  VBox.avg v = (4 * (VBox.r1 v + VBox.r2 v + 1),
                4 * (VBox.g1 v + VBox.g2 v + 1),
                4 * (VBox.b1 v + VBox.b2 v + 1)).
Proof. intros H0. by rewrite avg_unfold, H0. Qed.

(** ** Runs of the quantizer on small inputs *)

(** C1.  On four pixels spread along the red axis and the palette size 2 the
    quantizer returns three colours, and four for the palette size 3: the
    second phase always splits once more, also when the first phase already
    filled the palette.  In general the palette has between 1 and
    [max_color + 1] entries, and at most [max_color] from the size 4 on. *)
Theorem quantize_palette_exceeds_target :
  (let pixels := [(0, 0, 0); (8, 0, 0); (16, 0, 0); (24, 0, 0)] in
   CMap.palette <$> MMCQ.quantize pixels 2
   = Ok [(16, 4, 4); (28, 4, 4); (4, 4, 4)]
   ∧ (CMap.size <$> MMCQ.quantize pixels 2) = Ok 3
   ∧ (CMap.size <$> MMCQ.quantize pixels 3) = Ok 4)
  ∧ (∀ pixels max_color cmap,
       MMCQ.quantize pixels max_color = Ok cmap →
       1 ≤ CMap.size cmap ≤ max_color + 1
       ∧ (4 ≤ max_color → CMap.size cmap ≤ max_color)).
Proof.
  split; [by vm_compute|]. apply quantize_palette_size.
Qed.

(** C2.  On 100 pixels (255,0,0) and the palette size 5 the histogram has one
    bucket, but the palette has five entries: the centroid (252,4,4) of the
    bucket with the fraction 100/100, and four times the colour (256,4,4) of
    an empty region with the fraction 0. *)
Theorem quantize_single_colour :
  let pixels := replicate 100 (255, 0, 0) in
  size (MMCQ.get_histo pixels) = 1%nat
  ∧ CMap.palette <$> MMCQ.quantize pixels 5
    = Ok [(252, 4, 4); (256, 4, 4); (256, 4, 4); (256, 4, 4); (256, 4, 4)]
  ∧ (MMCQ.quantize pixels 5 ≫= CMap.palette_distribution)
    = Ok [((252, 4, 4), 100 # 100); ((256, 4, 4), 0 # 100);
          ((256, 4, 4), 0 # 100); ((256, 4, 4), 0 # 100);
          ((256, 4, 4), 0 # 100)].
Proof. by vm_compute. Qed.

(** C3.  The empty region with the red range 32..31, which the quantizer
    retains for two pixels (255,0,0), has the average colour (256,4,4): its
    red channel is above 255.  The two formulas are the ones of [avg]: the
    midpoint [4 * (lo + hi + 1)] on an empty box, the floor of the channel sum
    over the population on a populated one; and the average of a box whose
    six bounds lie in 0..31 is an 8-bit colour. *)
Theorem degenerate_average_out_of_range :
  (let pixels := [(255, 0, 0); (255, 0, 0)] in
   let histo := MMCQ.get_histo pixels in
   let v := VBox.mk 32 31 0 0 0 0 histo in
   (v ∈ CMap.vbox <$> PQueue.contents
                        (CMap.vboxes match MMCQ.quantize pixels 2 with
                                     | Ok c => c
                                     | _ => CMap.new
                                     end))
   ∧ VBox.count v = 0
   ∧ VBox.avg v = (256, 4, 4)
   ∧ CMap.palette <$> MMCQ.quantize pixels 2
     = Ok [(252, 4, 4); (256, 4, 4); (256, 4, 4)])
  ∧ (∀ v, VBox.count v = 0 →
          VBox.avg v = (4 * (VBox.r1 v + VBox.r2 v + 1),
                        4 * (VBox.g1 v + VBox.g2 v + 1),
                        4 * (VBox.b1 v + VBox.b2 v + 1)))
  ∧ (∀ v, nonneg_histo (VBox.histo v) → VBox.count v ≠ 0 →
          0 ≤ VBox.r1 v → 0 ≤ VBox.g1 v → 0 ≤ VBox.b1 v →
          VBox.avg v = (channel_sum v (λ c, c.1.1) / VBox.count v,
                        channel_sum v (λ c, c.1.2) / VBox.count v,
                        channel_sum v (λ c, c.2) / VBox.count v))
  ∧ (∀ v, nonneg_histo (VBox.histo v) →
          0 ≤ VBox.r1 v ≤ 31 → 0 ≤ VBox.r2 v ≤ 31 →
          0 ≤ VBox.g1 v ≤ 31 → 0 ≤ VBox.g2 v ≤ 31 →
          0 ≤ VBox.b1 v ≤ 31 → 0 ≤ VBox.b2 v ≤ 31 →
          let '(r, g, b) := VBox.avg v in
          0 ≤ r ≤ 255 ∧ 0 ≤ g ≤ 255 ∧ 0 ≤ b ≤ 255).
Proof.
  split; [|split; [|split]].
  - intros pixels histo v. split; [|by vm_compute].
    vm_compute. right. left.
  - apply avg_empty_midpoint.
  - apply avg_populated_floor.
  - apply avg_in_range.
Qed.

(** C4.  Splitting the first region of two pixels (255,0,0), whose red range
    is 31..31, returns a second child with the red range 32..31: its lower
    bound is above its upper bound and above 2^SIGBITS - 1.  In general the
    children differ from the region on the cut axis only, the first child
    ends at a slice [d2] of the region and the second starts at [d2 + 1],
    which is above the region when [d2] is its last slice. *)
Theorem split_child_bounds_inverted :
  (let pixels := [(255, 0, 0); (255, 0, 0)] in
   let histo := MMCQ.get_histo pixels in
   let v := MMCQ.vbox_from_pixels pixels histo in
   v = VBox.mk 31 31 0 0 0 0 histo
   ∧ MMCQ.median_cut_apply histo v
     = Ok (Some (VBox.mk 31 31 0 0 0 0 histo),
           Some (VBox.mk 32 31 0 0 0 0 histo))
   ∧ 2 ^ SIGBITS - 1 < 32)
  ∧ (∀ histo v v1 v2,
       MMCQ.median_cut_apply histo v = Ok (Some v1, Some v2) →
       let a := MMCQ.cut_color v in
       ∃ d2, MMCQ.dim1 a v ≤ d2 ≤ MMCQ.dim2 a v
             ∧ v1 = MMCQ.set_dim2 a v d2
             ∧ v2 = MMCQ.set_dim1 a v (d2 + 1)).
Proof.
  split; [by vm_compute|].
  intros histo v v1 v2
    [(_ & _ & [=])|(_ & _ & d2 & Hd2 & -> & [= ->])]%median_cut_apply_inv a.
  exists d2. by rewrite copy_id.
Qed.

(** * Further properties of the code *)

(** ** Colour helpers of ColorThief *)

Section HelperFacts.
Import ColorThief.

Lemma hilo_min_max a b c :
  hilo a b c = Z.min a (Z.min b c) + Z.max a (Z.max b c).
Proof.
  unfold hilo.
  repeat (match goal with
          | |- context [Z.ltb ?x ?y] => destruct (Z.ltb_spec x y)
          end; cbn beta iota zeta); lia.
Qed.

(** X1.  [hilo] is the sum of the smallest and the largest of its three
    arguments, in whatever order they are given. *)
Theorem hilo_sum_of_extremes a b c :
  ColorThief.hilo a b c = Z.min a (Z.min b c) + Z.max a (Z.max b c).
Proof. apply hilo_min_max. Qed.

Lemma is_white_spec r g b :
  is_white r g b = true ↔ 240 < Z.min r (Z.min g b).
Proof.
  unfold is_white, white_threshold. rewrite !andb_true_iff, !Z.ltb_lt. lia.
Qed.

Lemma is_black_spec r g b :
  is_black r g b = true ↔ Z.max r (Z.max g b) < 15.
Proof.
  unfold is_black, black_threshold. rewrite !andb_true_iff, !Z.ltb_lt. lia.
Qed.

Lemma complement_plain r g b :
  is_white r g b = false → is_black r g b = false →
  complement r g b = (hilo r g b - r, hilo r g b - g, hilo r g b - b).
Proof. intros Hw Hb. unfold complement. by rewrite Hw, Hb. Qed.

(** X2.  The complement of an 8-bit colour is an 8-bit colour. *)
Theorem complement_8bit r g b :
  0 ≤ r ≤ 255 → 0 ≤ g ≤ 255 → 0 ≤ b ≤ 255 →
  let '(r', g', b') := complement r g b in
  0 ≤ r' ≤ 255 ∧ 0 ≤ g' ≤ 255 ∧ 0 ≤ b' ≤ 255.
Proof.
  intros Hr Hg Hb. unfold complement. rewrite hilo_min_max.
  destruct (is_white r g b); [lia|]. destruct (is_black r g b); lia.
Qed.

Lemma complement_8bit_witness :
  let '(r', g', b') := complement 10 200 100 in
  0 ≤ r' ≤ 255 ∧ 0 ≤ g' ≤ 255 ∧ 0 ≤ b' ≤ 255.
Proof. apply (complement_8bit 10 200 100); lia. Defined.

(** X3.  On a colour that is neither near-white nor near-black the complement
    is an involution: the complement is again neither, and its complement is
    the colour. *)
Theorem complement_involutive r g b :
  is_white r g b = false → is_black r g b = false →
  let '(r', g', b') := complement r g b in
  is_white r' g' b' = false ∧ is_black r' g' b' = false
  ∧ complement r' g' b' = (r, g, b).
Proof.
  intros Hw Hb. rewrite complement_plain by done.
  set (k := hilo r g b).
  assert (k = Z.min r (Z.min g b) + Z.max r (Z.max g b)) as Hk
    by apply hilo_min_max.
  assert (is_white (k - r) (k - g) (k - b) = false) as Hw'.
  { apply not_true_iff_false. rewrite is_white_spec.
    apply not_true_iff_false in Hw. rewrite is_white_spec in Hw. lia. }
  assert (is_black (k - r) (k - g) (k - b) = false) as Hb'.
  { apply not_true_iff_false. rewrite is_black_spec.
    apply not_true_iff_false in Hb. rewrite is_black_spec in Hb. lia. }
  split; [done|]. split; [done|].
  rewrite complement_plain by done. rewrite hilo_min_max.
  f_equal; [f_equal|]; lia.
Qed.

Lemma complement_involutive_witness :
  let '(r', g', b') := complement 10 200 100 in
  is_white r' g' b' = false ∧ is_black r' g' b' = false
  ∧ complement r' g' b' = (10, 200, 100).
Proof. apply (complement_involutive 10 200 100); reflexivity. Defined.
End HelperFacts.

(** ** Hexadecimal colour strings *)

Section HexFacts.
Import ColorThief.

Lemma byte_cases (P : Z → bool) :
  forallb P (seqZ 0 256) = true → ∀ n, 0 ≤ n ≤ 255 → P n = true.
Proof.
  intros Hall n Hn. rewrite forallb_forall in Hall. apply Hall.
  apply list_elem_of_In, elem_of_seqZ. lia.
Qed.

Lemma format_02X_byte n s :
  0 ≤ n ≤ 255 →
  ∃ c1 c2, String.append (format_02X n) s = String c1 (String c2 s)
           ∧ remove_hash (String c1 (String c2 s))
             = String c1 (String c2 (remove_hash s))
           ∧ fromhex (String c1 (String c2 s))
             = (rest ← fromhex s; Ok (n :: rest)).
Proof.
  intros Hn.
  assert (byte_chars_ok n = true) as Hok
    by (by apply (byte_cases byte_chars_ok)).
  unfold byte_chars_ok in Hok.
  destruct (format_02X n) as [|c1 [|c2 [|]]]; try done.
  exists c1, c2. split; [done|].
  apply andb_true_iff in Hok as [Hok Hval].
  apply andb_true_iff in Hok as [Hok Hsp].
  apply andb_true_iff in Hok as [H1 H2].
  apply negb_true_iff in H1, H2, Hsp.
  split; [simpl; by rewrite H1, H2|].
  simpl. rewrite Hsp.
  destruct (digit_value c1) as [top|]; [|done].
  destruct (digit_value c2) as [bot|]; [|done].
  apply Z.eqb_eq in Hval. by rewrite Hval.
Qed.

Lemma append_empty s : String.append s EmptyString = s.
Proof.
  induction s as [|c s IH]; [done|].
  change (String c (String.append s EmptyString) = String c s). by rewrite IH.
Qed.

(** X4.  Writing an 8-bit colour as ['#RRGGBB'] and reading it back gives
    the colour; the string has seven characters. *)
Theorem hex_round_trip r g b :
  0 ≤ r ≤ 255 → 0 ≤ g ≤ 255 → 0 ≤ b ≤ 255 →
  hex_to_rgb (rgb_to_hex r g b) = Ok [r; g; b]
  ∧ String.length (rgb_to_hex r g b) = 7%nat.
Proof.
  intros Hr Hg Hb. unfold hex_to_rgb, rgb_to_hex.
  destruct (format_02X_byte b EmptyString Hb) as (b1 & b2 & Eb & Rb & Fb).
  rewrite append_empty in Eb. rewrite Eb.
  destruct (format_02X_byte g (String b1 (String b2 EmptyString)) Hg)
    as (g1 & g2 & -> & Rg & Fg).
  destruct (format_02X_byte r (String g1 (String g2 (String b1 (String b2 EmptyString)))) Hr)
    as (r1 & r2 & -> & Rr & Fr).
  split; [|done].
  change (remove_hash (String "#" ?s)) with (remove_hash s).
  rewrite Rr, Rg, Rb. change (remove_hash EmptyString) with EmptyString.
  by rewrite Fr, Fg, Fb.
Qed.

Lemma hex_round_trip_witness :
  hex_to_rgb (rgb_to_hex 255 0 10) = Ok [255; 0; 10]
  ∧ String.length (rgb_to_hex 255 0 10) = 7%nat.
Proof. apply (hex_round_trip 255 0 10); lia. Defined.

Lemma digit_value_range c d : digit_value c = Some d → 0 ≤ d ≤ 15.
Proof.
  unfold digit_value.
  repeat match goal with
         | |- context [(?x <=? ?y) && (?z <=? ?w)] =>
             destruct (Z.leb_spec x y), (Z.leb_spec z w); cbn [andb]
         end; intros [= <-]; lia.
Qed.

Lemma fromhex_bytes s l :
  fromhex s = Ok l → Forall (λ x, 0 ≤ x ≤ 255) l.
Proof.
  remember (String.length s) as n eqn:Hn.
  revert s l Hn. induction n as [n IH] using lt_wf_ind.
  intros [|c s] l Hn; simpl.
  { intros [= <-]. constructor. }
  destruct (is_space c).
  { apply (IH (String.length s)); [simpl in Hn; lia|done]. }
  destruct (digit_value c) as [top|] eqn:Htop; [|done].
  destruct s as [|c' s]; [done|].
  destruct (digit_value c') as [bot|] eqn:Hbot; [|done].
  destruct (fromhex s) as [rest| |] eqn:Hrest; try done.
  intros [= <-]. apply digit_value_range in Htop, Hbot.
  constructor; [lia|].
  apply (IH (String.length s)) with (s := s); [simpl in Hn; lia|done|done].
Qed.

(** X5.  Whatever the string, a colour read by [hex_to_rgb] has at most
    three channels, each a byte. *)
Theorem hex_to_rgb_channels hex l :
  hex_to_rgb hex = Ok l →
  (length l ≤ 3)%nat ∧ Forall (λ x, 0 ≤ x ≤ 255) l.
Proof.
  unfold hex_to_rgb.
  destruct (fromhex (remove_hash hex)) as [bytes| |] eqn:Hb; try done.
  intros [= <-]. split.
  - rewrite length_take. lia.
  - apply Forall_take. by eapply fromhex_bytes.
Qed.

Lemma hex_to_rgb_channels_witness :
  let l : list Z := [18; 52; 86] in
  (length l ≤ 3)%nat ∧ Forall (λ x, 0 ≤ x ≤ 255) l.
Proof. intros l. apply (hex_to_rgb_channels "#12#34#56ff"). reflexivity. Defined.
End HexFacts.

(** ** Buckets of the histogram *)

Section BucketFacts.
Import MMCQ.

Lemma get_color_index_eq r g b : get_color_index r g b = r * 1024 + g * 32 + b.
Proof.
  unfold get_color_index, SIGBITS. by rewrite !Z.shiftl_mul_pow2 by lia.
Qed.

(** Points of the reduced cube have distinct indices. *)
Lemma get_color_index_injective r g b r' g' b' :
  in_cube (r, g, b) → in_cube (r', g', b') →
  0 ≤ get_color_index r g b < 32768
  ∧ (get_color_index r g b = get_color_index r' g' b' →
     (r, g, b) = (r', g', b')).
Proof.
  unfold in_cube. intros H H'. rewrite !get_color_index_eq. split; [lia|].
  intros Heq. f_equal; [f_equal|]; lia.
Qed.

(** X6.  The index of a point of the reduced cube lies in 0..32767, and two
    points of the cube with the same index are the same point. *)
Theorem cube_index_injective r g b r' g' b' :
  in_cube (r, g, b) → in_cube (r', g', b') →
  0 ≤ get_color_index r g b < 32768
  ∧ (get_color_index r g b = get_color_index r' g' b' →
     (r, g, b) = (r', g', b')).
Proof. apply get_color_index_injective. Qed.

Lemma cube_index_injective_witness :
  0 ≤ get_color_index 31 0 7 < 32768
  ∧ (get_color_index 31 0 7 = get_color_index 0 31 7 →
     (31, 0, 7) = (0, 31, 7)).
Proof. apply (cube_index_injective 31 0 7 0 31 7); unfold in_cube; lia. Defined.

Lemma reduce_in_cube p : eight_bit p → in_cube (reduce p).
Proof.
  destruct p as [[r g] b]. unfold eight_bit, in_cube, reduce, RSHIFT, SIGBITS.
  intros H. rewrite !Z.shiftr_div_pow2 by lia. change (2 ^ (8 - 5)) with 8.
  repeat split; try (apply Z.div_pos; lia);
    apply Z.lt_succ_r, Z.div_lt_upper_bound; lia.
Qed.

Lemma get_histo_fold pixels (h : gmap Z Z) k :
  default 0 (foldl (λ histo pixel,
                      let '(rval, gval, bval) := reduce pixel in
                      let index := get_color_index rval gval bval in
                      <[index := default 0 (histo !! index) + 1]> histo)
                   h pixels !! k)
  = default 0 (h !! k)
    + Z.of_nat (length (filter (λ p, index_of p = k) pixels)).
Proof.
  revert h. induction pixels as [|p pixels IH]; intros h; simpl; [lia|].
  rewrite IH, filter_cons.
  assert (index_of p = let '(x, y, z) := reduce p in get_color_index x y z)
    as Hi by done.
  destruct (reduce p) as [[x y] z]. rewrite Hi.
  destruct (decide (get_color_index x y z = k)) as [->|Hne].
  - rewrite lookup_insert_eq. simpl. lia.
  - by rewrite lookup_insert_ne.
Qed.

Lemma get_histo_default pixels k :
  default 0 (get_histo pixels !! k)
  = Z.of_nat (length (filter (λ p, index_of p = k) pixels)).
Proof.
  pose proof (get_histo_fold pixels ∅ k) as Hfold.
  rewrite lookup_empty in Hfold. exact Hfold.
Qed.

(** X7.  The histogram holds, for each bucket, the number of pixels that fall
    into it; a bucket without pixel has no entry. *)
Theorem get_histo_lookup pixels k :
  let n := length (filter (λ p, index_of p = k) pixels) in
  get_histo pixels !! k = if decide (n = 0%nat) then None else Some (Z.of_nat n).
Proof.
  intros n. pose proof (get_histo_fold pixels ∅ k) as Hfold.
  rewrite lookup_empty in Hfold. simpl in Hfold. fold n in Hfold.
  unfold get_histo.
  destruct (foldl _ ∅ pixels !! k) as [x|] eqn:Hx; simpl in Hfold.
  - case_decide as Hn; [|by rewrite Hfold]. exfalso.
    assert (∀ l (h : gmap Z Z), (∀ j y, h !! j = Some y → 0 < y) →
              ∀ j y, foldl (λ histo pixel,
                              let '(rval, gval, bval) := reduce pixel in
                              let index := get_color_index rval gval bval in
                              <[index := default 0 (histo !! index) + 1]> histo)
                           h l !! j = Some y → 0 < y) as Hpos.
    { induction l as [|q l IH]; intros h Hh; [done|]. simpl. apply IH.
      destruct (reduce q) as [[a b] c]. intros j y.
      rewrite lookup_insert. case_decide.
      - intros [= <-]. destruct (h !! _) as [y'|] eqn:Hy'; simpl; [|lia].
        apply Hh in Hy'. lia.
      - apply Hh. }
    apply (Hpos pixels ∅) in Hx; [lia|]. intros j y. by rewrite lookup_empty.
  - case_decide; [done|lia].
Qed.
End BucketFacts.

(** ** Populations count pixels *)

Section PopulationFacts.
Import MMCQ.

Lemma Zsum_with_ext_in {A} (f g : A → Z) l :
  (∀ x, x ∈ l → f x = g x) → Zsum_with f l = Zsum_with g l.
Proof.
  induction l as [|x l IH]; intros Hfg; simpl; [done|].
  rewrite Hfg by (by left). rewrite IH; [done|].
  intros y Hy. apply Hfg. by right.
Qed.

Lemma Zsum_cells (F : pixel → Z) v :
  Zsum_with F (VBox.cells v)
  = Zsum_with (λ i,
      Zsum_with (λ j,
        Zsum_with (λ k, F (i, j, k)) (range (VBox.b1 v) (VBox.b2 v + 1)))
                (range (VBox.g1 v) (VBox.g2 v + 1)))
              (range (VBox.r1 v) (VBox.r2 v + 1)).
Proof.
  unfold VBox.cells. rewrite Zsum_with_bind. apply Zsum_with_ext. intros i.
  rewrite Zsum_with_bind. apply Zsum_with_ext. intros j.
  rewrite Zsum_with_bind. apply Zsum_with_ext. intros k. simpl. lia.
Qed.

Lemma Zsum_indicator_range lo hi x (w : Z) :
  Zsum_with (λ i, if decide (i = x) then w else 0) (range lo (hi + 1))
  = if decide (lo ≤ x ≤ hi) then w else 0.
Proof.
  unfold range. destruct (Z.le_gt_cases (hi + 1 - lo) 0) as [Hle|Hgt].
  { rewrite seqZ_nil by done. simpl. case_decide; [lia|done]. }
  assert (∀ n : nat,
            Zsum_with (λ i, if decide (i = x) then w else 0)
                      (seqZ lo (Z.of_nat n))
            = if decide (lo ≤ x < lo + Z.of_nat n) then w else 0) as Hn.
  { induction n as [|n IH].
    - simpl. case_decide; [lia|done].
    - rewrite seqZ_S, Zsum_with_app, IH. simpl.
      repeat case_decide; lia. }
  specialize (Hn (Z.to_nat (hi + 1 - lo))). rewrite Z2Nat.id in Hn by lia.
  rewrite Hn. repeat case_decide; lia.
Qed.

(** A point lies in exactly one cell of a box that contains it. *)
Lemma cells_indicator v (q : pixel) :
  Zsum_with (λ c, if decide (c = q) then 1 else 0) (VBox.cells v)
  = if decide (in_box v q) then 1 else 0.
Proof.
  destruct q as [[x y] z]. rewrite Zsum_cells.
  rewrite (Zsum_with_ext _
             (λ i, if decide (i = x)
                   then (if decide (VBox.g1 v ≤ y ≤ VBox.g2 v)
                         then (if decide (VBox.b1 v ≤ z ≤ VBox.b2 v)
                               then 1 else 0) else 0) else 0)).
  - rewrite Zsum_indicator_range. unfold in_box.
    repeat case_decide; lia.
  - intros i.
    rewrite (Zsum_with_ext _
               (λ j, if decide (j = y)
                     then (if decide (i = x)
                           then (if decide (VBox.b1 v ≤ z ≤ VBox.b2 v)
                                 then 1 else 0) else 0) else 0)).
    + rewrite Zsum_indicator_range. repeat case_decide; lia.
    + intros j.
      rewrite (Zsum_with_ext _
                 (λ k, if decide (k = z)
                       then (if decide (i = x ∧ j = y) then 1 else 0)
                       else 0)).
      * rewrite Zsum_indicator_range. repeat case_decide; lia.
      * intros k. repeat case_decide; try done; exfalso.
        -- match goal with
           | H : (_, _, _) = (_, _, _) |- _ => injection H as -> -> ->
           end; tauto.
        -- match goal with
           | H : (_, _, _) = (_, _, _) |- _ => injection H as -> -> ->
           end; tauto.
        -- match goal with
           | H : ¬ (_, _, _) = (_, _, _) |- _ => apply H
           end.
           repeat match goal with
                  | H : _ ∧ _ |- _ => destruct H
                  end; by subst.
Qed.

(** On 8-bit pixels a bucket of the cube counts the pixels that reduce to
    its point. *)
Lemma hval_occurrences pixels c :
  Forall eight_bit pixels → in_cube c →
  VBox.hval (get_histo pixels) c
  = Z.of_nat (length (filter (λ p, reduce p = c) pixels)).
Proof.
  intros H8 Hc. destruct c as [[x y] z].
  change (VBox.hval (get_histo pixels) (x, y, z))
    with (default 0 (get_histo pixels !! get_color_index x y z)).
  rewrite get_histo_default. f_equal. f_equal.
  induction H8 as [|p pixels Hp H8 IH]; [done|].
  rewrite !filter_cons, IH.
  assert (index_of p = get_color_index x y z ↔ reduce p = (x, y, z)) as Hiff.
  { unfold index_of. pose proof (reduce_in_cube p Hp) as Hr.
    destruct (reduce p) as [[x' y'] z']. split; [|by intros [= -> -> ->]].
    by apply get_color_index_injective. }
  repeat case_decide; tauto.
Qed.

Lemma count_contains pixels v :
  Forall eight_bit pixels → box_in_cube v →
  VBox.histo v = get_histo pixels →
  VBox.count v
  = Z.of_nat (length (filter (λ p, VBox.contains v p) pixels)).
Proof.
  intros H8 Hv Hh. rewrite count_sum, Hh.
  rewrite (Zsum_with_ext_in _
             (λ c, Z.of_nat (length (filter (λ p, reduce p = c) pixels)))).
  2:{ intros [[i j] k] Hc%elem_of_cells. apply hval_occurrences; [done|].
      unfold box_in_cube in Hv. unfold in_cube. lia. }
  clear H8 Hh. induction pixels as [|p pixels IH].
  { simpl. by rewrite Zsum_with_zero. }
  rewrite (Zsum_with_ext _
             (λ c, (if decide (c = reduce p) then 1 else 0)
                   + Z.of_nat (length (filter (λ p, reduce p = c) pixels)))).
  2:{ intros c. rewrite filter_cons.
      repeat case_decide; simpl; try lia; congruence. }
  rewrite Zsum_with_plus, IH, cells_indicator, filter_cons.
  destruct (decide (VBox.contains v p)) as [Hc|Hc];
    rewrite contains_spec in Hc; case_decide; simpl; try done; lia.
Qed.
(** X8.  On 8-bit pixels the population of a box inside the cube is the
    number of pixels the box contains. *)
Theorem count_is_contained_pixels pixels v :
  Forall eight_bit pixels → box_in_cube v →
  VBox.histo v = get_histo pixels →
  VBox.count v
  = Z.of_nat (length (filter (λ p, VBox.contains v p) pixels)).
Proof. apply count_contains. Qed.

Lemma count_is_contained_pixels_witness :
  let pixels := [(0, 0, 0); (8, 0, 0); (16, 8, 0); (24, 8, 0)] in
  let v := VBox.mk 0 1 0 1 0 0 (get_histo pixels) in
  VBox.count v
  = Z.of_nat (length (filter (λ p, VBox.contains v p) pixels)).
Proof.
  intros pixels v. apply (count_is_contained_pixels pixels v).
  - repeat constructor; unfold eight_bit; lia.
  - unfold box_in_cube; simpl; lia.
  - reflexivity.
Defined.
End PopulationFacts.

(** ** The first box and the populations of a split *)

Section SplitPopulation.
Import MMCQ.

Lemma filter_all {A} (P : A → Prop) `{!∀ x, Decision (P x)} (l : list A) :
  (∀ x, x ∈ l → P x) → filter P l = l.
Proof.
  induction l as [|x l IH]; intros HP; [done|].
  rewrite filter_cons, decide_True by (apply HP; by left).
  f_equal. apply IH. intros y Hy. apply HP. by right.
Qed.

Lemma vbox_from_pixels_in_cube pixels histo :
  Forall eight_bit pixels → box_in_cube (vbox_from_pixels pixels histo).
Proof.
  intros H8. unfold vbox_from_pixels.
  set (step := λ '(rmin, rmax, gmin, gmax, bmin, bmax) pixel,
                 let '(rval, gval, bval) := reduce pixel in
                 (Z.min rval rmin, Z.max rval rmax,
                  Z.min gval gmin, Z.max gval gmax,
                  Z.min bval bmin, Z.max bval bmax)).
  assert (∀ acc,
    (let '(rmin, rmax, gmin, gmax, bmin, bmax) := acc in
     0 ≤ rmin ∧ rmax ≤ 31 ∧ 0 ≤ gmin ∧ gmax ≤ 31 ∧ 0 ≤ bmin ∧ bmax ≤ 31) →
    let '(rmin, rmax, gmin, gmax, bmin, bmax) := foldl step acc pixels in
    0 ≤ rmin ∧ rmax ≤ 31 ∧ 0 ≤ gmin ∧ gmax ≤ 31 ∧ 0 ≤ bmin ∧ bmax ≤ 31)
    as Hfold.
  { induction H8 as [|p pixels Hp H8 IH];
      intros [[[[[rmin rmax] gmin] gmax] bmin] bmax] Hacc; [done|].
    simpl. apply reduce_in_cube in Hp.
    destruct (reduce p) as [[x y] z]. apply IH. unfold in_cube in Hp.
    cbn beta iota in Hacc |- *. lia. }
  specialize (Hfold (1000000, 0, 1000000, 0, 1000000, 0)
                    ltac:(cbn beta iota; lia)).
  by destruct (foldl step _ pixels) as [[[[[rmin rmax] gmin] gmax] bmin] bmax].
Qed.

Lemma vbox_from_pixels_valid pixels :
  pixels ≠ [] → Forall eight_bit pixels →
  let v := vbox_from_pixels pixels (get_histo pixels) in
  0 ≤ VBox.r1 v ≤ VBox.r2 v ∧ VBox.r2 v ≤ 31
  ∧ 0 ≤ VBox.g1 v ≤ VBox.g2 v ∧ VBox.g2 v ≤ 31
  ∧ 0 ≤ VBox.b1 v ≤ VBox.b2 v ∧ VBox.b2 v ≤ 31
  ∧ VBox.count v = Z.of_nat (length pixels).
Proof.
  intros Hne H8 v.
  pose proof (vbox_from_pixels_in_cube pixels (get_histo pixels) H8) as Hcube.
  fold v in Hcube. split_and!; try (unfold box_in_cube in Hcube; lia).
  - destruct pixels as [|p pixels]; [done|].
    pose proof (vbox_from_pixels_contains (p :: pixels) (get_histo (p :: pixels))
                  p ltac:(by left)) as Hp.
    apply contains_spec in Hp. fold v in Hp. unfold in_box in Hp.
    destruct (reduce p) as [[x y] z]. unfold box_in_cube in Hcube. lia.
  - destruct pixels as [|p pixels]; [done|].
    pose proof (vbox_from_pixels_contains (p :: pixels) (get_histo (p :: pixels))
                  p ltac:(by left)) as Hp.
    apply contains_spec in Hp. fold v in Hp. unfold in_box in Hp.
    destruct (reduce p) as [[x y] z]. unfold box_in_cube in Hcube. lia.
  - destruct pixels as [|p pixels]; [done|].
    pose proof (vbox_from_pixels_contains (p :: pixels) (get_histo (p :: pixels))
                  p ltac:(by left)) as Hp.
    apply contains_spec in Hp. fold v in Hp. unfold in_box in Hp.
    destruct (reduce p) as [[x y] z]. unfold box_in_cube in Hcube. lia.
  - rewrite (count_contains pixels v H8 Hcube)
      by apply vbox_from_pixels_histo.
    f_equal. f_equal. apply filter_all. intros p Hp.
    by apply vbox_from_pixels_contains.
Qed.

Lemma slice_sum_set_dim2 h a v d i :
  slice_sum h a (set_dim2 a v d) i = slice_sum h a v i.
Proof. by destruct a. Qed.

Lemma slice_sum_set_dim1 h a v d i :
  slice_sum h a (set_dim1 a v d) i = slice_sum h a v i.
Proof. by destruct a. Qed.

(** The population of a box is the sum of its slices along any axis. *)
Lemma count_slices a v :
  VBox.count v
  = Zsum_with (slice_sum (VBox.histo v) a v) (range (dim1 a v) (dim2 a v + 1)).
Proof. by rewrite count_sum, slice_sum_total. Qed.

Lemma count_set_dim2 a v d :
  VBox.count (set_dim2 a v d)
  = Zsum_with (slice_sum (VBox.histo v) a v) (range (dim1 a v) (d + 1)).
Proof.
  rewrite (count_slices a), histo_set_dim2, dim2_set_dim2.
  replace (dim1 a (set_dim2 a v d)) with (dim1 a v) by (by destruct a).
  apply Zsum_with_ext. intros i. apply slice_sum_set_dim2.
Qed.

Lemma count_set_dim1 a v d :
  VBox.count (set_dim1 a v d)
  = Zsum_with (slice_sum (VBox.histo v) a v) (range d (dim2 a v + 1)).
Proof.
  rewrite (count_slices a), histo_set_dim1, dim1_set_dim1.
  replace (dim2 a (set_dim1 a v d)) with (dim2 a v) by (by destruct a).
  apply Zsum_with_ext. intros i. apply slice_sum_set_dim1.
Qed.

Lemma range_split lo mid hi :
  lo ≤ mid ≤ hi → range lo hi = range lo mid ++ range mid hi.
Proof.
  intros H. unfold range.
  replace (hi - lo) with ((mid - lo) + (hi - mid)) by lia.
  rewrite seqZ_app by lia. do 2 f_equal; lia.
Qed.

Lemma median_cut_apply_population histo v v1 o2 :
  median_cut_apply histo v = Ok (Some v1, o2) →
  Zsum_with VBox.count (v1 :: option_list o2) = VBox.count v.
Proof.
  intros [(_ & -> & ->)|(_ & _ & d2 & Hd2 & -> & ->)]%median_cut_apply_inv;
    simpl; rewrite copy_id; [lia|].
  rewrite count_set_dim2, count_set_dim1, (count_slices (cut_color v) v).
  rewrite (range_split (dim1 (cut_color v) v) (d2 + 1)
                       (dim2 (cut_color v) v + 1)) by lia.
  rewrite Zsum_with_app. lia.
Qed.

Lemma cut_inv_truthy v a ps la i r :
  cut v a ps la i = Ok r →
  ∃ d2, truthy (ps !! d2) = true
        ∧ r = (Some (set_dim2 a (VBox.copy v) d2),
               Some (set_dim1 a (VBox.copy v) (d2 + 1))).
Proof.
  unfold cut.
  destruct (skip_empty _ _ _) as [d|e|] eqn:Hskip; simpl; try done.
  destruct (back_off _ _ _ _ _) as [d'|e|] eqn:Hback; simpl; try done.
  intros [= <-]. exists d'. rewrite dim2_set_dim2. split; [|done].
  apply skip_empty_inv in Hskip as [Hd _].
  by apply back_off_inv in Hback as [[->|Hd'] _].
Qed.

(** X11.  When the box carries the histogram the splitter is given, and
    the counts of that histogram are not negative, the first box returned
    by a split is populated. *)
Theorem median_cut_apply_first_populated histo v v1 o2 :
  nonneg_histo histo → VBox.histo v = histo →
  median_cut_apply histo v = Ok (Some v1, o2) →
  0 < VBox.count v1.
Proof.
  intros Hh Hv. unfold median_cut_apply.
  destruct (Z.eqb_spec (VBox.count v) 0) as [|H0]; [done|].
  destruct (Z.eqb_spec (VBox.count v) 1) as [H1|H1].
  { intros [= <- <-]. rewrite copy_id. lia. }
  set (a := cut_color v).
  pose proof (partial_sums_lookup histo a v) as Hlook.
  pose proof (partial_sums_keys histo a v) as Hkeys.
  destruct (partial_sums histo a v) as [total ps]. simpl in Hlook, Hkeys.
  intros [[=]|(i & p & _ & _ & _ & Hcut)]%cut_scan_inv.
  apply cut_inv_truthy in Hcut as (d2 & Hd2 & [= -> ->]).
  rewrite copy_id, count_set_dim2, Hv.
  pose proof (truthy_is_Some _ Hd2) as Hin. apply Hkeys in Hin.
  rewrite Hlook in Hd2 by done. unfold truthy in Hd2.
  apply negb_true_iff, Z.eqb_neq in Hd2.
  assert (0 ≤ prefix_sum (slice_sum histo a v) (dim1 a v) d2) as Hnn.
  { apply Zsum_with_nonneg. intros x. by apply slice_sum_nonneg. }
  unfold prefix_sum in *. unfold range.
  replace (d2 + 1 - dim1 a v) with (d2 - dim1 a v + 1) by lia. lia.
Qed.

Lemma median_cut_apply_first_populated_witness :
  let pixels := [(255, 0, 0); (255, 0, 0)] in
  let histo := get_histo pixels in
  0 < VBox.count (VBox.mk 31 31 0 0 0 0 histo).
Proof.
  intros pixels histo.
  apply (median_cut_apply_first_populated histo
           (vbox_from_pixels pixels histo) _
           (Some (VBox.mk 32 31 0 0 0 0 histo))).
  - apply get_histo_nonneg.
  - reflexivity.
  - vm_compute. reflexivity.
Defined.
(** X9.  The first box of a non-empty list of 8-bit pixels is a non-empty
    box of the reduced cube, and its population is the number of pixels. *)
Theorem first_box_valid pixels :
  pixels ≠ [] → Forall eight_bit pixels →
  let v := vbox_from_pixels pixels (get_histo pixels) in
  0 ≤ VBox.r1 v ≤ VBox.r2 v ∧ VBox.r2 v ≤ 31
  ∧ 0 ≤ VBox.g1 v ≤ VBox.g2 v ∧ VBox.g2 v ≤ 31
  ∧ 0 ≤ VBox.b1 v ≤ VBox.b2 v ∧ VBox.b2 v ≤ 31
  ∧ VBox.count v = Z.of_nat (length pixels).
Proof. apply vbox_from_pixels_valid. Qed.

Lemma first_box_valid_witness :
  let pixels := [(0, 0, 0); (8, 0, 0); (16, 8, 0); (24, 8, 0)] in
  let v := vbox_from_pixels pixels (get_histo pixels) in
  0 ≤ VBox.r1 v ≤ VBox.r2 v ∧ VBox.r2 v ≤ 31
  ∧ 0 ≤ VBox.g1 v ≤ VBox.g2 v ∧ VBox.g2 v ≤ 31
  ∧ 0 ≤ VBox.b1 v ≤ VBox.b2 v ∧ VBox.b2 v ≤ 31
  ∧ VBox.count v = Z.of_nat (length pixels).
Proof.
  intros pixels. apply (first_box_valid pixels); [done|].
  repeat constructor; unfold eight_bit; lia.
Defined.

(** X10.  A split keeps the population: the populations of the boxes it
    returns add up to the population of the box it was given. *)
Theorem split_keeps_population histo v v1 o2 :
  median_cut_apply histo v = Ok (Some v1, o2) →
  Zsum_with VBox.count (v1 :: option_list o2) = VBox.count v.
Proof. apply median_cut_apply_population. Qed.

Lemma split_keeps_population_witness :
  let pixels := [(0, 0, 0); (8, 0, 0); (16, 8, 0); (24, 8, 0)] in
  let histo := get_histo pixels in
  let v := vbox_from_pixels pixels histo in
  Zsum_with VBox.count [VBox.mk 0 0 0 1 0 0 histo; VBox.mk 1 3 0 1 0 0 histo]
  = VBox.count v.
Proof.
  intros pixels histo v.
  apply (split_keeps_population histo v (VBox.mk 0 0 0 1 0 0 histo)
           (Some (VBox.mk 1 3 0 1 0 0 histo))).
  vm_compute. reflexivity.
Defined.
End SplitPopulation.

(** ** What the quantizer retains *)

Section RetainedFacts.
Import MMCQ.

Lemma Zsum_with_perm {A} (f : A → Z) l l' :
  l ≡ₚ l' → Zsum_with f l = Zsum_with f l'.
Proof. induction 1; simpl; lia. Qed.

(** A property of the queued boxes that does not depend on their order and
    survives every split holds for the retained regions. *)
Lemma quantize_invariant (P : list VBox.t → Prop) pixels max_color cmap :
  (∀ l l', l ≡ₚ l' → P l → P l') →
  (∀ l v v1 o2,
     P (l ++ [v]) →
     median_cut_apply (get_histo pixels) v = Ok (Some v1, o2) →
     P (l ++ v1 :: option_list o2)) →
  P [vbox_from_pixels pixels (get_histo pixels)] →
  quantize pixels max_color = Ok cmap →
  P (CMap.vbox <$> PQueue.contents (CMap.vboxes cmap)).
Proof.
  intros Hperm Hsplit Hinit (_ & _ & pq & pq2 & H1 & H2 & ->)%quantize_inv.
  cbn zeta in H1, H2.
  assert (∀ fuel target lh n_color n_iter lh',
            P (PQueue.contents lh) →
            iter_loop fuel (get_histo pixels) target lh n_color n_iter = Ok lh' →
            P (PQueue.contents lh')) as Hloop.
  { intros fuel target. 
    apply (iter_loop_invariant (λ q, P (PQueue.contents q))).
    - intros q v q' HP Hpop%pop_contents _. simpl. by eapply Hperm.
    - intros q v q' v1 o2 HP Hpop%pop_contents Hcut.
      rewrite push_children_contents. eapply Hsplit; [|done].
      by eapply Hperm. }
  rewrite foldl_cmap_push_contents. simpl. rewrite <- list_fmap_compose.
  change (CMap.vbox ∘ entry_of) with (@id VBox.t). rewrite list_fmap_id.
  apply (Hperm (PQueue.contents pq2));
    [by rewrite reverse_Permutation, ordered_perm|].
  eapply Hloop; [|exact H2]. rewrite foldl_push_contents. simpl.
  apply (Hperm (PQueue.contents pq));
    [by rewrite reverse_Permutation, ordered_perm|].
  eapply Hloop; [|exact H1]. done.
Qed.

Lemma elem_of_cells_2 v i j k : in_box v (i, j, k) → (i, j, k) ∈ VBox.cells v.
Proof.
  unfold in_box, VBox.cells, range. intros H.
  apply list_elem_of_bind. exists i. split; [|apply elem_of_seqZ; lia].
  apply list_elem_of_bind. exists j. split; [|apply elem_of_seqZ; lia].
  apply list_elem_of_bind. exists k. split; [|apply elem_of_seqZ; lia].
  by apply list_elem_of_singleton.
Qed.

(** The first box of a non-empty pixel list is populated. *)
Lemma first_box_populated pixels :
  pixels ≠ [] → 0 < VBox.count (vbox_from_pixels pixels (get_histo pixels)).
Proof.
  intros Hne. destruct pixels as [|p pixels]; [done|].
  set (l := p :: pixels). set (v := vbox_from_pixels l (get_histo l)).
  assert (reduce p ∈ VBox.cells v) as Hin.
  { pose proof (vbox_from_pixels_contains l (get_histo l) p ltac:(by left)) as Hp.
    apply contains_spec in Hp. destruct (reduce p) as [[x y] z].
    by apply elem_of_cells_2. }
  rewrite count_sum. unfold v at 1. rewrite vbox_from_pixels_histo.
  pose proof (Zsum_with_elem (VBox.hval (get_histo l)) (VBox.cells v) (reduce p)
                (λ c, hval_nonneg _ c (get_histo_nonneg l)) Hin) as Hle.
  assert (1 ≤ VBox.hval (get_histo l) (reduce p)); [|lia].
  assert (VBox.hval (get_histo l) (reduce p)
          = default 0 (get_histo l !! index_of p)) as ->.
  { unfold index_of. by destruct (reduce p) as [[x y] z]. }
  rewrite get_histo_default. unfold l. rewrite filter_cons.
  rewrite decide_True by done. simpl. lia.
Qed.

Lemma split_histo_population pixels n l v v1 o2 :
  (Forall (λ w, VBox.histo w = get_histo pixels) (l ++ [v])
   ∧ population (l ++ [v]) = n) →
  median_cut_apply (get_histo pixels) v = Ok (Some v1, o2) →
  Forall (λ w, VBox.histo w = get_histo pixels) (l ++ v1 :: option_list o2)
  ∧ population (l ++ v1 :: option_list o2) = n.
Proof.
  intros [Hh Hn] Hcut. rewrite Forall_app, Forall_singleton in Hh.
  destruct Hh as [Hl Hv]. split.
  - apply Forall_app. split; [done|].
    eapply Forall_impl; [by eapply median_cut_apply_histo|].
    simpl. congruence.
  - unfold population in *. rewrite Zsum_with_app in *.
    rewrite (median_cut_apply_population _ _ _ _ Hcut). simpl in Hn. lia.
Qed.

Lemma quantize_population pixels max_color cmap :
  quantize pixels max_color = Ok cmap →
  let regions := CMap.vbox <$> PQueue.contents (CMap.vboxes cmap) in
  Forall (λ v, VBox.histo v = get_histo pixels ∧ 0 ≤ VBox.count v) regions
  ∧ population regions
    = VBox.count (vbox_from_pixels pixels (get_histo pixels))
  ∧ 0 < population regions
  ∧ (Forall eight_bit pixels →
     population regions = Z.of_nat (length pixels)).
Proof.
  intros Hq regions.
  pose proof Hq as (Hne & _)%quantize_inv.
  assert (Forall (λ w, VBox.histo w = get_histo pixels) regions
          ∧ population regions
            = VBox.count (vbox_from_pixels pixels (get_histo pixels)))
    as [Hh Hpop].
  { apply (quantize_invariant
             (λ l, Forall (λ w, VBox.histo w = get_histo pixels) l
                   ∧ population l
                     = VBox.count (vbox_from_pixels pixels (get_histo pixels)))
             pixels max_color cmap); [| |..|done].
    - intros l l' Hperm [? ?]. split; [by rewrite <- Hperm|].
      unfold population. by rewrite <- (Zsum_with_perm _ _ _ Hperm).
    - intros l v v1 o2. apply split_histo_population.
    - split; [|unfold population; simpl; lia].
      repeat constructor. apply vbox_from_pixels_histo. }
  split_and!.
  - eapply Forall_impl; [exact Hh|]. intros v Hv. split; [done|].
    apply count_nonneg. rewrite Hv. apply get_histo_nonneg.
  - done.
  - rewrite Hpop. by apply first_box_populated.
  - intros H8. rewrite Hpop.
    by apply (vbox_from_pixels_valid pixels Hne H8).
Qed.

(** X12.  The retained regions share the histogram of the call and hold its
    whole population: their populations add up to the population of the
    first box, which is the number of pixels when the pixels are 8-bit. *)
Theorem retained_population pixels max_color cmap :
  quantize pixels max_color = Ok cmap →
  let regions := CMap.vbox <$> PQueue.contents (CMap.vboxes cmap) in
  Forall (λ v, VBox.histo v = get_histo pixels ∧ 0 ≤ VBox.count v) regions
  ∧ population regions
    = VBox.count (vbox_from_pixels pixels (get_histo pixels))
  ∧ 0 < population regions
  ∧ (Forall eight_bit pixels →
     population regions = Z.of_nat (length pixels)).
Proof. apply quantize_population. Qed.

Lemma retained_population_witness :
  let pixels := [(0, 0, 0); (8, 0, 0); (16, 0, 0); (24, 0, 0)] in
  let cmap := match quantize pixels 2 with Ok c => c | _ => CMap.new end in
  let regions := CMap.vbox <$> PQueue.contents (CMap.vboxes cmap) in
  Forall (λ v, VBox.histo v = get_histo pixels ∧ 0 ≤ VBox.count v) regions
  ∧ population regions
    = VBox.count (vbox_from_pixels pixels (get_histo pixels))
  ∧ 0 < population regions
  ∧ (Forall eight_bit pixels →
     population regions = Z.of_nat (length pixels)).
Proof.
  intros pixels cmap. apply (retained_population pixels 2 cmap).
  vm_compute. reflexivity.
Defined.
End RetainedFacts.

(** ** The distribution and the colours of the palette *)

Section PaletteFacts.
Import MMCQ.

Lemma mapM_ok {A B} (f : A → result B) (g : A → B) l :
  (∀ x, x ∈ l → f x = Ok (g x)) → mapM f l = Ok (g <$> l).
Proof.
  induction l as [|x l IH]; intros Hf; [done|].
  simpl. rewrite Hf by (by left). simpl.
  rewrite IH; [done|]. intros y Hy. apply Hf. by right.
Qed.

Lemma Qsum_fractions (T : Z) (l : list Z) :
  T ≠ 0 →
  (Qsum ((λ c, inject_Z c / inject_Z T)%Q <$> l)
   == inject_Z (Zsum_with id l) / inject_Z T)%Q.
Proof.
  intros HT. assert (¬ (inject_Z T == 0)%Q) as HT'.
  { unfold Qeq. simpl. lia. }
  induction l as [|c l IH].
  - unfold Qdiv. by rewrite Qmult_0_l.
  - rewrite fmap_cons.
    change (Qsum (?x :: ?k)) with (x + Qsum k)%Q. rewrite IH.
    change (Zsum_with id (c :: l)) with (c + Zsum_with id l).
    rewrite inject_Z_plus. by field.
Qed.

Lemma Zsum_with_elem_in {A} (f : A → Z) l x :
  (∀ y, y ∈ l → 0 ≤ f y) → x ∈ l → f x ≤ Zsum_with f l.
Proof.
  induction l as [|y l IH]; intros Hf Hx; [by apply elem_of_nil in Hx|].
  assert (0 ≤ Zsum_with f l) as Hnn.
  { clear IH Hx. induction l as [|z l IH]; simpl; [lia|].
    pose proof (Hf z ltac:(right; by left)).
    assert (0 ≤ Zsum_with f l); [|lia]. apply IH. intros w Hw.
    apply elem_of_cons in Hw as [->|Hw]; apply Hf;
      [by left|right; by right]. }
  simpl. apply elem_of_cons in Hx as [->|Hx]; [lia|].
  pose proof (Hf y ltac:(by left)).
  assert (f x ≤ Zsum_with f l); [|lia].
  apply IH; [|done]. intros z Hz. apply Hf. by right.
Qed.

Lemma Zsum_with_fmap {A B} (f : B → Z) (g : A → B) l :
  Zsum_with f (g <$> l) = Zsum_with (f ∘ g) l.
Proof.
  induction l as [|x l IH]; [done|].
  change (f (g x) + Zsum_with f (g <$> l) = f (g x) + Zsum_with (f ∘ g) l).
  by rewrite IH.
Qed.

Lemma quantize_distribution pixels max_color cmap :
  quantize pixels max_color = Ok cmap →
  ∃ d, CMap.palette_distribution cmap = Ok d
       ∧ d.*1 = CMap.palette cmap
       ∧ d.*2 = (λ e, inject_Z (VBox.count (CMap.vbox e))
                      / inject_Z (VBox.count
                                    (vbox_from_pixels pixels (get_histo pixels))))%Q
                <$> PQueue.contents (CMap.vboxes cmap)
       ∧ Forall (λ f, 0 <= f <= 1)%Q d.*2
       ∧ (Qsum d.*2 == 1)%Q.
Proof.
  intros (Hall & Hpop & Hpos & _)%quantize_population.
  set (l := PQueue.contents (CMap.vboxes cmap)) in *.
  set (T := VBox.count (vbox_from_pixels pixels (get_histo pixels))) in *.
  assert (foldl Z.add 0 (PQueue.map (λ x, VBox.count (CMap.vbox x))
                                    (CMap.vboxes cmap)) = T) as Htotal.
  { unfold PQueue.map. fold l. rewrite <- Hpop. unfold population.
    rewrite Zsum_with_fmap.
    change (List.map (λ x, VBox.count (CMap.vbox x)) l)
      with ((λ x, VBox.count (CMap.vbox x)) <$> l).
    rewrite (foldl_fmap Z.add 0 l (λ x, VBox.count (CMap.vbox x))).
    rewrite (foldl_add (λ x, VBox.count (CMap.vbox x)) l 0).
    by rewrite Z.add_0_l. }
  assert (T ≠ 0) as HT by lia.
  exists ((λ x, (CMap.color x, (inject_Z (VBox.count (CMap.vbox x)) / inject_Z T)%Q))
            <$> l).
  split; [|split; [|split; [|split]]].
  - unfold CMap.palette_distribution. rewrite Htotal. fold l.
    apply mapM_ok. intros x _. by destruct (Z.eqb_spec T 0).
  - rewrite <- list_fmap_compose. done.
  - rewrite <- list_fmap_compose. done.
  - rewrite <- list_fmap_compose. apply Forall_fmap, Forall_forall.
    intros e He. simpl.
    assert (0 ≤ VBox.count (CMap.vbox e) ≤ T) as [H0 HleT].
    { rewrite <- Hpop. unfold population.
      assert (CMap.vbox e ∈ CMap.vbox <$> l) as Hin
        by (by apply list_elem_of_fmap_2).
      rewrite Forall_forall in Hall. split; [by apply Hall|].
      apply Zsum_with_elem_in; [|done]. intros v Hv. by apply Hall. }
    assert (0 < inject_Z T)%Q as HTq by (rewrite <- (Zlt_Qlt 0); lia).
    split.
    + apply Qle_shift_div_l; [done|]. rewrite Qmult_0_l.
      by rewrite <- (Zle_Qle 0).
    + apply Qle_shift_div_r; [done|]. rewrite Qmult_1_l.
      by rewrite <- Zle_Qle.
  - rewrite <- list_fmap_compose.
    change (snd ∘ _) with ((λ c, inject_Z c / inject_Z T)%Q
                           ∘ (λ e, VBox.count (CMap.vbox e))).
    rewrite list_fmap_compose, Qsum_fractions by done.
    rewrite Zsum_with_fmap. 
    assert (Zsum_with (id ∘ (λ e, VBox.count (CMap.vbox e))) l = T) as ->.
    { rewrite <- Hpop. unfold population. by rewrite Zsum_with_fmap. }
    field. unfold Qeq. simpl. lia.
Qed.

(** X13.  The distribution of a quantized colour map never divides by zero:
    it lists the palette colours in palette order, each with the share of
    its region in the total population, and the shares lie between 0 and 1
    and add up to exactly 1. *)
Theorem distribution_sums_to_one pixels max_color cmap :
  quantize pixels max_color = Ok cmap →
  ∃ d, CMap.palette_distribution cmap = Ok d
       ∧ d.*1 = CMap.palette cmap
       ∧ d.*2 = (λ e, inject_Z (VBox.count (CMap.vbox e))
                      / inject_Z (VBox.count
                                    (vbox_from_pixels pixels (get_histo pixels))))%Q
                <$> PQueue.contents (CMap.vboxes cmap)
       ∧ Forall (λ f, 0 <= f <= 1)%Q d.*2
       ∧ (Qsum d.*2 == 1)%Q.
Proof. apply quantize_distribution. Qed.

Lemma distribution_sums_to_one_witness :
  let pixels := [(0, 0, 0); (8, 0, 0); (16, 0, 0); (24, 0, 0)] in
  let cmap := match quantize pixels 2 with Ok c => c | _ => CMap.new end in
  ∃ d, CMap.palette_distribution cmap = Ok d
       ∧ d.*1 = CMap.palette cmap
       ∧ d.*2 = (λ e, inject_Z (VBox.count (CMap.vbox e))
                      / inject_Z (VBox.count
                                    (vbox_from_pixels pixels (get_histo pixels))))%Q
                <$> PQueue.contents (CMap.vboxes cmap)
       ∧ Forall (λ f, 0 <= f <= 1)%Q d.*2
       ∧ (Qsum d.*2 == 1)%Q.
Proof.
  intros pixels cmap. apply (distribution_sums_to_one pixels 2 cmap).
  vm_compute. reflexivity.
Defined.
End PaletteFacts.

Section DominantFacts.
Import MMCQ.

Lemma split_in_cube histo v v1 o2 :
  box_in_cube v → median_cut_apply histo v = Ok (Some v1, o2) →
  Forall box_in_cube (v1 :: option_list o2).
Proof.
  intros Hv [(_ & -> & ->)|(_ & _ & d2 & Hd2 & -> & ->)]%median_cut_apply_inv;
    simpl; rewrite copy_id; repeat constructor; try done;
    unfold box_in_cube in *; destruct (cut_color v); simpl in *; lia.
Qed.

(** A populated box has no empty range. *)
Lemma count_ranges v :
  VBox.count v ≠ 0 →
  VBox.r1 v ≤ VBox.r2 v ∧ VBox.g1 v ≤ VBox.g2 v ∧ VBox.b1 v ≤ VBox.b2 v.
Proof.
  intros Hc.
  assert (∀ a, dim1 a v ≤ dim2 a v) as Hdim.
  { intros a. destruct (Z.le_gt_cases (dim1 a v) (dim2 a v)); [done|].
    exfalso. apply Hc. rewrite (count_slices a). unfold range.
    by rewrite seqZ_nil by lia. }
  pose proof (Hdim R). pose proof (Hdim G). pose proof (Hdim B). done.
Qed.

Lemma populated_avg_8bit v :
  box_in_cube v → nonneg_histo (VBox.histo v) → VBox.count v ≠ 0 →
  eight_bit (VBox.avg v).
Proof.
  intros Hv Hh Hc. pose proof (count_ranges v Hc).
  unfold box_in_cube in Hv. unfold eight_bit.
  apply (avg_in_range v Hh); lia.
Qed.

Lemma Zsum_with_pos_elem {A} (f : A → Z) l :
  0 < Zsum_with f l → ∃ x, x ∈ l ∧ 0 < f x.
Proof.
  induction l as [|x l IH]; simpl; [lia|]. intros Hpos.
  destruct (Z.lt_ge_cases 0 (f x)).
  - exists x. split; [by left|done].
  - destruct IH as (y & Hy & Hfy); [lia|]. exists y. split; [by right|done].
Qed.

Lemma quantize_populated_8bit pixels max_color cmap :
  quantize pixels max_color = Ok cmap → Forall eight_bit pixels →
  Forall (λ e, CMap.color e = VBox.avg (CMap.vbox e)
               ∧ box_in_cube (CMap.vbox e)
               ∧ (VBox.count (CMap.vbox e) ≠ 0 → eight_bit (CMap.color e)))
         (PQueue.contents (CMap.vboxes cmap)).
Proof.
  intros Hq H8.
  pose proof Hq as (Hh & _)%quantize_population.
  assert (Forall box_in_cube
            (CMap.vbox <$> PQueue.contents (CMap.vboxes cmap))) as Hcube.
  { apply (quantize_invariant (Forall box_in_cube) pixels max_color cmap);
      [| | |done].
    - by intros l l' ->.
    - intros l v v1 o2 Hall Hcut.
      rewrite Forall_app, Forall_singleton in Hall. destruct Hall as [Hl Hv].
      apply Forall_app. split; [done|].
      exact (split_in_cube _ _ _ _ Hv Hcut).
    - apply Forall_singleton. by apply vbox_from_pixels_in_cube. }
  assert (Forall (λ e, CMap.color e = VBox.avg (CMap.vbox e))
                 (PQueue.contents (CMap.vboxes cmap))) as Havg.
  { apply quantize_inv in Hq as (_ & _ & pq & pq2 & _ & _ & ->).
    rewrite foldl_cmap_push_contents. simpl. apply Forall_fmap.
    by apply Forall_forall. }
  rewrite Forall_fmap in Hh, Hcube.
  rewrite Forall_forall in Hh, Hcube, Havg. apply Forall_forall.
  intros e He. specialize (Hh e He) as [Hhe _]. simpl in Hhe.
  specialize (Hcube e He). specialize (Havg e He). simpl in Hcube.
  split; [done|]. split; [done|]. intros Hc. rewrite Havg.
  apply populated_avg_8bit; [done| |done].
  rewrite Hhe. apply get_histo_nonneg.
Qed.

Lemma split_ranges histo v v1 o2 :
  box_ranges v → median_cut_apply histo v = Ok (Some v1, o2) →
  Forall box_ranges (v1 :: option_list o2).
Proof.
  intros Hv [(_ & -> & ->)|(_ & _ & d2 & Hd2 & -> & ->)]%median_cut_apply_inv;
    simpl; rewrite copy_id; repeat constructor; try done;
    unfold box_ranges in *; destruct (cut_color v); simpl in *; lia.
Qed.

(** On 8-bit pixels every colour of the palette has its channels in
    0..256. *)
Lemma quantize_colours_bounded pixels max_color cmap :
  quantize pixels max_color = Ok cmap → Forall eight_bit pixels →
  Forall (λ e, palette_colour (CMap.color e))
         (PQueue.contents (CMap.vboxes cmap)).
Proof.
  intros Hq H8.
  pose proof (quantize_populated_8bit _ _ _ Hq H8) as Hpop.
  assert (pixels ≠ []) as Hne.
  { intros ->. by vm_compute in Hq. }
  assert (Forall box_ranges
            (CMap.vbox <$> PQueue.contents (CMap.vboxes cmap))) as Hr.
  { apply (quantize_invariant (Forall box_ranges) pixels max_color cmap);
      [| | |done].
    - by intros l l' ->.
    - intros l v v1 o2 Hall Hcut.
      rewrite Forall_app, Forall_singleton in Hall. destruct Hall as [Hl Hv].
      apply Forall_app. split; [done|].
      exact (split_ranges _ _ _ _ Hv Hcut).
    - apply Forall_singleton.
      pose proof (vbox_from_pixels_valid pixels Hne H8) as Hv.
      cbn zeta in Hv. unfold box_ranges. lia. }
  rewrite Forall_fmap in Hr. rewrite Forall_forall in Hr, Hpop.
  apply Forall_forall. intros e He.
  destruct (Hpop e He) as (Havg & _ & Hc). specialize (Hr e He).
  destruct (decide (VBox.count (CMap.vbox e) = 0)) as [H0|H0].
  - rewrite Havg, (avg_empty_midpoint _ H0).
    unfold box_ranges in Hr. simpl in Hr. unfold palette_colour. lia.
  - specialize (Hc H0). destruct (CMap.color e) as [[r g] b].
    unfold eight_bit in Hc. unfold palette_colour. lia.
Qed.

(** X14.  On 8-bit pixels every retained region lies inside the reduced
    cube, and the colour of every populated region is an 8-bit colour. *)
Theorem populated_colours_8bit pixels max_color cmap :
  quantize pixels max_color = Ok cmap → Forall eight_bit pixels →
  Forall (λ e, CMap.color e = VBox.avg (CMap.vbox e)
               ∧ box_in_cube (CMap.vbox e)
               ∧ (VBox.count (CMap.vbox e) ≠ 0 → eight_bit (CMap.color e)))
         (PQueue.contents (CMap.vboxes cmap)).
Proof. apply quantize_populated_8bit. Qed.

Lemma populated_colours_8bit_witness :
  let pixels := [(255, 0, 0); (255, 0, 0)] in
  let cmap := match quantize pixels 2 with Ok c => c | _ => CMap.new end in
  Forall (λ e, CMap.color e = VBox.avg (CMap.vbox e)
               ∧ box_in_cube (CMap.vbox e)
               ∧ (VBox.count (CMap.vbox e) ≠ 0 → eight_bit (CMap.color e)))
         (PQueue.contents (CMap.vboxes cmap)).
Proof.
  intros pixels cmap. apply (populated_colours_8bit pixels 2 cmap).
  - vm_compute. reflexivity.
  - repeat constructor; unfold eight_bit; lia.
Defined.
End DominantFacts.

Section DominantColour.
Import MMCQ.

Lemma volume_pos v :
  VBox.r1 v ≤ VBox.r2 v → VBox.g1 v ≤ VBox.g2 v → VBox.b1 v ≤ VBox.b2 v →
  1 ≤ VBox.volume v.
Proof.
  intros Hr Hg Hb. unfold VBox.volume. cbn zeta.
  assert (1 ≤ (VBox.r2 v - VBox.r1 v + 1) * (VBox.g2 v - VBox.g1 v + 1)) by nia.
  nia.
Qed.

Lemma quantize_dominant pixels max_color cmap :
  quantize pixels max_color = Ok cmap → Forall eight_bit pixels →
  ∃ e rest, PQueue.contents (CMap.vboxes cmap) = e :: rest
            ∧ Forall (λ e', cmap_key e' ≤ cmap_key e) rest
            ∧ 0 < VBox.count (CMap.vbox e)
            ∧ eight_bit (CMap.color e).
Proof.
  intros Hq H8.
  pose proof (quantize_populated_8bit _ _ _ Hq H8) as Hall.
  pose proof Hq as (Hh & _ & Hpos & _)%quantize_population.
  pose proof Hq as (_ & _ & Hdesc)%quantize_cmap.
  destruct (PQueue.contents (CMap.vboxes cmap)) as [|e rest] eqn:Hc.
  { unfold population in Hpos. simpl in Hpos. lia. }
  exists e, rest. split; [done|].
  apply StronglySorted_inv in Hdesc as [_ Hmax].
  split; [exact Hmax|].
  assert (∀ e', e' ∈ e :: rest → 0 ≤ VBox.count (CMap.vbox e')) as Hnn.
  { intros e' He'. rewrite Forall_fmap, Forall_forall in Hh.
    by apply Hh. }
  assert (∀ e', e' ∈ e :: rest → VBox.count (CMap.vbox e') ≠ 0 →
                1 ≤ cmap_key e') as Hkey.
  { intros e' He' Hne. unfold cmap_key.
    pose proof (count_ranges _ Hne) as (? & ? & ?).
    pose proof (volume_pos (CMap.vbox e') ltac:(done) ltac:(done) ltac:(done)).
    pose proof (Hnn e' He'). nia. }
  unfold population in Hpos. rewrite Zsum_with_fmap in Hpos.
  apply Zsum_with_pos_elem in Hpos as (e' & He' & Hpos'). simpl in Hpos'.
  assert (1 ≤ cmap_key e) as Hke.
  { pose proof (Hkey e' He' ltac:(lia)).
    apply elem_of_cons in He' as [->|He']; [done|].
    rewrite Forall_forall in Hmax. specialize (Hmax e' He').
    unfold flip, key_le in Hmax. lia. }
  assert (VBox.count (CMap.vbox e) ≠ 0) as Hce.
  { intros H0. unfold cmap_key in Hke. rewrite H0 in Hke. lia. }
  pose proof (Hnn e ltac:(by left)).
  split; [lia|].
  rewrite Forall_forall in Hall. by apply (Hall e ltac:(by left)).
Qed.

(** X15.  On 8-bit pixels the first entry of the palette, which [get_color]
    returns, belongs to a populated region with the largest population times
    volume, and is an 8-bit colour. *)
Theorem dominant_entry pixels max_color cmap :
  quantize pixels max_color = Ok cmap → Forall eight_bit pixels →
  ∃ e rest, PQueue.contents (CMap.vboxes cmap) = e :: rest
            ∧ Forall (λ e', cmap_key e' ≤ cmap_key e) rest
            ∧ 0 < VBox.count (CMap.vbox e)
            ∧ eight_bit (CMap.color e).
Proof. apply quantize_dominant. Qed.

Lemma dominant_entry_witness :
  let pixels := [(0, 0, 0); (8, 0, 0); (16, 0, 0); (24, 0, 0)] in
  let cmap := match quantize pixels 2 with Ok c => c | _ => CMap.new end in
  ∃ e rest, PQueue.contents (CMap.vboxes cmap) = e :: rest
            ∧ Forall (λ e', cmap_key e' ≤ cmap_key e) rest
            ∧ 0 < VBox.count (CMap.vbox e)
            ∧ eight_bit (CMap.color e).
Proof.
  intros pixels cmap. apply (dominant_entry pixels 2 cmap).
  - vm_compute. reflexivity.
  - repeat constructor; unfold eight_bit; lia.
Defined.
End DominantColour.

(** ** Lookups in the colour map *)

Section LookupResults.

(** What the scan of [map] finds: the colour of the first entry, in
    ascending order, whose box contains the pixel. *)
Lemma map_loop_found idxs q color0 found q' :
  (∀ i, i ∈ idxs → 0 ≤ i < PQueue.size q) →
  CMap.map_loop idxs q color0 = Ok (found, q') →
  match found with
  | Some col =>
      ∃ i e, i ∈ idxs ∧ ordered q !! Z.to_nat i = Some e
             ∧ VBox.contains (CMap.vbox e) color0 ∧ col = CMap.color e
  | None =>
      ∀ i e, i ∈ idxs → ordered q !! Z.to_nat i = Some e →
             ¬ VBox.contains (CMap.vbox e) color0
  end.
Proof.
  revert q. induction idxs as [|i idxs IH]; intros q Hin.
  { intros [= <- <-]. intros i e Hi. by apply elem_of_nil in Hi. }
  assert (∀ j, j ∈ idxs → 0 ≤ j < PQueue.size (settle q)) as Hin'.
  { intros j Hj. rewrite size_settle. apply Hin. by right. }
  unfold CMap.map_loop; fold CMap.map_loop.
  destruct (peek_lookup q i) as (x & Hx & ->); [apply Hin; by left|].
  cbn [mbind result_bind].
  destruct (VBox.contains (CMap.vbox x) color0) eqn:Hc.
  - intros [= <- <-]. exists i, x. split; [by left|]. split; [done|].
    split; [by apply Is_true_true|done].
  - intros Hrec. specialize (IH (settle q) Hin' Hrec).
    rewrite ordered_settle in IH. destruct found as [col|].
    + destruct IH as (j & e & Hj & He & Hcont & ->).
      exists j, e. split; [by right|done].
    + intros j e [->|Hj]%elem_of_cons He.
      * rewrite Hx in He. injection He as <-. by apply Is_true_false.
      * by apply (IH j e).
Qed.

(** The order of floats that are numbers and not below zero. *)
Lemma ltb_finite m1 e1 m2 e2 :
  Float64.ltb (SpecFloat.S754_finite false m1 e1)
              (SpecFloat.S754_finite false m2 e2) = true
  ↔ e1 < e2 ∨ (e1 = e2 ∧ (m1 < m2)%positive).
Proof.
  unfold Float64.ltb, SpecFloat.SFltb, SpecFloat.SFcompare.
  change (Pos.compare_cont Eq m1 m2) with (Pos.compare m1 m2).
  destruct (Z.compare_spec e1 e2); [|split; [lia|done]|split; [done|lia]].
  destruct (Pos.compare_spec m1 m2); split; try done; lia.
Qed.

Lemma ltb_neg_trans x y z :
  not_negative x = true → not_negative y = true → not_negative z = true →
  Float64.ltb x z = true → Float64.ltb x y = true ∨ Float64.ltb y z = true.
Proof.
  destruct x as [[|]|[|]| |[|] mx ex], y as [[|]|[|]| |[|] my ey],
           z as [[|]|[|]| |[|] mz ez]; try done; intros _ _ _;
    try (by left); try (by right).
  rewrite !ltb_finite. lia.
Qed.

Lemma ltb_asym x y :
  not_negative x = true → not_negative y = true →
  Float64.ltb x y = true → Float64.ltb y x = false.
Proof.
  destruct x as [[|]|[|]| |[|] mx ex], y as [[|]|[|]| |[|] my ey];
    try done; intros _ _.
  intros Hlt. apply not_true_iff_false. revert Hlt.
  rewrite !ltb_finite. lia.
Qed.

(** The two steps of the running minimum: a new minimum is below what the
    old one was below, and a distance that is not a new minimum stays above
    the final one. *)
Lemma ltb_lower x y z :
  not_negative x = true → not_negative y = true → not_negative z = true →
  Float64.ltb x y = true → Float64.ltb x z = false →
  Float64.ltb y z = false.
Proof.
  intros Hx Hy Hz Hxy Hxz. apply not_true_iff_false. intros Hyz.
  destruct (ltb_neg_trans x z y Hx Hz Hy Hxy) as [H|H]; [congruence|].
  pose proof (ltb_asym _ _ Hz Hy H). congruence.
Qed.

Lemma ltb_keep x y z :
  not_negative x = true → not_negative y = true → not_negative z = true →
  Float64.ltb x y = false → Float64.ltb y z = false →
  Float64.ltb x z = false.
Proof.
  intros Hx Hy Hz Hxy Hyz. apply not_true_iff_false. intros Hxz.
  destruct (ltb_neg_trans x y z Hx Hy Hz Hxz); congruence.
Qed.

(** The invariant of the scan of [nearest]: the running minimum of the
    computed distances. *)
Lemma nearest_loop_min idxs q color0 d1 pc r q' :
  (∀ i, i ∈ idxs → 0 ≤ i < PQueue.size q) →
  match d1 with Some d => not_negative d = true | None => True end →
  CMap.nearest_loop idxs q color0 d1 pc = Ok (r, q') →
  ∃ dfin : option Float64.float,
    match dfin with Some d => not_negative d = true | None => True end
    ∧ match d1 with
      | Some d => ∃ d', dfin = Some d' ∧ Float64.ltb d d' = false
      | None => True
      end
    ∧ (∀ i e, i ∈ idxs → ordered q !! Z.to_nat i = Some e →
              ∃ d' de, dfin = Some d'
                       ∧ CMap.dist color0 (CMap.color e) = Ok de
                       ∧ Float64.ltb de d' = false)
    ∧ ((dfin = d1 ∧ r = pc)
       ∨ ∃ i e d', i ∈ idxs ∧ ordered q !! Z.to_nat i = Some e
                   ∧ CMap.dist color0 (CMap.color e) = Ok d'
                   ∧ dfin = Some d'
                   ∧ r = Some (CMap.color e)).
Proof.
  revert q d1 pc. induction idxs as [|i idxs IH]; intros q d1 pc Hin Hd1.
  { intros [= <- <-]. exists d1. split; [done|]. split.
    { destruct d1 as [d|]; [|done]. exists d. split; [done|].
      destruct (Float64.ltb d d) eqn:Hdd; [|done].
      by rewrite (ltb_asym d d Hd1 Hd1 Hdd) in Hdd. }
    split; [intros i e Hi; by apply elem_of_nil in Hi|by left]. }
  assert (∀ j, j ∈ idxs → 0 ≤ j < PQueue.size (settle q)) as Hin'.
  { intros j Hj. rewrite size_settle. apply Hin. by right. }
  unfold CMap.nearest_loop; fold CMap.nearest_loop.
  destruct (peek_lookup q i) as (x & Hx & ->); [apply Hin; by left|].
  cbn [mbind result_bind].
  destruct (CMap.dist color0 (CMap.color x)) as [d2| |] eqn:Hd2; try done.
  cbn [mbind result_bind].
  pose proof (dist_not_negative _ _ _ Hd2) as Hnn2.
  destruct (match d1 with Some d => Float64.ltb d2 d | None => true end)
    eqn:Hlt.
  - intros Hrec.
    destruct (IH (settle q) (Some d2) (Some (CMap.color x)) Hin' Hnn2 Hrec)
      as (dfin & Hnn & (d' & -> & Hd') & Hall & Hres).
    rewrite ordered_settle in Hall, Hres.
    exists (Some d'). split; [done|]. split.
    { destruct d1 as [d|]; [|done]. exists d'. split; [done|].
      by apply (ltb_lower d2 d d'). }
    split.
    { intros j e [->|Hj]%elem_of_cons He.
      - rewrite Hx in He. injection He as <-. by exists d', d2.
      - by apply (Hall j e). }
    right. destruct Hres as [[[= ->] ->]|(j & e & d'' & Hj & He & Hd & ? & ->)].
    + exists i, x, d2. split; [by left|done].
    + exists j, e, d''. split; [by right|done].
  - destruct d1 as [d|]; [|done].
    intros Hrec.
    destruct (IH (settle q) (Some d) pc Hin' Hd1 Hrec)
      as (dfin & Hnn & (d' & -> & Hd') & Hall & Hres).
    rewrite ordered_settle in Hall, Hres.
    exists (Some d'). split; [done|]. split; [by exists d'|]. split.
    { intros j e [->|Hj]%elem_of_cons He.
      - rewrite Hx in He. injection He as <-. exists d', d2.
        split; [done|]. split; [done|]. by apply (ltb_keep d2 d d').
      - by apply (Hall j e). }
    destruct Hres as [[-> ->]|(j & e & d'' & Hj & He & Hd & ? & ->)];
      [by left|].
    right. exists j, e, d''. split; [by right|done].
Qed.

(** What [nearest] returns, when it returns. *)
Lemma nearest_minimal c color0 r c' :
  CMap.nearest c color0 = Ok (r, c') →
  let entries := PQueue.contents (CMap.vboxes c) in
  (entries = [] ∧ r = None)
  ∨ ∃ e d, e ∈ entries ∧ r = Some (CMap.color e)
           ∧ CMap.dist color0 (CMap.color e) = Ok d
           ∧ ∀ e', e' ∈ entries →
               ∃ d', CMap.dist color0 (CMap.color e') = Ok d'
                     ∧ Float64.ltb d' d = false.
Proof.
  unfold CMap.nearest.
  destruct (CMap.nearest_loop _ _ _ _ _) as [[p q]| |] eqn:Hloop; try done.
  simpl. intros [= <- <-].
  apply nearest_loop_min in Hloop as (dfin & _ & _ & Hall & Hres);
    [|apply range_size|done].
  assert (∀ e, e ∈ PQueue.contents (CMap.vboxes c) →
            ∃ i, i ∈ range 0 (PQueue.size (CMap.vboxes c))
                 ∧ ordered (CMap.vboxes c) !! Z.to_nat i = Some e) as Hidx.
  { intros e He. rewrite <- ordered_perm in He.
    apply list_elem_of_lookup in He as [n Hn].
    exists (Z.of_nat n). rewrite Nat2Z.id. split; [|done].
    apply lookup_lt_Some in Hn. rewrite ordered_length in Hn.
    unfold range, PQueue.size. apply elem_of_seqZ. lia. }
  destruct (decide (PQueue.contents (CMap.vboxes c) = [])) as [Hnil|Hne];
    [left|right].
  - split; [done|]. destruct Hres as [[_ ->]|(i & e & d' & Hi & _)]; [done|].
    exfalso. unfold range, PQueue.size in Hi. rewrite Hnil in Hi.
    simpl in Hi. by apply elem_of_nil in Hi.
  - destruct Hres as [[-> ->]|(i & e & d & Hi & He & Hd & -> & ->)].
    + destruct (PQueue.contents (CMap.vboxes c)) as [|e0 rest] eqn:Hc;
        [done|].
      destruct (Hidx e0 ltac:(by left)) as (i & Hi & He0).
      by destruct (Hall i e0 Hi He0) as (d' & de & [=] & _).
    + exists e, d. split.
      { rewrite <- ordered_perm. by eapply list_elem_of_lookup_2. }
      split; [done|]. split; [done|]. intros e' He'.
      destruct (Hidx e' He') as (j & Hj & He'').
      destruct (Hall j e' Hj He'') as (d' & de & [= <-] & Hde & Hle).
      by exists de.
Qed.

End LookupResults.

(** ** Distances between small colours are exact *)

Section FloatExact.

Lemma digits2_pos_size p : SpecFloat.digits2_pos p = Pos.size p.
Proof. induction p as [p IH|p IH|]; simpl; by rewrite ?IH. Qed.

Lemma Zdigits2_log2 p :
  SpecFloat.Zdigits2 (Z.pos p) = Z.log2 (Z.pos p) + 1.
Proof.
  unfold SpecFloat.Zdigits2. rewrite digits2_pos_size.
  destruct p as [p|p|]; cbn [Z.log2 Pos.size]; lia.
Qed.

Lemma pos_iter_xO p k : Z.pos (Pos.iter xO p k) = Z.pos p * 2 ^ Z.pos k.
Proof.
  induction k as [|k IH] using Pos.peano_ind.
  - simpl. lia.
  - rewrite Pos.iter_succ, Pos2Z.inj_succ, Z.pow_succ_r by lia.
    rewrite Pos2Z.inj_xO, IH. lia.
Qed.

Lemma shr_1_even N :
  0 < N →
  SpecFloat.shr_1 (SpecFloat.Build_shr_record (2 * N) false false)
  = SpecFloat.Build_shr_record N false false.
Proof. by destruct N. Qed.

Lemma iter_pos_shr_1_exact p N :
  0 < N →
  SpecFloat.iter_pos SpecFloat.shr_1 p
    (SpecFloat.Build_shr_record (N * 2 ^ Z.pos p) false false)
  = SpecFloat.Build_shr_record N false false.
Proof.
  revert N. induction p as [p IH|p IH|]; intros N HN;
    cbn [SpecFloat.iter_pos].
  - replace (N * 2 ^ Z.pos p~1)
      with (2 * (N * 2 ^ Z.pos p * 2 ^ Z.pos p)).
    2:{ replace (Z.pos p~1) with (Z.pos p + Z.pos p + 1) by lia.
        rewrite !Z.pow_add_r by lia. ring. }
    rewrite shr_1_even by (assert (0 < 2 ^ Z.pos p) by lia; nia).
    rewrite IH by (assert (0 < 2 ^ Z.pos p) by lia; nia). by apply IH.
  - replace (N * 2 ^ Z.pos p~0) with (N * 2 ^ Z.pos p * 2 ^ Z.pos p).
    2:{ replace (Z.pos p~0) with (Z.pos p + Z.pos p) by lia.
        rewrite Z.pow_add_r by lia. ring. }
    rewrite IH by (assert (0 < 2 ^ Z.pos p) by lia; nia). by apply IH.
  - replace (N * 2 ^ 1) with (2 * N) by lia. by apply shr_1_even.
Qed.

(** A mantissa of 53 bits times a power of two is shifted back without
    loss. *)
Lemma shr_fexp_exact m j e :
  0 < m → Z.log2 m = 52 → 0 ≤ j → -1074 ≤ e + j →
  SpecFloat.shr_fexp Float64.prec Float64.emax (m * 2 ^ j) e
                     SpecFloat.loc_Exact
  = (SpecFloat.Build_shr_record m false false, e + j).
Proof.
  intros Hm Hlog Hj He. unfold SpecFloat.shr_fexp.
  assert (SpecFloat.Zdigits2 (m * 2 ^ j) = 53 + j) as ->.
  { assert (0 < m * 2 ^ j) as Hpos by (assert (0 < 2 ^ j) by lia; nia).
    destruct (m * 2 ^ j) as [|q|q] eqn:Hq; try lia.
    rewrite Zdigits2_log2, <- Hq, Z.log2_mul_pow2 by lia. lia. }
  unfold SpecFloat.fexp, SpecFloat.emin, Float64.prec, Float64.emax.
  replace (Z.max (53 + j + e - 53) (3 - 1024 - 53) - e) with j by lia.
  unfold SpecFloat.shr, SpecFloat.shr_record_of_loc.
  destruct j as [|pj|pj]; [|by rewrite iter_pos_shr_1_exact|lia].
  f_equal; [f_equal|]; lia.
Qed.

Lemma binary_round_aux_exact s m j e :
  0 < m → Z.log2 m = 52 → 0 ≤ j → -1074 ≤ e + j ≤ 971 →
  SpecFloat.binary_round_aux Float64.prec Float64.emax s
                             (m * 2 ^ j) e SpecFloat.loc_Exact
  = SpecFloat.S754_finite s (Z.to_pos m) (e + j).
Proof.
  intros Hm Hlog Hj He. unfold SpecFloat.binary_round_aux.
  rewrite shr_fexp_exact by lia.
  cbn [SpecFloat.shr_m SpecFloat.loc_of_shr_record
       SpecFloat.round_nearest_even].
  pose proof (shr_fexp_exact m 0 (e + j) Hm Hlog ltac:(lia) ltac:(lia))
    as H0.
  rewrite Z.pow_0_r, Z.mul_1_r, Z.add_0_r in H0. rewrite H0.
  cbn [SpecFloat.shr_m]. destruct m as [|q|q]; try lia.
  unfold Float64.emax, Float64.prec.
  destruct (Z.leb_spec (e + j) (1024 - 53)); [done|lia].
Qed.

Lemma shl_align_down mx ex ex' :
  ex' ≤ ex →
  SpecFloat.shl_align mx ex ex'
  = (Z.to_pos (Z.pos mx * 2 ^ (ex - ex')), ex').
Proof.
  intros Hle. unfold SpecFloat.shl_align.
  destruct (ex' - ex) as [|k|k] eqn:Hk; [|lia|].
  - replace (ex - ex') with 0 by lia. rewrite Z.mul_1_r. simpl.
    f_equal. lia.
  - replace (ex - ex') with (Z.pos k) by lia.
    by rewrite <- pos_iter_xO, Pos2Z.id.
Qed.

Lemma shl_align_up mx ex ex' :
  ex ≤ ex' → SpecFloat.shl_align mx ex ex' = (mx, ex).
Proof.
  intros Hle. unfold SpecFloat.shl_align.
  by destruct (ex' - ex) as [|k|k] eqn:Hk; [| |lia].
Qed.

Lemma canon_mantissa n :
  0 < n → Z.log2 n ≤ 52 →
  0 < n * 2 ^ (52 - Z.log2 n) ∧ Z.log2 (n * 2 ^ (52 - Z.log2 n)) = 52.
Proof.
  intros Hn Hl. split.
  - assert (0 < 2 ^ (52 - Z.log2 n)) by (apply Z.pow_pos_nonneg; lia). nia.
  - rewrite Z.log2_mul_pow2 by lia. lia.
Qed.

Lemma binary_round_canon s p e n :
  0 < n → Z.log2 n ≤ 52 → e ≤ 0 → Z.pos p = n * 2 ^ (- e) →
  SpecFloat.binary_round Float64.prec Float64.emax s p e
  = with_sign s (canon n).
Proof.
  intros Hn Hl He Hp. unfold SpecFloat.binary_round.
  assert (Z.pos (SpecFloat.digits2_pos p) = Z.log2 n + 1 - e) as Hd.
  { change (Z.pos (SpecFloat.digits2_pos p))
      with (SpecFloat.Zdigits2 (Z.pos p)).
    rewrite Zdigits2_log2, Hp, Z.log2_mul_pow2 by lia. lia. }
  rewrite Hd.
  unfold SpecFloat.fexp, SpecFloat.emin, Float64.prec, Float64.emax.
  pose proof (Z.log2_nonneg n) as Hl0.
  replace (Z.max (Z.log2 n + 1 - e + e - 53) (3 - 1024 - 53))
    with (Z.log2 n - 52) by lia.
  destruct (canon_mantissa n Hn Hl) as [Hm Hlog].
  unfold canon. destruct (Z.eqb_spec n 0); [lia|]. cbn [with_sign].
  destruct (Z.le_gt_cases (Z.log2 n - 52) e) as [Hcase|Hcase].
  - rewrite shl_align_down by done. rewrite Hp.
    replace (n * 2 ^ (- e) * 2 ^ (e - (Z.log2 n - 52)))
      with (n * 2 ^ (52 - Z.log2 n)).
    2:{ rewrite <- Z.mul_assoc, <- Z.pow_add_r by lia. f_equal. f_equal. lia. }
    rewrite Z2Pos.id by done.
    pose proof (binary_round_aux_exact s _ 0 (Z.log2 n - 52) Hm Hlog
                  ltac:(lia) ltac:(lia)) as Haux.
    rewrite Z.pow_0_r, Z.mul_1_r, Z.add_0_r in Haux. exact Haux.
  - rewrite shl_align_up by lia. rewrite Hp.
    replace (n * 2 ^ (- e))
      with (n * 2 ^ (52 - Z.log2 n) * 2 ^ (Z.log2 n - 52 - e)).
    2:{ rewrite <- Z.mul_assoc, <- Z.pow_add_r by lia. f_equal. f_equal. lia. }
    rewrite (binary_round_aux_exact s _ _ e Hm Hlog) by lia.
    f_equal. lia.
Qed.

Lemma add_canon a b :
  0 ≤ a → 0 ≤ b → a + b < 2 ^ 53 →
  Float64.add (canon a) (canon b) = canon (a + b).
Proof.
  intros Ha Hb Hab. unfold canon at 1 2.
  destruct (Z.eqb_spec a 0) as [->|Ha0], (Z.eqb_spec b 0) as [->|Hb0];
    try done.
  - rewrite Z.add_0_l. unfold canon. by destruct (Z.eqb_spec b 0).
  - rewrite Z.add_0_r. unfold canon. by destruct (Z.eqb_spec a 0).
  - assert (Z.log2 a ≤ 52 ∧ Z.log2 b ≤ 52) as [Hla Hlb].
    { split; [assert (Z.log2 a < 53)|assert (Z.log2 b < 53)]; try lia;
        apply Z.log2_lt_pow2; lia. }
    assert (Z.log2 (a + b) ≤ 52) as Hlab.
    { assert (Z.log2 (a + b) < 53); [|lia]. apply Z.log2_lt_pow2; lia. }
    destruct (canon_mantissa a ltac:(lia) Hla) as [Hma _].
    destruct (canon_mantissa b ltac:(lia) Hlb) as [Hmb _].
    unfold Float64.add, SpecFloat.SFadd, SpecFloat.cond_Zopp.
    set (ez := Z.min (Z.log2 a - 52) (Z.log2 b - 52)).
    rewrite !shl_align_down by lia. cbn [fst].
    rewrite (Z2Pos.id (a * 2 ^ (52 - Z.log2 a))) by done.
    rewrite (Z2Pos.id (b * 2 ^ (52 - Z.log2 b))) by done.
    rewrite !Z2Pos.id
      by (apply Z.mul_pos_pos; [done|apply Z.pow_pos_nonneg; lia]).
    replace (a * 2 ^ (52 - Z.log2 a) * 2 ^ (Z.log2 a - 52 - ez)
             + b * 2 ^ (52 - Z.log2 b) * 2 ^ (Z.log2 b - 52 - ez))
      with ((a + b) * 2 ^ (- ez)).
    2:{ rewrite <- !Z.mul_assoc, <- !Z.pow_add_r by lia.
        replace (52 - Z.log2 a + (Z.log2 a - 52 - ez)) with (- ez) by lia.
        replace (52 - Z.log2 b + (Z.log2 b - 52 - ez)) with (- ez) by lia.
        ring. }
    assert (0 < (a + b) * 2 ^ (- ez)) as Hpos.
    { apply Z.mul_pos_pos; [lia|apply Z.pow_pos_nonneg; lia]. }
    destruct ((a + b) * 2 ^ (- ez)) as [|p|p] eqn:Hp; try lia.
    unfold SpecFloat.binary_normalize.
    rewrite (binary_round_canon false p ez (a + b)); [|lia|done|lia|done].
    unfold canon. by destruct (Z.eqb_spec (a + b) 0).
Qed.

(** The square of a small integer is computed exactly. *)
Lemma pow_2_exact n :
  n * n < 2 ^ 53 → Float64.pow_2 n = Ok (canon (n * n)).
Proof.
  intros Hn. unfold Float64.pow_2, Float64.of_int.
  destruct (Z.eq_dec n 0) as [->|Hn0]; [done|].
  assert (0 < Z.abs n) as Habs by lia.
  assert (Z.abs n * Z.abs n = n * n) as Hsq by lia.
  assert (Z.log2 (Z.abs n) ≤ 52) as Hl.
  { assert (Z.log2 (Z.abs n) < 53); [|lia]. apply Z.log2_lt_pow2; [lia|].
    nia. }
  assert (∃ s, SpecFloat.binary_normalize Float64.prec Float64.emax n 0 false
               = with_sign s (canon (Z.abs n))) as [s ->].
  { destruct n as [|p|p]; [done|exists false|exists true];
      unfold SpecFloat.binary_normalize;
      (apply binary_round_canon;
       [lia|exact Hl|lia|change (- 0) with 0; rewrite Z.pow_0_r; lia]). }
  unfold canon at 1. destruct (Z.eqb_spec (Z.abs n) 0); [lia|].
  cbn [with_sign mbind result_bind]. unfold SpecFloat.SFmul.
  rewrite xorb_nilpotent.
  destruct (canon_mantissa (Z.abs n) Habs Hl) as [Hm _].
  destruct (canon_mantissa (n * n) ltac:(nia)) as [Hm2 Hlog2].
  { assert (Z.log2 (n * n) < 53); [|lia]. apply Z.log2_lt_pow2; nia. }
  pose proof (Z.log2_nonneg (Z.abs n)) as Hl0.
  assert (2 * Z.log2 (Z.abs n) ≤ Z.log2 (n * n)) as Hl2.
  { apply Z.log2_le_pow2; [nia|].
    replace (2 * Z.log2 (Z.abs n))
      with (Z.log2 (Z.abs n) + Z.log2 (Z.abs n)) by lia.
    rewrite Z.pow_add_r by lia.
    pose proof (Z.log2_spec (Z.abs n) Habs) as [Hlo _].
    assert (0 < 2 ^ Z.log2 (Z.abs n)) by (apply Z.pow_pos_nonneg; lia).
    nia. }
  assert (Z.log2 (n * n) ≤ 52) as Hl2'.
  { assert (Z.log2 (n * n) < 53); [|lia]. apply Z.log2_lt_pow2; nia. }
  rewrite Pos2Z.inj_mul, Z2Pos.id by done.
  replace (Z.abs n * 2 ^ (52 - Z.log2 (Z.abs n))
           * (Z.abs n * 2 ^ (52 - Z.log2 (Z.abs n))))
    with (n * n * 2 ^ (52 - Z.log2 (n * n))
          * 2 ^ (52 - 2 * Z.log2 (Z.abs n) + Z.log2 (n * n))).
  2:{ rewrite <- Hsq at 1.
      rewrite <- (Z.mul_assoc _ (2 ^ _) (2 ^ _)), <- Z.pow_add_r by lia.
      replace (52 - Z.log2 (n * n)
               + (52 - 2 * Z.log2 (Z.abs n) + Z.log2 (n * n)))
        with (52 - Z.log2 (Z.abs n) + (52 - Z.log2 (Z.abs n))) by lia.
      rewrite Z.pow_add_r by lia. ring. }
  rewrite binary_round_aux_exact by lia.
  unfold canon. destruct (Z.eqb_spec (n * n) 0); [nia|].
  do 2 f_equal. lia.
Qed.

End FloatExact.

Section SqrtExact.

Lemma Zdigits2_pos_log2 x : 0 < x → SpecFloat.Zdigits2 x = Z.log2 x + 1.
Proof. destruct x as [|p|p]; try lia. intros _. apply Zdigits2_log2. Qed.

Lemma shr_record_of_loc_m m l :
  SpecFloat.shr_m (SpecFloat.shr_record_of_loc m l) = m.
Proof. by destruct l as [|[| |]]. Qed.

Lemma loc_of_shr_record_of_loc m l :
  SpecFloat.loc_of_shr_record (SpecFloat.shr_record_of_loc m l) = l.
Proof. by destruct l as [|[| |]]. Qed.

Lemma round_nearest_even_bounds m l :
  m ≤ SpecFloat.round_nearest_even m l ≤ m + 1.
Proof.
  destruct l as [|[| |]]; simpl; try lia. destruct (Z.even m); lia.
Qed.

(** A mantissa of 53 bits is rounded in place when the rounding does not
    carry. *)
Lemma binary_round_aux_round q e l :
  2 ^ 52 ≤ q → SpecFloat.round_nearest_even q l < 2 ^ 53 →
  -1074 ≤ e ≤ 971 →
  SpecFloat.binary_round_aux Float64.prec Float64.emax false q e l
  = SpecFloat.S754_finite false
      (Z.to_pos (SpecFloat.round_nearest_even q l)) e.
Proof.
  intros Hq Hr He. pose proof (round_nearest_even_bounds q l) as Hb.
  assert (Z.log2 q = 52) as Hlq.
  { apply Z.log2_unique; lia. }
  unfold SpecFloat.binary_round_aux.
  assert (SpecFloat.shr_fexp Float64.prec Float64.emax q e l
          = (SpecFloat.shr_record_of_loc q l, e)) as ->.
  { unfold SpecFloat.shr_fexp. rewrite Zdigits2_pos_log2, Hlq by lia.
    unfold SpecFloat.fexp, SpecFloat.emin, Float64.prec, Float64.emax.
    replace (Z.max (52 + 1 + e - 53) (3 - 1024 - 53) - e) with 0 by lia.
    done. }
  rewrite shr_record_of_loc_m, loc_of_shr_record_of_loc.
  set (q' := SpecFloat.round_nearest_even q l) in *.
  assert (Z.log2 q' = 52) as Hlq' by (apply Z.log2_unique; lia).
  pose proof (shr_fexp_exact q' 0 e ltac:(lia) Hlq' ltac:(lia) ltac:(lia))
    as H0.
  rewrite Z.pow_0_r, Z.mul_1_r, Z.add_0_r in H0. rewrite H0.
  cbn [SpecFloat.shr_m]. destruct q' as [|p|p]; try lia.
  unfold Float64.emax, Float64.prec.
  destruct (Z.leb_spec e (1024 - 53)); [done|lia].
Qed.

(** The root of the float of a positive integer below 2^50: the integer
    root of the integer scaled by a power of four, rounded by at most
    one. *)
Lemma sqrt_canon n :
  0 < n < 2 ^ 50 →
  let T := 52 - Z.log2 n / 2 in
  let q := Z.sqrt (n * 2 ^ (2 * T)) in
  ∃ q', Float64.sqrt (canon n)
        = Ok (SpecFloat.S754_finite false (Z.to_pos q') (- T))
        ∧ q ≤ q' ≤ q + 1 ∧ 2 ^ 52 ≤ q ∧ q + 1 < 2 ^ 53.
Proof.
  intros Hn T q.
  assert (Z.log2 n < 50) as Hl by (apply Z.log2_lt_pow2; lia).
  pose proof (Z.log2_nonneg n) as Hl0.
  destruct (Z.log2_spec n ltac:(lia)) as [Hlo Hhi].
  assert (0 ≤ Z.log2 n / 2 ≤ 24) as HT
    by (Z.to_euclidean_division_equations; lia).
  assert (0 < 2 ^ (2 * T)) as HP by (apply Z.pow_pos_nonneg; lia).
  assert (2 ^ 56 ≤ 2 ^ (2 * T)) as HP56
    by (apply Z.pow_le_mono_r; unfold T; lia).
  assert (2 ^ 104 ≤ n * 2 ^ (2 * T)) as Hlow.
  { transitivity (2 ^ Z.log2 n * 2 ^ (2 * T)); [|nia].
    rewrite <- Z.pow_add_r by lia. apply Z.pow_le_mono_r; [lia|].
    unfold T. Z.to_euclidean_division_equations; lia. }
  assert (n * 2 ^ (2 * T) ≤ 2 ^ 106 - 2 ^ 56) as Hupp.
  { assert ((n + 1) * 2 ^ (2 * T) ≤ 2 ^ 106); [|lia].
    transitivity (2 ^ Z.succ (Z.log2 n) * 2 ^ (2 * T)); [nia|].
    rewrite <- Z.pow_add_r by lia. apply Z.pow_le_mono_r; [lia|].
    unfold T. Z.to_euclidean_division_equations; lia. }
  assert (2 ^ 52 ≤ q) as Hq52.
  { apply Z.sqrt_le_square; [lia|lia|]. lia. }
  assert (q + 1 < 2 ^ 53) as Hq53.
  { assert (q < 2 ^ 53 - 1); [|lia].
    apply Z.sqrt_lt_square; [lia|lia|]. lia. }
  unfold canon. destruct (Z.eqb_spec n 0); [lia|].
  destruct (canon_mantissa n ltac:(lia) ltac:(lia)) as [Hm Hlm].
  unfold Float64.sqrt, SpecFloat.SFsqrt, SpecFloat.SFsqrt_core_binary.
  rewrite Z2Pos.id by done. rewrite Zdigits2_pos_log2, Hlm by done.
  rewrite !Z.div2_div.
  unfold SpecFloat.fexp, SpecFloat.emin, Float64.prec, Float64.emax.
  replace (Z.min (Z.max ((52 + 1 + (Z.log2 n - 52) + 1) / 2 - 53)
                        (3 - 1024 - 53))
                 ((Z.log2 n - 52) / 2))
    with (- T) by (unfold T; Z.to_euclidean_division_equations; lia).
  assert (0 < Z.log2 n - 52 - 2 * - T) as Hs
    by (unfold T; Z.to_euclidean_division_equations; lia).
  destruct (Z.log2 n - 52 - 2 * - T) as [|s|s] eqn:Hseq; try lia.
  rewrite Z.shiftl_mul_pow2, <- Hseq by lia.
  replace (n * 2 ^ (52 - Z.log2 n) * 2 ^ (Z.log2 n - 52 - 2 * - T))
    with (n * 2 ^ (2 * T)).
  2:{ rewrite <- Z.mul_assoc, <- Z.pow_add_r by lia. do 2 f_equal. lia. }
  pose proof (Z.sqrtrem_spec (n * 2 ^ (2 * T)) ltac:(lia)) as Hrem.
  pose proof (Z.sqrtrem_sqrt (n * 2 ^ (2 * T))) as Hfst. fold q in Hfst.
  destruct (Z.sqrtrem (n * 2 ^ (2 * T))) as [q0 r]. cbn [fst] in Hfst.
  subst q0. set (l := if r =? 0 then _ else _).
  pose proof (round_nearest_even_bounds q l) as Hb.
  exists (SpecFloat.round_nearest_even q l).
  split; [|lia]. f_equal. apply binary_round_aux_round; lia.
Qed.

(** The roots of the floats of the integers below 2^50 ascend strictly. *)
Lemma sqrt_float_lt n m :
  0 ≤ n → n < m → m < 2 ^ 50 →
  Float64.ltb (sqrt_float n) (sqrt_float m) = true.
Proof.
  intros Hn Hnm Hm. unfold sqrt_float.
  destruct (sqrt_canon m ltac:(lia)) as (qm & -> & Hqm & Hm52 & Hm53).
  destruct (Z.eq_dec n 0) as [->|Hn0]; [done|].
  destruct (sqrt_canon n ltac:(lia)) as (qn & -> & Hqn & Hn52 & Hn53).
  apply ltb_finite.
  assert (Z.log2 n ≤ Z.log2 m) as Hlog by (apply Z.log2_le_mono; lia).
  pose proof (Z.log2_nonneg n). 
  assert (Z.log2 m < 50) as Hl by (apply Z.log2_lt_pow2; lia).
  destruct (Z.eq_dec (Z.log2 n / 2) (Z.log2 m / 2)) as [Heq|Hne].
  - right. split; [lia|]. rewrite Heq in *.
    set (T := 52 - Z.log2 m / 2) in *.
    assert (0 ≤ Z.log2 m / 2 ≤ 24) as HT
      by (Z.to_euclidean_division_equations; lia).
    assert (2 ^ 56 ≤ 2 ^ (2 * T)) as HP56
      by (apply Z.pow_le_mono_r; unfold T; lia).
    set (P := 2 ^ (2 * T)) in *.
    pose proof (Z.sqrt_spec (n * P) ltac:(lia)) as [Hsq _].
    assert (Z.sqrt (n * P) + 2 ≤ Z.sqrt (m * P)) as Hgap.
    { pose proof (Z.sqrt_nonneg (n * P)) as Hq0.
      apply Z.sqrt_le_square; [nia|lia|].
      change ((Z.sqrt (n * P) + 2) * (Z.sqrt (n * P) + 2) ≤ m * P). nia. }
    lia.
  - left. assert (Z.log2 n / 2 ≤ Z.log2 m / 2); [|lia].
    apply Z.div_le_mono; lia.
Qed.

End SqrtExact.

Section DistExact.

Lemma sqrt_float_ok n :
  0 ≤ n < 2 ^ 50 → Float64.sqrt (canon n) = Ok (sqrt_float n).
Proof.
  intros Hn. unfold sqrt_float.
  destruct (Z.eq_dec n 0) as [->|Hn0]; [done|].
  by destruct (sqrt_canon n ltac:(lia)) as (q' & -> & _).
Qed.

(** Between small colours the three squares and their sum are computed
    without rounding: the distance is the root of the float of the exact
    sum of squares. *)
Lemma dist_exact a b :
  small_colour a → small_colour b →
  CMap.dist a b = Ok (sqrt_float (sq_dist a b))
  ∧ 0 ≤ sq_dist a b < 2 ^ 50.
Proof.
  destruct a as [[a0 a1] a2], b as [[c0 c1] c2].
  unfold small_colour, sq_dist, CMap.dist. intros Ha Hb.
  assert (∀ x y, Z.abs x ≤ 2 ^ 23 → Z.abs y ≤ 2 ^ 23 →
                 0 ≤ (x - y) * (x - y) ≤ 2 ^ 48) as Hsq.
  { intros x y Hx Hy. assert (Z.abs (x - y) ≤ 2 ^ 24) by lia. nia. }
  pose proof (Hsq a0 c0 ltac:(lia) ltac:(lia)) as H0.
  pose proof (Hsq a1 c1 ltac:(lia) ltac:(lia)) as H1.
  pose proof (Hsq a2 c2 ltac:(lia) ltac:(lia)) as H2.
  rewrite !Z.pow_2_r.
  rewrite !pow_2_exact by lia. cbn [mbind result_bind].
  rewrite !add_canon by lia.
  split; [|lia]. apply sqrt_float_ok. lia.
Qed.

(** On small colours a computed distance undercuts another exactly when
    the exact one does. *)
Lemma dist_order a b b' d d' :
  small_colour a → small_colour b → small_colour b' →
  CMap.dist a b = Ok d → CMap.dist a b' = Ok d' →
  Float64.ltb d' d = false → sq_dist a b ≤ sq_dist a b'.
Proof.
  intros Ha Hb Hb' Hd Hd' Hlt.
  destruct (dist_exact a b Ha Hb) as [Hex Hr].
  destruct (dist_exact a b' Ha Hb') as [Hex' Hr'].
  rewrite Hex in Hd. rewrite Hex' in Hd'.
  injection Hd as <-. injection Hd' as <-.
  destruct (Z.le_gt_cases (sq_dist a b) (sq_dist a b')) as [|Hgt]; [done|].
  rewrite (sqrt_float_lt (sq_dist a b') (sq_dist a b)) in Hlt by lia.
  done.
Qed.

Lemma dist_defined_small color0 l :
  small_colour color0 →
  Forall (λ e, small_colour (CMap.color e)) l →
  dist_defined color0 l.
Proof.
  intros H0 Hl e He. rewrite Forall_forall in Hl.
  destruct (dist_exact color0 (CMap.color e) H0 (Hl e He)) as [-> _].
  by eexists.
Qed.

End DistExact.

Lemma eight_bit_small p : eight_bit p → small_colour p.
Proof.
  destruct p as [[r g] b]. unfold eight_bit, small_colour.
  change (2 ^ 23) with 8388608. lia.
Qed.

Lemma palette_colour_small p : palette_colour p → small_colour p.
Proof.
  destruct p as [[r g] b]. unfold palette_colour, small_colour.
  change (2 ^ 23) with 8388608. lia.
Qed.

(** C9.  The palette of a fresh colour map lists the colours by descending
    population times volume (the order of the drain).  A lookup with [map] or
    [nearest] that returns leaves the entries sorted ascending by population
    times volume, so the palette read afterwards is the ascending one; on
    8-bit pixels and an 8-bit colour both lookups return; and on some inputs
    the two palettes differ. *)
Theorem lookup_reorders_palette :
  (∀ pixels max_color cmap color0,
     MMCQ.quantize pixels max_color = Ok cmap →
     let before := PQueue.contents (CMap.vboxes cmap) in
     let after := PQueue.list_sort cmap_key before in
     StronglySorted (flip (key_le cmap_key)) before
     ∧ CMap.palette cmap = CMap.color <$> before
     ∧ StronglySorted (key_le cmap_key) after
     ∧ (∀ p c', CMap.map cmap color0 = Ok (p, c')
                ∨ CMap.nearest cmap color0 = Ok (p, c') →
                PQueue.contents (CMap.vboxes c') = after
                ∧ CMap.palette c' = CMap.color <$> after)
     ∧ (Forall eight_bit pixels → eight_bit color0 →
        (∃ p c', CMap.map cmap color0 = Ok (p, c'))
        ∧ (∃ p c', CMap.nearest cmap color0 = Ok (p, c'))))
  ∧ (∃ pixels max_color cmap color0 p c',
       MMCQ.quantize pixels max_color = Ok cmap
       ∧ Forall eight_bit pixels ∧ eight_bit color0
       ∧ CMap.map cmap color0 = Ok (p, c')
       ∧ CMap.palette c' ≠ CMap.palette cmap).
Proof.
  split.
  - intros pixels max_color cmap color0 Hq before after.
    pose proof Hq as (Hkey & Hstale & Hdesc)%quantize_cmap.
    assert (ordered (CMap.vboxes cmap) = after)
      as Hord by (unfold ordered; by rewrite Hstale, Hkey).
    split; [done|]. split; [done|]. split; [apply list_sort_sorted|].
    split.
    + intros p c' Hlookup.
      assert (PQueue.contents (CMap.vboxes c') = after) as Hc'.
      { rewrite <- Hord.
        destruct Hlookup as [H|H];
          [by eapply map_state|by eapply nearest_state]. }
      split; [done|]. unfold CMap.palette, PQueue.map. by rewrite Hc'.
    + intros H8 Hc0.
      assert (dist_defined color0 (PQueue.contents (CMap.vboxes cmap)))
        as Hdist.
      { apply dist_defined_small; [by apply eight_bit_small|].
        eapply Forall_impl; [by eapply quantize_colours_bounded|].
        intros e. apply palette_colour_small. }
      split.
      * destruct (map_ok cmap color0 Hdist) as (p & c' & H & _). eauto.
      * destruct (nearest_ok cmap color0 Hdist) as (p & c' & H & _). eauto.
  - exists [(0, 0, 0); (8, 0, 0); (16, 0, 0); (24, 0, 0)], 2.
    destruct (MMCQ.quantize [(0, 0, 0); (8, 0, 0); (16, 0, 0); (24, 0, 0)] 2)
      as [cmap| |] eqn:Hq; [|by vm_compute in Hq..].
    vm_compute in Hq. injection Hq as <-.
    eexists _, (0, 0, 0), _, _. split; [done|].
    split; [repeat constructor; unfold eight_bit; lia|].
    split; [unfold eight_bit; lia|].
    split; [by vm_compute|]. by vm_compute.
Qed.

Lemma lookup_reorders_palette_witness :
  let pixels := [(0, 0, 0); (8, 0, 0); (16, 0, 0); (24, 0, 0)] in
  let cmap := match MMCQ.quantize pixels 2 with
              | Ok c => c
              | _ => CMap.new
              end in
  let before := PQueue.contents (CMap.vboxes cmap) in
  let after := PQueue.list_sort cmap_key before in
  StronglySorted (flip (key_le cmap_key)) before
  ∧ ∃ p c', CMap.nearest cmap (200, 100, 50) = Ok (p, c')
            ∧ CMap.palette c' = CMap.color <$> after.
Proof.
  intros pixels cmap before after.
  destruct (proj1 lookup_reorders_palette pixels 2 cmap (200, 100, 50))
    as (Hdesc & _ & _ & Hsort & Hret).
  - vm_compute. reflexivity.
  - split; [exact Hdesc|].
    destruct Hret as [_ (p & c' & Hn)].
    + repeat constructor; unfold eight_bit; lia.
    + unfold eight_bit; lia.
    + exists p, c'. split; [exact Hn|].
      apply (Hsort p c'). by right.
Defined.

(** The two floating point effects of [nearest], on the colour map of the
    four pixels above: a far colour raises OverflowError, and a colour whose
    large channel swamps the others is at one computed distance from every
    entry, so that the first entry read wins although another is closer. *)
Lemma nearest_float_effects :
  let pixels := [(0, 0, 0); (8, 0, 0); (16, 0, 0); (24, 0, 0)] in
  let cmap := match MMCQ.quantize pixels 2 with
              | Ok c => c
              | _ => CMap.new
              end in
  CMap.palette cmap = [(16, 4, 4); (28, 4, 4); (4, 4, 4)]
  ∧ CMap.nearest cmap (10 ^ 200, 0, 0) = Raise OverflowError
  ∧ fst <$> CMap.nearest cmap (9, 0, 4) = Ok (Some (4, 4, 4))
  ∧ fst <$> CMap.nearest cmap (9, 2 ^ 40, 4) = Ok (Some (28, 4, 4)).
Proof. by vm_compute. Qed.

(** X17.  On a colour and a colour map whose channels are at most 2^23 in
    absolute value, as an 8-bit colour and the colour map of 8-bit pixels
    are, [nearest] returns: [None] on a colour map without entries, and
    otherwise the colour of an entry at the smallest Euclidean distance
    from the colour. *)
Theorem nearest_returns_closest c color0 :
  small_colour color0 →
  Forall (λ e, small_colour (CMap.color e))
         (PQueue.contents (CMap.vboxes c)) →
  ∃ r c', CMap.nearest c color0 = Ok (r, c')
    ∧ let entries := PQueue.contents (CMap.vboxes c) in
      (entries = [] ∧ r = None)
      ∨ ∃ e, e ∈ entries ∧ r = Some (CMap.color e)
             ∧ ∀ e', e' ∈ entries →
                 sq_dist color0 (CMap.color e)
                 ≤ sq_dist color0 (CMap.color e').
Proof.
  intros H0 Hl.
  destruct (nearest_ok c color0 (dist_defined_small _ _ H0 Hl))
    as (r & c' & Hn & _).
  exists r, c'. split; [done|].
  destruct (nearest_minimal _ _ _ _ Hn)
    as [?|(e & d & He & -> & Hd & Hmin)]; [by left|right].
  exists e. split; [done|]. split; [done|]. intros e' He'.
  destruct (Hmin e' He') as (d' & Hd' & Hlt).
  rewrite Forall_forall in Hl.
  by apply (dist_order color0 (CMap.color e) (CMap.color e') d d');
    auto.
Qed.

Lemma nearest_returns_closest_witness :
  let pixels := [(0, 0, 0); (8, 0, 0); (16, 0, 0); (24, 0, 0)] in
  let cmap := match MMCQ.quantize pixels 2 with
              | Ok c => c
              | _ => CMap.new
              end in
  ∃ r c', CMap.nearest cmap (9, 0, 4) = Ok (r, c')
    ∧ let entries := PQueue.contents (CMap.vboxes cmap) in
      (entries = [] ∧ r = None)
      ∨ ∃ e, e ∈ entries ∧ r = Some (CMap.color e)
             ∧ ∀ e', e' ∈ entries →
                 sq_dist (9, 0, 4) (CMap.color e)
                 ≤ sq_dist (9, 0, 4) (CMap.color e').
Proof.
  intros pixels cmap. apply (nearest_returns_closest cmap (9, 0, 4)).
  - by vm_compute.
  - eapply Forall_impl; [|intros e; apply palette_colour_small].
    apply (quantize_colours_bounded pixels 2 cmap).
    + vm_compute. reflexivity.
    + repeat constructor; unfold eight_bit; lia.
Defined.

(** X26.  Whatever the colours, when [nearest] returns, it gives [None] on
    a colour map without entries, and otherwise the colour of an entry whose
    distance, as the floats compute it, no entry undercuts. *)
Theorem nearest_scan_minimum c color0 r c' :
  CMap.nearest c color0 = Ok (r, c') →
  let entries := PQueue.contents (CMap.vboxes c) in
  (entries = [] ∧ r = None)
  ∨ ∃ e d, e ∈ entries ∧ r = Some (CMap.color e)
           ∧ CMap.dist color0 (CMap.color e) = Ok d
           ∧ ∀ e', e' ∈ entries →
               ∃ d', CMap.dist color0 (CMap.color e') = Ok d'
                     ∧ Float64.ltb d' d = false.
Proof. apply nearest_minimal. Qed.

Lemma nearest_scan_minimum_witness :
  let pixels := [(0, 0, 0); (8, 0, 0); (16, 0, 0); (24, 0, 0)] in
  let cmap := match MMCQ.quantize pixels 2 with
              | Ok c => c
              | _ => CMap.new
              end in
  let entries := PQueue.contents (CMap.vboxes cmap) in
  (entries = [] ∧ Some (28, 4, 4) = None)
  ∨ ∃ e d, e ∈ entries ∧ Some (28, 4, 4) = Some (CMap.color e)
           ∧ CMap.dist (9, 2 ^ 40, 4) (CMap.color e) = Ok d
           ∧ ∀ e', e' ∈ entries →
               ∃ d', CMap.dist (9, 2 ^ 40, 4) (CMap.color e') = Ok d'
                     ∧ Float64.ltb d' d = false.
Proof.
  intros pixels cmap.
  apply (nearest_scan_minimum cmap (9, 2 ^ 40, 4) (Some (28, 4, 4))
           (match CMap.nearest cmap (9, 2 ^ 40, 4) with
            | Ok (_, c') => c'
            | _ => cmap
            end)).
  vm_compute. reflexivity.
Defined.

Section MapInput.

(** X16.  For a pixel of the quantized input, [map] returns the colour of a
    retained region that contains the pixel; it does not fall back on
    [nearest]. *)
Theorem map_input_pixel pixels max_color cmap p :
  MMCQ.quantize pixels max_color = Ok cmap → p ∈ pixels →
  ∃ e c', CMap.map cmap p = Ok (Some (CMap.color e), c')
          ∧ e ∈ PQueue.contents (CMap.vboxes cmap)
          ∧ VBox.contains (CMap.vbox e) p.
Proof.
  intros Hq Hp.
  pose proof (quantize_cover _ _ _ p Hq) as Hcover.
  rewrite cover_singleton in Hcover.
  pose proof (vbox_from_pixels_contains pixels (MMCQ.get_histo pixels) p Hp)
    as Hin. apply Is_true_true in Hin. rewrite Hin in Hcover.
  unfold CMap.map.
  destruct (CMap.map_loop _ _ _) as [[found q]| |] eqn:Hloop.
  2,3: destruct (map_loop_ok (range 0 (PQueue.size (CMap.vboxes cmap)))
                  (CMap.vboxes cmap) p (range_size _)) as [f Hf]; congruence.
  apply map_loop_found in Hloop; [|apply range_size].
  destruct found as [col|].
  - destruct Hloop as (i & e & _ & He & Hcont & ->).
    simpl. exists e, (CMap.mk q). split; [done|]. split; [|done].
    rewrite <- ordered_perm. by eapply list_elem_of_lookup_2.
  - exfalso.
    assert (cover p (CMap.vbox <$> PQueue.contents (CMap.vboxes cmap)) = 0%nat)
      as H0; [|lia].
    unfold cover. apply length_zero_iff_nil.
    apply elem_of_nil_inv. intros v [Hv Hcont]%list_elem_of_filter.
    apply list_elem_of_fmap in Hcont as (e & -> & He).
    rewrite <- ordered_perm in He.
    apply list_elem_of_lookup in He as [n Hn].
    apply (Hloop (Z.of_nat n) e); [|by rewrite Nat2Z.id|done].
    apply lookup_lt_Some in Hn. rewrite ordered_length in Hn.
    unfold range, PQueue.size. apply elem_of_seqZ. lia.
Qed.
Lemma map_input_pixel_witness :
  let pixels := [(0, 0, 0); (8, 0, 0); (16, 0, 0); (24, 0, 0)] in
  let cmap := match MMCQ.quantize pixels 2 with Ok c => c | _ => CMap.new end in
  ∃ e c', CMap.map cmap (16, 0, 0) = Ok (Some (CMap.color e), c')
          ∧ e ∈ PQueue.contents (CMap.vboxes cmap)
          ∧ VBox.contains (CMap.vbox e) (16, 0, 0).
Proof.
  intros pixels cmap. apply (map_input_pixel pixels 2 cmap (16, 0, 0)).
  - vm_compute. reflexivity.
  - unfold pixels. set_solver.
Defined.
End MapInput.

(** ** Reads of the priority queue *)

Section QueueReads.
Context {A : Type}.
Implicit Types q : PQueue.t A.

(** X18.  On a well-formed queue [pop] removes an element of largest key:
    the contents are the remaining ones plus the popped one, and no remaining
    element has a larger key. *)
Theorem pop_largest q x q' :
  wf q → PQueue.pop q = Ok (x, q') →
  PQueue.contents q ≡ₚ PQueue.contents q' ++ [x]
  ∧ Forall (λ y, PQueue.sort_key q y ≤ PQueue.sort_key q x)
           (PQueue.contents q')
  ∧ PQueue.size q' = PQueue.size q - 1
  ∧ wf q'.
Proof.
  intros Hwf Hpop. pose proof (pop_contents _ _ _ Hpop) as Hperm.
  split; [done|]. split; [|split; [|by eapply pop_wf]].
  - pose proof (ordered_sorted q Hwf) as Hs.
    apply pop_inv in Hpop as (Ho & _ & _). rewrite Ho in Hs.
    apply Forall_forall. intros y Hy.
    apply (StronglySorted_app_1_elem_of _ _ _ y x Hs Hy).
    by apply list_elem_of_singleton.
  - unfold PQueue.size. rewrite Hperm, length_app. simpl. lia.
Qed.

Lemma pop_peek_agree q :
  (PQueue.contents q = [] →
   PQueue.pop q = Raise IndexError ∧ PQueue.peek q None = Raise IndexError)
  ∧ (PQueue.contents q ≠ [] →
     ∃ x q', PQueue.pop q = Ok (x, q')
             ∧ PQueue.peek q None = Ok (x, settle q)).
Proof.
  split.
  - intros Hnil. assert (ordered q = []) as Ho.
    { apply length_zero_iff_nil. by rewrite ordered_length, Hnil. }
    unfold PQueue.pop, PQueue.peek.
    set (q0 := if PQueue._sorted q then q else PQueue.sort q).
    assert (PQueue.contents q0 = []) as ->; [|done].
    rewrite <- Ho. unfold q0, ordered. by destruct (PQueue._sorted q).
  - intros Hne. destruct (pop_ok q Hne) as (x & q' & Hpop).
    exists x, q'. split; [done|].
    apply pop_inv in Hpop as (Ho & _ & _).
    unfold PQueue.peek.
    set (q0 := if PQueue._sorted q then q else PQueue.sort q).
    assert (q0 = settle q) as ->.
    { unfold q0, settle, ordered. by destruct q as [? ? [|]]. }
    cbn [PQueue.contents settle]. rewrite Ho, length_app. simpl.
    unfold PQueue.getitem. rewrite length_app. simpl.
    destruct (Z.ltb_spec (Z.of_nat (length (PQueue.contents q') + 1) - 1) 0);
      [lia|].
    destruct (Z.ltb_spec (Z.of_nat (length (PQueue.contents q') + 1) - 1) 0);
      [lia|].
    destruct (Z.leb_spec (Z.of_nat (length (PQueue.contents q') + 1))
                (Z.of_nat (length (PQueue.contents q') + 1) - 1)); [lia|].
    simpl.
    replace (Z.to_nat (Z.of_nat (length (PQueue.contents q') + 1) - 1))
      with (length (PQueue.contents q')) by lia.
    by rewrite list_lookup_middle.
Qed.

Lemma list_sort_snoc_max (key : A → Z) l x :
  Forall (λ y, key y ≤ key x) l →
  PQueue.list_sort key (l ++ [x]) = PQueue.list_sort key l ++ [x].
Proof.
  intros Hmax. symmetry. apply sort_stable_unique.
  - apply StronglySorted_app. split; [|split].
    + intros y z Hy Hz%list_elem_of_singleton. subst z.
      rewrite list_sort_perm in Hy. rewrite Forall_forall in Hmax.
      by apply Hmax.
    + apply list_sort_sorted.
    + repeat constructor.
  - intros k. by rewrite !filter_app, list_sort_stable.
Qed.

(** X19.  On an empty queue [pop] and [peek] raise IndexError, and on any
    other queue both return, [peek] without an index the element that [pop]
    removes. *)
Theorem pop_peek_same_element q :
  match PQueue.contents q with
  | [] => PQueue.pop q = Raise IndexError
          ∧ PQueue.peek q None = Raise IndexError
  | _ :: _ => ∃ x q', PQueue.pop q = Ok (x, q')
                      ∧ PQueue.peek q None = Ok (x, settle q)
  end.
Proof.
  destruct (pop_peek_agree q) as [Hnil Hne].
  destruct (PQueue.contents q); [by apply Hnil|by apply Hne].
Qed.

(** X20.  An element pushed with a key at least as large as every key in
    the queue is the next one popped, also when other elements have the same
    key: among equal keys the latest push is popped first. *)
Theorem push_pop_latest q x :
  Forall (λ y, PQueue.sort_key q y ≤ PQueue.sort_key q x) (PQueue.contents q) →
  ∃ q', PQueue.pop (PQueue.push q x) = Ok (x, q')
        ∧ PQueue.contents q'
          = PQueue.list_sort (PQueue.sort_key q) (PQueue.contents q).
Proof.
  intros Hmax.
  destruct (pop_ok (PQueue.push q x)) as (y & q' & Hpop).
  { simpl. by destruct (PQueue.contents q). }
  pose proof (pop_inv _ _ _ Hpop) as (Ho & _ & _).
  rewrite ordered_push, list_sort_snoc_max in Ho by done.
  apply app_inj_tail in Ho as [Hc ->]. by exists q'.
Qed.
End QueueReads.

Lemma pop_largest_witness :
  let q := PQueue.push (PQueue.push (PQueue.push (PQueue.new id) 3) 7) 5 in
  let q' := PQueue.mk id [3; 5] true in
  PQueue.contents q ≡ₚ PQueue.contents q' ++ [7]
  ∧ Forall (λ y, PQueue.sort_key q y ≤ PQueue.sort_key q 7)
           (PQueue.contents q')
  ∧ PQueue.size q' = PQueue.size q - 1
  ∧ wf q'.
Proof.
  intros q q'. apply (pop_largest q 7 q'); [|reflexivity].
  unfold wf. simpl. done.
Defined.

Lemma push_pop_latest_witness :
  let q := PQueue.push (PQueue.push (PQueue.new (λ p : Z * Z, p.1)) (2, 0))
                       (1, 1) in
  ∃ q', PQueue.pop (PQueue.push q (2, 2)) = Ok ((2, 2), q')
        ∧ PQueue.contents q'
          = PQueue.list_sort (PQueue.sort_key q) (PQueue.contents q).
Proof.
  intros q. apply (push_pop_latest q (2, 2)).
  repeat constructor; simpl; lia.
Defined.

(** ** Sampling and the dominant colour *)

Section SamplingFacts.
Import ColorThief.

Lemma keeps_spec no_white no_black r g b a :
  keeps no_white no_black (r, g, b, a) = true
  ↔ alpha_threshold ≤ a
    ∧ ¬ (no_white = true ∧ no_black = false ∧ is_white r g b = true)
    ∧ ¬ (no_black = true ∧ no_white = false ∧ is_black r g b = true).
Proof.
  unfold keeps. destruct (Z.leb_spec alpha_threshold a) as [Ha|Ha].
  2:{ split; [done|lia]. }
  assert (is_white r g b = true → is_black r g b = true → False) as Hex.
  { rewrite is_white_spec, is_black_spec. lia. }
  destruct no_white, no_black, (is_white r g b), (is_black r g b);
    simpl; split; try done; try tauto; intros _; split; try done;
    split; intros (? & ? & ?); done.
Qed.

Lemma sample_sound pixels no_white no_black idxs acc l :
  sample pixels no_white no_black idxs acc = Ok l →
  ∀ p, p ∈ l →
       p ∈ acc ∨ ∃ q, q ∈ pixels ∧ keeps no_white no_black q = true
                      ∧ rgb_of q = p.
Proof.
  revert acc. induction idxs as [|i idxs IH]; intros acc; simpl.
  { intros [= <-] p Hp. by left. }
  unfold PQueue.getitem.
  destruct (_ || _); [done|].
  destruct (pixels !! _) as [q|] eqn:Hq; [|done]. simpl.
  destruct q as [[[r g] b] a].
  destruct (keeps no_white no_black (r, g, b, a)) eqn:Hk.
  - intros Hrec p Hp. destruct (IH _ Hrec p Hp) as [Hacc|?]; [|by right].
    apply elem_of_app in Hacc as [?|Hs]; [by left|].
    apply list_elem_of_singleton in Hs as ->.
    right. exists (r, g, b, a). split; [by eapply list_elem_of_lookup_2|done].
  - apply IH.
Qed.

Lemma valid_pixels_sound self quality no_white no_black l :
  valid_pixels self quality no_white no_black = Ok l →
  Forall (λ p, ∃ q, q ∈ pixels self ∧ rgb_of q = p
                    ∧ keeps no_white no_black q = true
                    ∧ alpha_threshold ≤ q.2) l.
Proof.
  unfold valid_pixels.
  destruct (range_step _ _ _) as [idxs| |]; try done. simpl.
  intros Hs. apply Forall_forall. intros p Hp.
  destruct (sample_sound _ _ _ _ _ _ Hs p Hp) as [Hnil|(q & Hq & Hk & Hrgb)].
  { by apply elem_of_nil in Hnil. }
  exists q. split; [done|]. split; [done|]. split; [done|].
  destruct q as [[[r g] b] a]. by apply keeps_spec in Hk as [? _].
Qed.

Lemma sample_all pixels no_white no_black (m k : nat) acc :
  (k + m)%nat = length pixels →
  sample pixels no_white no_black (Z.of_nat <$> seq k m) acc
  = Ok (acc ++ (rgb_of <$> filter (λ q, keeps no_white no_black q = true)
                                  (drop k pixels))).
Proof.
  revert k acc. induction m as [|m IH]; intros k acc Hlen.
  { simpl. rewrite drop_ge by lia. by rewrite filter_nil, app_nil_r. }
  cbn [seq fmap list_fmap sample].
  destruct (getitem_ok pixels (Z.of_nat k)) as (q & Hq & ->); [lia|].
  rewrite Nat2Z.id in Hq. cbn [mbind result_bind].
  rewrite (drop_S _ _ _ Hq), filter_cons.
  destruct q as [[[r g] b] a].
  destruct (keeps _ _ _) eqn:Hk.
  - rewrite decide_True by done.
    rewrite (IH (S k)) by lia. rewrite fmap_cons, <- app_assoc. done.
  - rewrite decide_False by done. by rewrite (IH (S k)) by lia.
Qed.

(** X21.  A sampled pixel is kept exactly when it is opaque, and neither
    near-white while only [no_white] is set nor near-black while only
    [no_black] is set: with both flags set no colour is rejected. *)
Theorem kept_pixel_criterion no_white no_black r g b a :
  keeps no_white no_black (r, g, b, a) = true
  ↔ alpha_threshold ≤ a
    ∧ ¬ (no_white = true ∧ no_black = false ∧ is_white r g b = true)
    ∧ ¬ (no_black = true ∧ no_white = false ∧ is_black r g b = true).
Proof. apply keeps_spec. Qed.

(** X22.  Every pixel handed to the quantizer is the colour of an opaque
    pixel of the image that passes the colour tests. *)
Theorem valid_pixels_from_image self quality no_white no_black l :
  valid_pixels self quality no_white no_black = Ok l →
  Forall (λ p, ∃ q, q ∈ pixels self ∧ rgb_of q = p
                    ∧ keeps no_white no_black q = true
                    ∧ alpha_threshold ≤ q.2) l.
Proof. apply valid_pixels_sound. Qed.

Lemma valid_pixels_from_image_witness :
  let self := mk [(10, 20, 30, 255); (1, 2, 3, 0); (250, 250, 250, 200);
                  (90, 80, 70, 100)] None None in
  Forall (λ p, ∃ q, q ∈ pixels self ∧ rgb_of q = p
                    ∧ keeps true false q = true
                    ∧ alpha_threshold ≤ q.2) [(10, 20, 30); (90, 80, 70)].
Proof.
  intros self. apply (valid_pixels_from_image self 1 true false). reflexivity.
Defined.

(** X23.  With the quality 1 every kept pixel of the image is handed to the
    quantizer, in the order of the image. *)
Theorem valid_pixels_quality_1 self no_white no_black :
  valid_pixels self 1 no_white no_black
  = Ok (rgb_of <$> filter (λ q, keeps no_white no_black q = true)
                          (pixels self)).
Proof.
  unfold valid_pixels, range_step. simpl.
  replace ((Z.of_nat (length (pixels self)) - 0 + 1 - 1) / 1)
    with (Z.of_nat (length (pixels self))) by (rewrite Z.div_1_r; lia).
  rewrite Nat2Z.id.
  rewrite (list_fmap_ext (λ k, 0 + 1 * Z.of_nat k) Z.of_nat
             (seq 0 (length (pixels self))))
    by (intros; lia).
  by rewrite (sample_all _ _ _ (length (pixels self)) 0 []).
Qed.

Lemma get_palette_quality self color_count quality no_white no_black dist :
  (quality = 0 →
   get_palette self color_count quality no_white no_black dist
   = Raise ValueError)
  ∧ (quality < 0 →
     get_palette self color_count quality no_white no_black dist
     = Ok (Colors [default_color self], self)).
Proof.
  split.
  - intros ->. done.
  - intros Hq. unfold get_palette. apply get_palette_no_valid_pixels.
    unfold valid_pixels, range_step.
    destruct (Z.eqb_spec quality 0); [lia|].
    destruct (Z.ltb_spec 0 quality); [lia|].
    assert ((0 - Z.of_nat (length (pixels self)) - quality - 1) / - quality ≤ 0)
      as Hn.
    { apply Z.lt_succ_r. apply Z.div_lt_upper_bound; lia. }
    rewrite Z2Nat.nonpos by done. done.
Qed.

(** X24.  A quality of 0 makes [get_palette] raise ValueError, and a negative
    quality makes it return the default colour and leave the object as it
    was, whatever the image holds. *)
Theorem get_palette_nonpositive_quality self color_count quality
    no_white no_black dist :
  quality ≤ 0 →
  get_palette self color_count quality no_white no_black dist
  = if quality =? 0 then Raise ValueError
    else Ok (Colors [default_color self], self).
Proof.
  intros Hq.
  destruct (get_palette_quality self color_count quality no_white no_black
              dist) as [H0 Hneg].
  destruct (Z.eqb_spec quality 0); [by apply H0|apply Hneg; lia].
Qed.

Lemma get_palette_nonpositive_quality_witness :
  let self := mk [(10, 20, 30, 255); (90, 80, 70, 255)] None
                 (Some (1, 2, 3)) in
  get_palette self 5 (-2) true true false
  = Ok (Colors [Some (1, 2, 3)], self).
Proof.
  intros self.
  apply (get_palette_nonpositive_quality self 5 (-2) true true false). lia.
Defined.
End SamplingFacts.

Section ColourResults.
Import ColorThief.

Lemma sample_ok pixels no_white no_black idxs acc :
  (∀ i, i ∈ idxs → 0 ≤ i < Z.of_nat (length pixels)) →
  ∃ l, sample pixels no_white no_black idxs acc = Ok l.
Proof.
  revert acc. induction idxs as [|i idxs IH]; intros acc Hin.
  { by eexists. }
  cbn [sample].
  destruct (getitem_ok pixels i) as (q & _ & ->); [apply Hin; by left|].
  cbn [mbind result_bind]. destruct q as [[[r g] b] a].
  destruct (keeps _ _ _); apply IH; intros j Hj; apply Hin; by right.
Qed.

Lemma valid_pixels_ok self quality no_white no_black :
  quality ≠ 0 → ∃ l, valid_pixels self quality no_white no_black = Ok l.
Proof.
  intros Hq. unfold valid_pixels.
  destruct (range_step_bounds (Z.of_nat (length (pixels self))) quality)
    as (idxs & -> & Hin); [lia|done|].
  cbn [mbind result_bind]. by apply sample_ok.
Qed.

(** X25.  With a non-zero quality [get_color] never fails on an image of
    8-bit pixels.  When the filter keeps no sampled pixel it returns the
    default colour and leaves the object as it was.  Otherwise it quantizes
    the kept pixels into five colours, stores the colour map in the object
    and returns the first colour of the palette, an 8-bit colour, together
    with its share, which lies in (0, 1], when the distribution is asked
    for. *)
Theorem get_color_returns self quality no_white no_black dist :
  quality ≠ 0 → Forall (λ q, eight_bit (rgb_of q)) (pixels self) →
  ∃ l, valid_pixels self quality no_white no_black = Ok l
    ∧ match l with
      | [] =>
          get_color self quality no_white no_black dist
          = Ok (Color (default_color self), self)
      | _ :: _ =>
          ∃ cmap col f,
            MMCQ.quantize l 5 = Ok cmap
            ∧ head (CMap.palette cmap) = Some col
            ∧ eight_bit col
            ∧ head <$> CMap.palette_distribution cmap = Ok (Some (col, f))
            ∧ (0 < f)%Q ∧ (f <= 1)%Q
            ∧ get_color self quality no_white no_black dist
              = Ok (if dist then ColorFraction col f else Color (Some col),
                    mk (pixels self) (Some cmap) (default_color self))
      end.
Proof.
  intros Hq H8.
  destruct (valid_pixels_ok self quality no_white no_black Hq) as (l & Hl).
  exists l. split; [done|].
  unfold get_color, get_palette, get_palette_with. rewrite Hl.
  cbn [mbind result_bind].
  destruct l as [|p0 l0]; [done|]. set (l := p0 :: l0) in *.
  assert ((Z.of_nat (length l) =? 0) = false) as -> by (by apply Z.eqb_neq).
  assert (l ≠ []) as Hnil by done.
  assert (Forall eight_bit l) as Hl8.
  { apply valid_pixels_sound in Hl. apply Forall_forall. intros p Hp.
    destruct (proj1 (Forall_forall _ _) Hl p Hp) as (q & Hin & <- & _).
    by apply (proj1 (Forall_forall _ _) H8). }
  destruct (quantize_ok l 5 Hnil ltac:(lia)) as (cmap & Hcmap & _).
  rewrite Hcmap. cbn [mbind result_bind].
  destruct (quantize_dominant _ _ _ Hcmap Hl8)
    as (e & rest & Hc & _ & Hpos & He8).
  destruct (quantize_distribution _ _ _ Hcmap)
    as (d & Hdist & Hd1 & Hd2 & Hd01 & _).
  unfold CMap.palette, PQueue.map in Hd1. rewrite Hc in Hd1, Hd2.
  destruct d as [|[c f] d]; [done|].
  simpl in Hd1, Hd2. injection Hd1 as -> _. injection Hd2 as Hf _.
  apply Forall_cons in Hd01 as [[_ Hle] _]. simpl in Hle.
  exists cmap, (CMap.color e), f.
  split; [done|]. split; [unfold CMap.palette, PQueue.map; by rewrite Hc|].
  split; [done|]. split; [by rewrite Hdist|]. split.
  { rewrite Hf.
    pose proof (quantize_population _ _ _ Hcmap) as (_ & Hpop & Htot & _).
    rewrite Hpop in Htot.
    apply Qlt_shift_div_l; [by rewrite <- (Zlt_Qlt 0)|].
    rewrite Qmult_0_l. by rewrite <- (Zlt_Qlt 0). }
  split; [done|].
  rewrite Hdist. cbn [mbind result_bind]. destruct dist; [done|].
  unfold CMap.palette, PQueue.map. by rewrite Hc.
Qed.

Lemma get_color_returns_witness :
  let self := mk [(255, 0, 0, 255); (250, 10, 0, 255); (0, 0, 200, 255);
                  (255, 255, 255, 20)] None None in
  ∃ l, valid_pixels self 1 true true = Ok l
    ∧ match l with
      | [] =>
          get_color self 1 true true true = Ok (Color (default_color self), self)
      | _ :: _ =>
          ∃ cmap col f,
            MMCQ.quantize l 5 = Ok cmap
            ∧ head (CMap.palette cmap) = Some col
            ∧ eight_bit col
            ∧ head <$> CMap.palette_distribution cmap = Ok (Some (col, f))
            ∧ (0 < f)%Q ∧ (f <= 1)%Q
            ∧ get_color self 1 true true true
              = Ok (ColorFraction col f,
                    mk (pixels self) (Some cmap) (default_color self))
      end.
Proof.
  intros self. apply (get_color_returns self 1 true true true); [lia|].
  repeat constructor; unfold eight_bit, rgb_of; lia.
Defined.
End ColourResults.
